(** * ktb-image: the mockup generator of [generator/main.py]

    A shallow embedding of the image pipeline (flood-fill segmentation,
    trim with padding, fit-and-paste) and of the incremental controller
    (rule matching, history cutoff, size circuit breaker, per-URL
    bookkeeping), with the properties the design document states about
    them.

    Python values are modelled as follows.
    - [int] is [Z]; [str] is [string]; [bytes] is [list Byte.byte].
    - a [dict] used as a map is a [gmap]; a [dict] whose iteration order the
      program observes ([domains], [images_for_zip]) is an association
      list in insertion order; a [set] is a [gset].
    - an exception is the [Raise] branch of [Result]; [None] is [option].
    - the network, the disk, the clock and the parts of Pillow that resample,
      blend, draw and encode are fields of a [World] record. *)

From Stdlib Require Import ZArith Lia Bool Ascii String List Strings.Byte.
From Stdlib Require Import Sorting.Sorted Floats.SpecFloat.
From stdpp Require Import base option list gmap strings pretty.

Local Open Scope Z_scope.

(* ------------------------------------------------------------------ *)
(** ** Exceptions *)

(** The outcome of a Python expression that may raise. *)
Inductive Result (A : Type) : Type :=
| Ok (a : A)
| Raise.
Arguments Ok {A} a.
Arguments Raise {A}.

#[global] Instance result_ret : MRet Result := fun A a => Ok a.
#[global] Instance result_bind : MBind Result := fun A B k m =>
  match m with
  | Ok a => k a
  | Raise => Raise
  end.

(* ------------------------------------------------------------------ *)
(** ** Strings *)

(** [s.startswith(p)]. *)
Fixpoint starts_with (p s : string) : bool :=
  match p, s with
  | EmptyString, _ => true
  | String _ _, EmptyString => false
  | String a p', String b s' => Ascii.eqb a b && starts_with p' s'
  end.

(** [p in s] on strings: [p] occurs in [s] as a contiguous run. *)
Fixpoint str_contains (p s : string) : bool :=
  starts_with p s ||
  match s with
  | EmptyString => false
  | String _ s' => str_contains p s'
  end.

(** [os.path.basename(url)]: what follows the last slash. *)
Fixpoint basename (url : string) : string :=
  match url with
  | EmptyString => EmptyString
  | String c rest =>
      if str_contains "/" rest then basename rest
      else if Ascii.eqb c "/" then rest
      else url
  end.

(** [l[:k]] for a Python integer [k]: a negative [k] counts from the end. *)
Definition py_slice_to {A} (k : Z) (l : list A) : list A :=
  if 0 <=? k then take (Z.to_nat k) l
  else take (length l - Z.to_nat (- k))%nat l.

(* ------------------------------------------------------------------ *)
(** ** Configuration *)

(** A rectangle [{x, y, w, h}] of the configuration. *)
Record Coords := mkCoords { cx : Z; cy : Z; cw : Z; ch : Z }.

(** One matching rule of a domain.  [pattern] is read with
    [rule['pattern']], which raises [KeyError] when the key is absent; every
    other key is read with [.get]. *)
Record Rule := mkRule {
  pattern : option string;
  action : option string;
  coords : option Coords;
  skipWhite : bool;
  skipBlack : bool;
  mockup_sets_to_use : list string
}.

(** An entry of [mockup_sets]. *)
Record MockupSetConfig := mkMockupSet {
  ms_white : option string;
  ms_black : option string;
  ms_coords : option Coords;
  ms_watermark_text : option string;
  ms_title_prefix_to_add : option string;
  ms_title_suffix_to_add : option string
}.

Record Config := mkConfig {
  max_urls_per_domain : Z;
  history_to_keep : Z;
  title_clean_keywords : list string;
  domains : list (string * list Rule);
  mockup_sets : gmap string MockupSetConfig
}.

(** [MAX_REPO_SIZE_MB = 900]. *)
Definition MAX_REPO_SIZE_MB : Z := 900.

(** [get_repo_size] divides the byte count by [1024 * 1024]; dividing by a
    power of two is exact, so [get_repo_size(..) >= MAX_REPO_SIZE_MB] holds
    exactly when the byte count reaches this many bytes. *)
Definition MAX_REPO_SIZE_BYTES : Z := MAX_REPO_SIZE_MB * (1024 * 1024).

(* ------------------------------------------------------------------ *)
(** ** Rule matcher *)

(** The sort key [len(x['pattern'])]. *)
Definition pattern_key (r : Rule) : Result nat :=
  match pattern r with
  | Some p => Ok (String.length p)
  | None => Raise
  end.

(** [[(key(x), x) for x in rules]]: the keys are computed before anything is
    moved, and the first [KeyError] ends the sort. *)
Fixpoint decorate (rs : list Rule) : Result (list (nat * Rule)) :=
  match rs with
  | [] => Ok []
  | r :: rest =>
      k ← pattern_key r;
      ks ← decorate rest;
      Ok ((k, r) :: ks)
  end.

(** Stable insertion for a descending order: [x] stood before everything in
    [l] in the original list, so it goes before the first element whose key is
    not greater than its own. *)
Fixpoint insert_desc (x : nat * Rule) (l : list (nat * Rule)) : list (nat * Rule) :=
  match l with
  | [] => [x]
  | y :: l' =>
      if (x.1 <? y.1)%nat then y :: insert_desc x l' else x :: y :: l'
  end.

Fixpoint sort_desc (l : list (nat * Rule)) : list (nat * Rule) :=
  match l with
  | [] => []
  | x :: l' => insert_desc x (sort_desc l')
  end.

(** [domain_rules.sort(key=lambda x: len(x['pattern']), reverse=True)]. *)
Definition sort_rules (rs : list Rule) : Result (list Rule) :=
  ks ← decorate rs; Ok (snd <$> sort_desc ks).

(** [rule["pattern"] in filename]. *)
Definition rule_matches (filename : string) (r : Rule) : bool :=
  match pattern r with
  | Some p => str_contains p filename
  | None => false
  end.

(** [next((rule for rule in domain_rules if rule["pattern"] in filename), None)]. *)
Definition match_rule (rules : list Rule) (filename : string) : option Rule :=
  List.find (rule_matches filename) rules.

(* ------------------------------------------------------------------ *)
(** ** History cutoff and retention *)

(** The loop of [main] that fills [urls_to_process]; [i] is the index that
    [enumerate] yields. *)
Fixpoint window_loop (stop_urls_set : gset string) (max_urls : Z) (i : Z)
    (all_urls : list string) : list string :=
  match all_urls with
  | [] => []
  | url :: rest =>
      if bool_decide (url ∈ stop_urls_set) then []
      else if max_urls <=? i then []
      else url :: window_loop stop_urls_set max_urls (i + 1) rest
  end.

Definition compute_window (all_urls last_processed_urls : list string)
    (max_urls : Z) : list string :=
  window_loop (list_to_set last_processed_urls) max_urls 0 all_urls.

(** [(successfully_processed_this_run + previous_urls_for_domain)[:history_to_keep]]. *)
Definition update_history (successfully_processed previous : list string)
    (keep : Z) : list string :=
  py_slice_to keep (successfully_processed ++ previous).

(* ------------------------------------------------------------------ *)
(** ** Python floats

    IEEE 754 binary64 through the Standard Library's [SpecFloat]: every
    operation below is the correctly rounded one, computed on integers.
    Where IEEE 754 gives an infinity, Python raises [OverflowError]. *)

Definition float : Type := spec_float.
Definition prec : Z := 53.
Definition emax : Z := 1024.

(** An integer of any size as a significand with the exponent 0, not
    rounded. *)
Definition exact_int (z : Z) : float :=
  match z with
  | Z0 => S754_zero false
  | Zpos p => S754_finite false p 0
  | Zneg p => S754_finite true p 0
  end.

Definition finite_or_raise (f : float) : Result float :=
  match f with
  | S754_infinity _ => Raise
  | _ => Ok f
  end.

(** [float(z)]: the nearest binary64, ties to even; [OverflowError] when
    that is beyond the largest one. *)
Definition float_of_int (z : Z) : Result float :=
  finite_or_raise (binary_normalize prec emax z 0 false).

(** [a / b] on integers: the exact quotient rounded once, whatever the size
    of [a] and [b]; [ZeroDivisionError] when [b = 0], [OverflowError] when
    the quotient is too large for a float. *)
Definition py_true_div (a b : Z) : Result float :=
  if b =? 0 then Raise
  else finite_or_raise (SFdiv prec emax (exact_int a) (exact_int b)).

(** [z * f] for an integer [z] and a float [f]: [z] is converted first. *)
Definition py_int_mul (z : Z) (f : float) : Result float :=
  zf ← float_of_int z;
  Ok (SFmul prec emax zf f).

(** [min(a, b)]: the first argument unless the second is smaller. *)
Definition py_min (a b : float) : float :=
  if SFltb b a then b else a.

(** [int(f)]: truncation towards zero; raises on an infinity or a NaN. *)
Definition py_int (f : float) : Result Z :=
  match f with
  | S754_zero _ => Ok 0
  | S754_finite s m e =>
      let mag := if 0 <=? e then Z.pos m * 2 ^ e else Z.pos m / 2 ^ (- e) in
      Ok (if s then - mag else mag)
  | S754_infinity _ | S754_nan => Raise
  end.

(* ------------------------------------------------------------------ *)
(** ** Pillow images *)

Module PIL.

Inductive Mode := RGB | RGBA.

(** A pixel as [getpixel] returns it for an RGBA image. *)
Record Pixel := Px { red : Z; green : Z; blue : Z; alpha : Z }.

Definition transparent : Pixel := Px 0 0 0 0.

(** An image: its mode, its size and its pixel buffer, addressed by column
    and row.  The buffer is read only inside [0 <= x < width] and
    [0 <= y < height]. *)
Record Image := mkImage {
  mode : Mode;
  width : Z;
  height : Z;
  pixels : Z -> Z -> Pixel
}.

Definition size (im : Image) : Z * Z := (width im, height im).

Definition inside (w h x y : Z) : bool :=
  (0 <=? x) && (x <? w) && (0 <=? y) && (y <? h).

Definition in_image (im : Image) (x y : Z) : bool :=
  inside (width im) (height im) x y.

(** [im.getpixel((x, y))]: a negative coordinate counts from the far edge,
    and a coordinate that is still outside raises [IndexError]. *)
Definition getpixel (im : Image) (x y : Z) : Result Pixel :=
  let x' := if x <? 0 then width im + x else x in
  let y' := if y <? 0 then height im + y else y in
  if in_image im x' y' then Ok (pixels im x' y') else Raise.

(** [pixels[x, y] = p] on the buffer that [im.load()] returns. *)
Definition putpixel (px : Z -> Z -> Pixel) (x y : Z) (p : Pixel) : Z -> Z -> Pixel :=
  fun x' y' => if (x' =? x) && (y' =? y) then p else px x' y'.

(** [im.copy()]: a value of the model is never shared, so a copy is the
    image itself. *)
Definition copy (im : Image) : Image := im.

(** [im.convert(m)]: an RGB image has no alpha band, which reads as 255. *)
Definition convert (m : Mode) (im : Image) : Image :=
  match mode im, m with
  | RGBA, RGBA | RGB, RGB => im
  | _, _ =>
      mkImage m (width im) (height im)
        (fun x y => let p := pixels im x y in Px (red p) (green p) (blue p) 255)
  end.

(** [im.crop((left, upper, right, lower))]: the part of the box outside the
    image is filled with zeros; a box whose right or lower edge comes
    before its left or upper edge raises [ValueError]. *)
Definition crop (im : Image) (box : Z * Z * Z * Z) : Result Image :=
  let '(x1, y1, x2, y2) := box in
  if (x2 <? x1) || (y2 <? y1) then Raise
  else Ok (mkImage (mode im) (x2 - x1) (y2 - y1)
             (fun x y =>
                if in_image im (x + x1) (y + y1)
                then pixels im (x + x1) (y + y1)
                else transparent)).

(** The pixels [getbbox] counts: for an RGBA image those whose alpha is not
    zero ([alpha_only], the default from Pillow 10 on), for an RGB image those
    with a channel that is not zero. *)
Definition counted (im : Image) (x y : Z) : bool :=
  let p := pixels im x y in
  match mode im with
  | RGBA => negb (alpha p =? 0)
  | RGB => negb ((red p =? 0) && (green p =? 0) && (blue p =? 0))
  end.

Definition column_counted (im : Image) (x : Z) : bool :=
  existsb (fun y => counted im x y) (seqZ 0 (height im)).

Definition row_counted (im : Image) (y : Z) : bool :=
  existsb (fun x => counted im x y) (seqZ 0 (width im)).

(** [im.getbbox()]: [(left, upper, right, lower)] with the right and lower
    edges one past the last counted column and row, or [None]. *)
Definition getbbox (im : Image) : option (Z * Z * Z * Z) :=
  let xs := List.filter (column_counted im) (seqZ 0 (width im)) in
  let ys := List.filter (row_counted im) (seqZ 0 (height im)) in
  match xs, ys with
  | x1 :: _, y1 :: _ => Some (x1, y1, List.last xs x1 + 1, List.last ys y1 + 1)
  | _, _ => None
  end.

(** [im.save(buf, format="JPEG")]: the JPEG writer has no raw mode for
    RGBA and raises [OSError: cannot write mode RGBA as JPEG] (Pillow 4.2 and
    later; [Image.Resampling], which [process_image] uses, exists from 9.1
    on); [encode] is the encoder proper. *)
Definition save_jpeg (encode : Image -> list byte) (im : Image) : Result (list byte) :=
  match mode im with
  | RGBA => Raise
  | RGB => Ok (encode im)
  end.

End PIL.

Import PIL.

(* ------------------------------------------------------------------ *)
(** ** The world outside the program *)

(** What the run reads from the network, the disk and the clock, and the
    Pillow operations whose arithmetic is not modelled.  A field that returns
    a [Result] may raise.  A request is answered the same way each time it is
    made in a run. *)
Record World := mkWorld {
  (** the stripped, non-empty lines of [requests.get(urls_url).text] for a
      domain *)
  fetch_url_list : string -> Result (list string);
  (** [Image.open(BytesIO(requests.get(url, ..).content))] *)
  http_image : string -> Result Image;
  (** the bytes [get_repo_size] sums when a domain is about to start; the
      walk is taken to return *)
  repo_bytes : string -> Z;
  (** [im.resize(size, Image.Resampling.LANCZOS)] *)
  pil_resize : Image -> Z * Z -> Result Image;
  (** [dest.paste(src, pos, src)]: the buffer of [dest] afterwards *)
  pil_paste : Image -> Image -> Z * Z -> Result (Z -> Z -> Pixel);
  (** the font and [draw.textbbox((0, 0), text, font=font)] *)
  pil_textbbox : string -> Result (Z * Z * Z * Z);
  (** [draw.text(pos, text, fill=(0, 0, 0, 128), font=font)]: the buffer
      afterwards *)
  pil_draw_text : Image -> Z * Z -> string -> Result (Z -> Z -> Pixel);
  (** the JPEG encoder at quality 90 *)
  jpeg_encode : Image -> list byte;
  (** lines 335 to 339 of [main]: [os.path.splitext], [clean_title] with its
      regular expressions, the prefix and the suffix; the arguments are the
      file name, the keywords, the prefix and the suffix *)
  derive_filename : string -> list string -> string -> string -> Result string;
  (** [datetime.now().strftime('%Y%m%d_%H%M%S')] when the archive of a
      mockup set is written *)
  timestamp : string -> string
}.

(** [download_image(url)]: every exception is caught and turned into [None];
    [url] is [None] when the configuration has no such key. *)
Definition download_image (W : World) (url : option string) : option Image :=
  match url with
  | None => None
  | Some u =>
      match http_image W u with
      | Ok im => Some (convert RGBA im)
      | Raise => None
      end
  end.

(* ------------------------------------------------------------------ *)
(** ** Segmentation engine (lines 77 to 95 of [process_image]) *)

(** [abs(r - seed_r) < 30 and abs(g - seed_g) < 30 and abs(b - seed_b) < 30]. *)
Definition matches_seed (seed p : Pixel) : bool :=
  (Z.abs (red p - red seed) <? 30) &&
  (Z.abs (green p - green seed) <? 30) &&
  (Z.abs (blue p - blue seed) <? 30).

(** The [while stack:] loop.  The Python list [stack] is kept with its last
    element first, so [stack.pop()] takes the head and
    [stack.extend([a, b, c, d])] leaves [d] on top.  [None] means that the
    fuel ran out. *)
Fixpoint flood_loop (fuel : nat) (design_w design_h : Z) (seed : Pixel)
    (stack : list (Z * Z)) (visited : gset (Z * Z)) (px : Z -> Z -> Pixel)
    : option (Z -> Z -> Pixel) :=
  match fuel with
  | O => None
  | S fuel' =>
      match stack with
      | [] => Some px
      | (x, y) :: rest =>
          if bool_decide ((x, y) ∈ visited) || negb (inside design_w design_h x y)
          then flood_loop fuel' design_w design_h seed rest visited px
          else
            let visited' := {[ (x, y) ]} ∪ visited in
            if matches_seed seed (px x y)
            then flood_loop fuel' design_w design_h seed
                   ((x, y - 1) :: (x, y + 1) :: (x - 1, y) :: (x + 1, y) :: rest)
                   visited' (putpixel px x y transparent)
            else flood_loop fuel' design_w design_h seed rest visited' px
      end
  end.

(** Every pixel is visited at most once and pushes four entries, so the
    loop body runs at most [4 * w * h + 2] times. *)
Definition flood_fuel (design_w design_h : Z) : nat :=
  S (S (4 * Z.to_nat (design_w * design_h))).

(** Step 1 of [process_image].  [getpixel((0, 0))] raises on an image without
    pixels.  The loop never runs out of the fuel given here
    ([flood_fill_total] below), so the [Raise] of that branch is never
    taken. *)
Definition flood_fill (design_img : Image) : Result Image :=
  seed_color ← getpixel design_img 0 0;
  match flood_loop (flood_fuel (width design_img) (height design_img))
          (width design_img) (height design_img) seed_color
          [(0, 0)] ∅ (pixels design_img) with
  | Some px =>
      Ok (mkImage (mode design_img) (width design_img) (height design_img) px)
  | None => Raise
  end.

(* ------------------------------------------------------------------ *)
(** ** Compositor *)

(** [get_trimmed_image_with_padding(image, max_padding_x, max_padding_y)]. *)
Definition get_trimmed_image_with_padding (image : Image)
    (max_padding_x max_padding_y : Z) : Result (option Image) :=
  match getbbox image with
  | None => Ok None
  | Some (x1, y1, x2, y2) =>
      let new_x1 := Z.max 0 (x1 - max_padding_x) in
      let new_y1 := Z.max 0 (y1 - max_padding_y) in
      let new_x2 := Z.min (width image) (x2 + max_padding_x) in
      let new_y2 := Z.min (height image) (y2 + max_padding_y) in
      cropped ← crop image (new_x1, new_y1, new_x2, new_y2);
      Ok (Some cropped)
  end.

(** Where step 3 of [process_image] puts the design. *)
Record Placement := mkPlacement {
  scale : float;
  final_w : Z;
  final_h : Z;
  final_x : Z;
  final_y : Z
}.

(** Lines 103 to 110 of [process_image]. *)
Definition placement (mockup_config : Coords) (design_w design_h : Z)
    : Result Placement :=
  let mockup_w := cw mockup_config in
  let mockup_h := ch mockup_config in
  scale_w ← py_true_div mockup_w design_w;
  scale_h ← py_true_div mockup_h design_h;
  let scale := py_min scale_w scale_h in
  scaled_w ← py_int_mul design_w scale;
  final_w ← py_int scaled_w;
  scaled_h ← py_int_mul design_h scale;
  final_h ← py_int scaled_h;
  Ok (mkPlacement scale final_w final_h
        (cx mockup_config + (mockup_w - final_w) `div` 2)
        (cy mockup_config + 20)).

(** [im] with the buffer [px]: the result of drawing on [im] in place. *)
Definition with_pixels (im : Image) (px : Z -> Z -> Pixel) : Image :=
  mkImage (mode im) (width im) (height im) px.

(** Step 4 of [process_image]: the signature. *)
Definition add_watermark (W : World) (final_mockup : Image)
    (watermark_content : option string) : Result Image :=
  match watermark_content with
  | None | Some EmptyString => Ok final_mockup
  | Some text =>
      if starts_with "http://" text || starts_with "https://" text then
        match download_image W (Some text) with
        | None => Ok final_mockup
        | Some watermark_img =>
            let max_wm_width := 280 in
            watermark_img' ←
              (if max_wm_width <? width watermark_img then
                 aspect_ratio ← py_true_div (height watermark_img) (width watermark_img);
                 scaled_h ← py_int_mul max_wm_width aspect_ratio;
                 new_h ← py_int scaled_h;
                 pil_resize W watermark_img (max_wm_width, new_h)
               else Ok watermark_img);
            let paste_x := width final_mockup - width watermark_img' - 20 in
            let paste_y := height final_mockup - height watermark_img' - 50 in
            px ← pil_paste W final_mockup watermark_img' (paste_x, paste_y);
            Ok (with_pixels final_mockup px)
        end
      else
        '(bx0, by0, bx1, by1) ← pil_textbbox W text;
        let text_w := bx1 - bx0 in
        let text_h := by1 - by0 in
        let text_x := width final_mockup - text_w - 20 in
        let text_y := height final_mockup - text_h - 50 in
        px ← pil_draw_text W final_mockup (text_x, text_y) text;
        Ok (with_pixels final_mockup px)
  end.

(** [process_image(design_img, mockup_img, mockup_config, user_config)];
    [mockup_config] is [None] when the mockup set has no [coords], and
    subscripting it then raises. *)
Definition process_image (W : World) (design_img mockup_img : Image)
    (mockup_config : option Coords) (watermark_text : option string)
    : Result (option Image) :=
  filled ← flood_fill design_img;
  trimmed ← get_trimmed_image_with_padding filled 40 20;
  match trimmed with
  | None => Ok None
  | Some trimmed_design =>
      match mockup_config with
      | None => Raise
      | Some rect =>
          pl ← placement rect (width trimmed_design) (height trimmed_design);
          resized_design ← pil_resize W trimmed_design (final_w pl, final_h pl);
          let final_mockup := copy mockup_img in
          px ← pil_paste W final_mockup resized_design (final_x pl, final_y pl);
          final_mockup' ← add_watermark W (with_pixels final_mockup px) watermark_text;
          Ok (Some final_mockup')
      end
  end.

(* ------------------------------------------------------------------ *)
(** ** Incremental controller *)

(** An entry of [mockup_cache]. *)
Record MockupData := mkMockupData {
  md_white : option Image;
  md_black : option Image;
  md_coords : option Coords;
  md_watermark_text : option string;
  md_title_prefix_to_add : string;
  md_title_suffix_to_add : string
}.

(** The dictionary literal of lines 313 to 320. *)
Definition load_mockup (W : World) (m_config : MockupSetConfig) : MockupData :=
  mkMockupData
    (download_image W (ms_white m_config))
    (download_image W (ms_black m_config))
    (ms_coords m_config)
    (ms_watermark_text m_config)
    (default EmptyString (ms_title_prefix_to_add m_config))
    (default EmptyString (ms_title_suffix_to_add m_config)).

(** [images_for_zip]: mockup-set names in the order of their first image,
    each with its [(filename, data)] pairs. *)
Definition ZipBundle : Type := list (string * list (string * list byte)).

(** Lines 345 to 347: [images_for_zip[mockup_name].append(entry)], creating
    the list on first use. *)
Fixpoint zip_append (mockup_name : string) (entry : string * list byte)
    (images : ZipBundle) : ZipBundle :=
  match images with
  | [] => [(mockup_name, [entry])]
  | (name, image_list) :: rest =>
      if String.eqb name mockup_name then (name, image_list ++ [entry]) :: rest
      else (name, image_list) :: zip_append mockup_name entry rest
  end.

(** Lines 326 to 347: one turn of the loop over the mockup sets once the cache
    holds the set.  A turn that ends in [continue] returns the bundle
    unchanged with [Ok]. *)
Definition render_mockup (W : World) (cfg : Config) (filename : string)
    (is_white : bool) (cropped_img : Image) (mockup_name : string)
    (mockup_data : MockupData) (images : ZipBundle) : ZipBundle * Result unit :=
  let mockup_to_use :=
    if is_white then md_white mockup_data else md_black mockup_data in
  match mockup_to_use with
  | None => (images, Ok ())
  | Some mockup_img =>
      match process_image W (copy cropped_img) mockup_img
              (md_coords mockup_data) (md_watermark_text mockup_data) with
      | Raise => (images, Raise)
      | Ok None => (images, Ok ())
      | Ok (Some final_mockup) =>
          match derive_filename W filename (title_clean_keywords cfg)
                  (md_title_prefix_to_add mockup_data)
                  (md_title_suffix_to_add mockup_data) with
          | Raise => (images, Raise)
          | Ok final_filename =>
              let final_mockup_rgb := convert RGB final_mockup in
              match save_jpeg (jpeg_encode W) final_mockup with
              | Raise => (images, Raise)
              | Ok data => (zip_append mockup_name (final_filename, data) images, Ok ())
              end
          end
      end
  end.

(** Lines 310 to 321: the cache after the lookup of a name, or [None] when the
    name is neither cached nor configured. *)
Definition cache_on_demand (W : World) (cfg : Config) (mockup_name : string)
    (cache : gmap string MockupData) : option (gmap string MockupData) :=
  match cache !! mockup_name with
  | Some _ => Some cache
  | None =>
      match mockup_sets cfg !! mockup_name with
      | Some m_config => Some (<[mockup_name := load_mockup W m_config]> cache)
      | None => None
      end
  end.

(** The [for mockup_name in ...] loop of lines 308 to 347.  The bundle and the
    cache are returned also when the loop raises: what was written before
    the exception stays written. *)
Fixpoint mockup_loop (W : World) (cfg : Config) (filename : string)
    (is_white : bool) (cropped_img : Image) (names : list string)
    (images : ZipBundle) (cache : gmap string MockupData)
    : ZipBundle * gmap string MockupData * Result unit :=
  match names with
  | [] => (images, cache, Ok ())
  | mockup_name :: rest =>
      match cache_on_demand W cfg mockup_name cache with
      | None => mockup_loop W cfg filename is_white cropped_img rest images cache
      | Some cache1 =>
          match cache1 !! mockup_name with
          | None => mockup_loop W cfg filename is_white cropped_img rest images cache1
          | Some mockup_data =>
              let '(images1, r) :=
                render_mockup W cfg filename is_white cropped_img mockup_name
                  mockup_data images in
              match r with
              | Raise => (images1, cache1, Raise)
              | Ok _ => mockup_loop W cfg filename is_white cropped_img rest images1 cache1
              end
          end
      end
  end.

(** What became of one URL. *)
Inductive Outcome :=
| Processed
| SkippedNoRule
| SkippedDownloadFailure
| SkippedNoCropCoords
| SkippedByBrightness
| SkippedException.

(** [sum(pixel[:3]) / 3 > 128]; the quotient exceeds 128 exactly when the sum
    exceeds 384. *)
Definition is_white_pixel (pixel : Pixel) : bool :=
  384 <? red pixel + green pixel + blue pixel.

(** The body of the [try] of lines 286 to 350, up to the bookkeeping. *)
Definition url_pipeline (W : World) (cfg : Config) (matched_rule : Rule)
    (url filename : string) (images : ZipBundle) (cache : gmap string MockupData)
    : ZipBundle * gmap string MockupData * Result Outcome :=
  match download_image W (Some url) with
  | None => (images, cache, Ok SkippedDownloadFailure)
  | Some img =>
      match coords matched_rule with
      | None => (images, cache, Ok SkippedNoCropCoords)
      | Some crop_coords =>
          match getpixel img (cx crop_coords) (cy crop_coords) with
          | Raise => (images, cache, Raise)
          | Ok pixel =>
              let is_white := is_white_pixel pixel in
              if (skipWhite matched_rule && is_white)
                 || (skipBlack matched_rule && negb is_white)
              then (images, cache, Ok SkippedByBrightness)
              else
                match crop img (cx crop_coords, cy crop_coords,
                                cx crop_coords + cw crop_coords,
                                cy crop_coords + ch crop_coords) with
                | Raise => (images, cache, Raise)
                | Ok cropped_img =>
                    let '(images', cache', r) :=
                      mockup_loop W cfg filename is_white cropped_img
                        (mockup_sets_to_use matched_rule) images cache in
                    (images', cache', _ ← r; Ok Processed)
                end
          end
      end
  end.

(** One URL with the rule lookup before the [try] and the [except] after it. *)
Definition url_outcome (W : World) (cfg : Config) (domain_rules : list Rule)
    (url : string) (images : ZipBundle) (cache : gmap string MockupData)
    : ZipBundle * gmap string MockupData * Outcome :=
  let filename := basename url in
  match match_rule domain_rules filename with
  | None => (images, cache, SkippedNoRule)
  | Some matched_rule =>
      if bool_decide (action matched_rule = Some "skip"%string)
      then (images, cache, SkippedNoRule)
      else
        let '(images', cache', r) :=
          url_pipeline W cfg matched_rule url filename images cache in
        (images', cache',
         match r with
         | Ok o => o
         | Raise => SkippedException
         end)
  end.

(** The variables the URL loop of one domain updates. *)
Record DomainRun := mkDomainRun {
  dr_images : ZipBundle;
  mockup_cache : gmap string MockupData;
  processed_count : Z;
  skipped_count : Z;
  successfully_processed_this_run : list string
}.

(** One iteration of [for url in urls_to_process]. *)
Definition process_url (W : World) (cfg : Config) (domain_rules : list Rule)
    (st : DomainRun) (url : string) : DomainRun :=
  let '(images', cache', o) :=
    url_outcome W cfg domain_rules url (dr_images st) (mockup_cache st) in
  match o with
  | Processed =>
      mkDomainRun images' cache' (processed_count st + 1) (skipped_count st)
        (successfully_processed_this_run st ++ [url])
  | _ =>
      mkDomainRun images' cache' (processed_count st) (skipped_count st + 1)
        (successfully_processed_this_run st)
  end.

Definition url_loop (W : World) (cfg : Config) (domain_rules : list Rule)
    (urls_to_process : list string) (st : DomainRun) : DomainRun :=
  foldl (process_url W cfg domain_rules) st urls_to_process.

(** An entry of [urls_summary]. *)
Record Summary := mkSummary {
  processed : Z;
  skipped : Z;
  total_to_process : Z
}.

(** The variables the domain loop updates. *)
Record RunState := mkRunState {
  processed_log : gmap string (list string);
  images_for_zip : ZipBundle;
  urls_summary : gmap string Summary
}.

(** What one iteration of the domain loop did. *)
Inductive DomainStep :=
| Break
| Continue (st : RunState).

(** The body of [for domain, domain_rules in domains_configs.items()].  The
    sort of the rules is outside every [try]: a rule without a pattern ends
    the run with [KeyError]. *)
Definition process_domain (W : World) (cfg : Config) (domain : string)
    (domain_rules : list Rule) (st : RunState) : Result DomainStep :=
  if MAX_REPO_SIZE_BYTES <=? repo_bytes W domain then Ok Break
  else
    sorted_rules ← sort_rules domain_rules;
    match fetch_url_list W domain with
    | Raise => Ok (Continue st)
    | Ok all_urls =>
        let last_processed_urls := default [] (processed_log st !! domain) in
        let urls_to_process :=
          compute_window all_urls last_processed_urls (max_urls_per_domain cfg) in
        match urls_to_process with
        | [] => Ok (Continue st)
        | _ :: _ =>
            let run :=
              url_loop W cfg sorted_rules urls_to_process
                (mkDomainRun (images_for_zip st) ∅ 0 0 []) in
            let summary :=
              mkSummary (processed_count run) (skipped_count run)
                (Z.of_nat (length urls_to_process)) in
            let log' :=
              match successfully_processed_this_run run with
              | [] => processed_log st
              | _ :: _ =>
                  let previous_urls_for_domain :=
                    default [] (processed_log st !! domain) in
                  <[domain := update_history (successfully_processed_this_run run)
                                previous_urls_for_domain (history_to_keep cfg)]>
                    (processed_log st)
              end in
            Ok (Continue (mkRunState log' (dr_images run)
                            (<[domain := summary]> (urls_summary st))))
        end
    end.

Fixpoint domain_loop (W : World) (cfg : Config)
    (domains_configs : list (string * list Rule)) (st : RunState)
    : Result RunState :=
  match domains_configs with
  | [] => Ok st
  | (domain, domain_rules) :: rest =>
      step ← process_domain W cfg domain domain_rules st;
      match step with
      | Break => Ok st
      | Continue st' => domain_loop W cfg rest st'
      end
  end.

(** An archive: its file name and its entries in the order written. *)
Definition Archive : Type := string * list (string * list byte).

(** Step 8 of [main]: one archive for each mockup set with images. *)
Fixpoint make_zips (W : World) (images : ZipBundle) : list Archive :=
  match images with
  | [] => []
  | (mockup_name, image_list) :: rest =>
      match image_list with
      | [] => make_zips W rest
      | _ :: _ =>
          let total_images := length image_list in
          let zip_filename :=
            (mockup_name +:+ "." +:+ timestamp W mockup_name +:+ "_"
               +:+ pretty total_images +:+ "_images.zip")%string in
          (zip_filename, image_list) :: make_zips W rest
      end
  end.

(** What a run leaves behind. *)
Record RunReport := mkRunReport {
  archives : list Archive;
  saved_history : gmap string (list string);
  summary_log : gmap string Summary
}.

(** [main()] from step 3 to step 8, with the configuration and the history
    file already loaded: the report is what the run has saved when it comes
    to [write_log], which is not part of it. *)
Definition main (W : World) (cfg : Config) (processed_log0 : gmap string (list string))
    : Result RunReport :=
  st ← domain_loop W cfg (domains cfg) (mkRunState processed_log0 [] ∅);
  Ok (mkRunReport (make_zips W (images_for_zip st)) (processed_log st) (urls_summary st)).

(* ------------------------------------------------------------------ *)
(** ** Notions the properties are stated with *)

(** The length the sort compares: that of the pattern. *)
Definition pat_len (r : Rule) : nat :=
  match pattern r with
  | Some p => String.length p
  | None => 0
  end.

(** Descending pattern length. *)
Definition longer_first (a b : Rule) : Prop := (pat_len b <= pat_len a)%nat.

Definition key_desc (a b : nat * Rule) : Prop := (b.1 <= a.1)%nat.

(** The four neighbours of a pixel. *)
Definition adjacent (p q : Z * Z) : Prop :=
  q = (p.1 + 1, p.2) \/ q = (p.1 - 1, p.2) \/ q = (p.1, p.2 + 1) \/ q = (p.1, p.2 - 1).

(** A pixel of the image whose three colour channels are each within 30 of
    those of the seed. *)
Definition matching (im : Image) (p : Z * Z) : Prop :=
  in_image im p.1 p.2 = true /\
  matches_seed (pixels im 0 0) (pixels im p.1 p.2) = true.

(** Consecutive elements are neighbours. *)
Fixpoint chain (path : list (Z * Z)) : Prop :=
  match path with
  | [] => True
  | p :: rest =>
      match rest with
      | [] => True
      | q :: _ => adjacent p q /\ chain rest
      end
  end.

(** A 4-connected path of matching pixels leads from the seed to [p]. *)
Definition seed_connected (im : Image) (p : Z * Z) : Prop :=
  exists path, head path = Some (0, 0) /\ last path = Some p /\
               chain path /\ Forall (matching im) path.

(** The same, built one step at a time from the seed. *)
Inductive reached (im : Image) : Z * Z -> Prop :=
| reached_seed : matching im (0, 0) -> reached im (0, 0)
| reached_step p q :
    reached im p -> adjacent p q -> matching im q -> reached im q.

(** Every coordinate of a [w] by [h] grid. *)
Definition cells (w h : Z) : list (Z * Z) :=
  x ← seqZ 0 w; y ← seqZ 0 h; [(x, y)].

(** The bounding box of the counted pixels: it holds them all and each of
    its four sides touches one. *)
Definition is_bbox (im : Image) (box : Z * Z * Z * Z) : Prop :=
  let '(x1, y1, x2, y2) := box in
  (forall x y, in_image im x y = true -> counted im x y = true ->
               x1 <= x < x2 /\ y1 <= y < y2) /\
  (exists y, in_image im x1 y = true /\ counted im x1 y = true) /\
  (exists y, in_image im (x2 - 1) y = true /\ counted im (x2 - 1) y = true) /\
  (exists x, in_image im x y1 = true /\ counted im x y1 = true) /\
  (exists x, in_image im x (y2 - 1) = true /\ counted im x (y2 - 1) = true).

(** [s] is the smaller of the floats [a] and [b], and [a] when they compare
    equal: what [min(a, b)] is to return. *)
Definition smaller_of (a b s : float) : Prop :=
  SFleb s a = true /\ SFleb s b = true /\ (s = a \/ s = b /\ SFltb b a = true).

(** A number whose significand has at most [d] bits and whose exponent is
    at most [e]: neither an infinity nor a NaN. *)
Definition fits (d e : Z) (f : float) : Prop :=
  match f with
  | S754_zero _ => True
  | S754_finite _ m ex => Zdigits2 (Z.pos m) <= d /\ ex <= e
  | S754_infinity _ | S754_nan => False
  end.

(** The notions of the loop invariant of the flood fill, for a [w] by [h]
    image with buffer [orig] before the loop. *)
Section flood_notions.
Variables (w h : Z) (seed : Pixel) (orig : Z -> Z -> Pixel).

(** A pixel of the grid that matches the seed in the original image. *)
Definition passable (p : Z * Z) : Prop :=
  inside w h p.1 p.2 = true /\ matches_seed seed (orig p.1 p.2) = true.

Inductive flood_reached : Z * Z -> Prop :=
| flood_reached_seed : passable (0, 0) -> flood_reached (0, 0)
| flood_reached_step p q :
    flood_reached p -> adjacent p q -> passable q -> flood_reached q.

(** What holds each time the loop tests its stack. *)
Record flood_inv (stack : list (Z * Z)) (visited : gset (Z * Z))
    (px : Z -> Z -> Pixel) : Prop := {
  inv_cleared : forall p, p ∈ visited -> passable p -> px p.1 p.2 = transparent;
  inv_kept : forall p, ~ (p ∈ visited /\ passable p) -> px p.1 p.2 = orig p.1 p.2;
  inv_visited : forall p, p ∈ visited -> passable p -> flood_reached p;
  inv_stack : forall q, q ∈ stack -> passable q -> flood_reached q;
  inv_closed : forall p q, p ∈ visited -> passable p -> adjacent p q ->
                           inside w h q.1 q.2 = true -> q ∈ visited \/ q ∈ stack;
  inv_seed : (0, 0) ∈ visited \/ (0, 0) ∈ stack
}.

(** Pixels of the grid not yet visited: the loop body runs at most
    [length stack + 4 * unvisited visited] more times. *)
Definition unvisited (visited : gset (Z * Z)) : nat :=
  length (filter (fun p => p ∉ visited) (cells w h)).
End flood_notions.

(** Every base image of the cache is in mode RGBA. *)
Definition cache_rgba (cache : gmap string MockupData) : Prop :=
  forall name data, cache !! name = Some data ->
    (forall im, md_white data = Some im -> mode im = RGBA) /\
    (forall im, md_black data = Some im -> mode im = RGBA).

(** The state in which the URL loop of a domain starts (lines 271 to 274). *)
Definition fresh_run (st : RunState) : DomainRun :=
  mkDomainRun (images_for_zip st) ∅ 0 0 [].

(** The counters of a summary add up. *)
Definition summary_adds_up (s : Summary) : Prop :=
  processed s + skipped s = total_to_process s.

(** The pipeline of [url] under [rule] gets as far as the encoder for the
    mockup set [m_config]: the design and the base image load, the sampled
    pixel is light, the crop and [process_image] succeed with a composite,
    and [save_jpeg] raises on that composite. *)
Definition refused_at_encoder (W : World) (url : string) (rule : Rule)
    (m_config : MockupSetConfig) : Prop :=
  match download_image W (Some url), download_image W (ms_white m_config),
        coords rule with
  | Some img, Some mockup_img, Some cc =>
      match getpixel img (cx cc) (cy cc),
            crop img (cx cc, cy cc, cx cc + cw cc, cy cc + ch cc) with
      | Ok pixel, Ok cropped_img =>
          is_white_pixel pixel = true /\
          skipWhite rule = false /\
          match process_image W (copy cropped_img) mockup_img
                  (ms_coords m_config) (ms_watermark_text m_config) with
          | Ok (Some final_mockup) =>
              mode final_mockup = RGBA /\
              save_jpeg (jpeg_encode W) final_mockup = Raise
          | _ => False
          end
      | _, _ => False
      end
  | _, _, _ => False
  end.

(* ------------------------------------------------------------------ *)
(** ** Test images *)

Definition white : Pixel := Px 255 255 255 255.
Definition black : Pixel := Px 0 0 0 255.

(** Five by five: a white border, a black ring inside it and a white pixel
    in the middle. *)
Definition island_image : Image :=
  mkImage RGBA 5 5
    (fun x y =>
       if (x =? 2) && (y =? 2) then white
       else if inside 3 3 (x - 1) (y - 1) then black
       else white).

(** A 200 by 200 transparent canvas with an opaque 10 by 10 square at
    (50, 50). *)
Definition square_image : Image :=
  mkImage RGBA 200 200
    (fun x y => if inside 10 10 (x - 50) (y - 50) then black else transparent).

(** A 60 by 40 transparent canvas with one opaque pixel at (5, 5): the padding
    reaches past the left and the upper edge. *)
Definition corner_image : Image :=
  mkImage RGBA 60 40
    (fun x y => if (x =? 5) && (y =? 5) then black else transparent).

(* ------------------------------------------------------------------ *)
(** ** A test world *)

(** An 8 by 8 design: a black 2 by 2 square on white. *)
Definition design_image : Image :=
  mkImage RGB 8 8 (fun x y => if inside 2 2 (x - 3) (y - 3) then black else white).

(** A 20 by 20 white base image. *)
Definition base_image : Image := mkImage RGB 20 20 (fun _ _ => white).

(** A 4 by 8 design, a black 2 by 4 bar on white, and a 40 by 60 white base
    image for it. *)
Definition tall_design : Image :=
  mkImage RGBA 4 8 (fun x y => if inside 2 4 (x - 1) (y - 2) then black else white).

Definition tall_base : Image := mkImage RGBA 40 60 (fun _ _ => white).

Definition tall_filled : Image :=
  match flood_fill tall_design with
  | Ok im => im
  | Raise => tall_design
  end.

Definition tall_trimmed : Image :=
  match get_trimmed_image_with_padding tall_filled 40 20 with
  | Ok (Some im) => im
  | _ => tall_filled
  end.

(** Nearest-neighbour resampling. *)
Definition demo_resize (im : Image) (size : Z * Z) : Result Image :=
  if (size.1 <=? 0) || (size.2 <=? 0) then Raise
  else Ok (mkImage (mode im) size.1 size.2
             (fun x y => pixels im ((x * width im) `div` size.1) ((y * height im) `div` size.2))).

(** Pasting with a mask that is either on or off. *)
Definition demo_paste (dest src : Image) (pos : Z * Z) : Result (Z -> Z -> Pixel) :=
  Ok (fun x y =>
        if in_image src (x - pos.1) (y - pos.2)
           && negb (alpha (pixels src (x - pos.1) (y - pos.2)) =? 0)
        then pixels src (x - pos.1) (y - pos.2)
        else pixels dest x y).

Definition url_one : string := "https://img.example/a/design-one.png".
Definition url_two : string := "https://img.example/a/design-two.png".
Definition post_one : string := "https://img.example/b/post-one.png".
Definition post_two : string := "https://img.example/b/post-two.png".

(** Two domains with two URLs each, images behind every URL, a repository of
    [bytes] bytes and Pillow operations that succeed. *)
Definition demo_world (bytes : Z) : World :=
  mkWorld
    (fun domain =>
       if String.eqb domain "shop" then Ok [url_one; url_two]
       else if String.eqb domain "blog" then Ok [post_one; post_two]
       else Raise)
    (fun url =>
       if str_contains "base" url then Ok base_image
       else if str_contains ".png" url then Ok design_image
       else Raise)
    (fun _ => bytes)
    demo_resize
    demo_paste
    (fun _ => Ok (0, 0, 0, 0))
    (fun im _ _ => Ok (pixels im))
    (fun _ => [])
    (fun filename _ _ _ => Ok filename)
    (fun _ => "20250101_120000"%string).

(** A rule with crop coordinates that sends its designs to mockup set "A". *)
Definition shop_rule : Rule :=
  mkRule (Some "design"%string) None (Some (mkCoords 0 0 8 8)) false false
    ["A"%string].

(** A rule with crop coordinates and no mockup set. *)
Definition blog_rule : Rule :=
  mkRule (Some "post"%string) None (Some (mkCoords 0 0 8 8)) false false [].

Definition mockup_set_A : MockupSetConfig :=
  mkMockupSet (Some "https://img.example/base-white.png"%string)
    (Some "https://img.example/base-black.png"%string)
    (Some (mkCoords 2 2 16 16)) None None None.

(** One domain, [max_urls_per_domain = 2], the defaults otherwise. *)
Definition shop_config : Config :=
  mkConfig 2 10 [] [("shop"%string, [shop_rule])] {[ "A"%string := mockup_set_A ]}.

(** Two domains and a history of three URLs. *)
Definition demo_config : Config :=
  mkConfig 2 3 []
    [("shop"%string, [shop_rule]); ("blog"%string, [blog_rule])]
    {[ "A"%string := mockup_set_A ]}.

Definition empty_state : RunState := mkRunState ∅ [] ∅.

(** The state with an older entry for "blog". *)
Definition blog_state : RunState :=
  mkRunState {[ "blog"%string := ["https://img.example/b/post-zero.png"%string;
                                  "https://img.example/b/post-old.png"%string] ]} [] ∅.

(** The state after the domain "blog". *)
Definition blog_state_after : RunState :=
  match process_domain (demo_world 1000) demo_config "blog" [blog_rule] blog_state with
  | Ok (Continue st) => st
  | _ => blog_state
  end.

(** What the run of the test world over both domains leaves behind. *)
Definition demo_report : RunReport :=
  mkRunReport []
    {[ "blog"%string := [post_one; post_two] ]}
    {[ "shop"%string := mkSummary 0 2 2; "blog"%string := mkSummary 2 0 2 ]}.

(** What [process_image] makes of the tall design in the test world. *)
Definition tall_composite : Image :=
  match process_image (demo_world 1000) tall_design tall_base
          (Some (mkCoords 5 10 16 16)) None with
  | Ok (Some out) => out
  | _ => tall_base
  end.

(* ------------------------------------------------------------------ *)
(** ** Housekeeping *)

(** [s.endswith(suffix)]. *)
Fixpoint ends_with (suffix s : string) : bool :=
  String.eqb suffix s ||
  match s with
  | EmptyString => false
  | String _ s' => ends_with suffix s'
  end.

(** [cleanup_old_zips()].  [listing] is [os.listdir(output_path)], or [None]
    when the directory does not exist; [remove_ok] tells whether [os.remove]
    succeeds on a file, and a failure is caught file by file.  The result is
    the listing afterwards. *)
Definition cleanup_old_zips (remove_ok : string -> bool)
    (listing : option (list string)) : option (list string) :=
  match listing with
  | None => None
  | Some files =>
      Some (List.filter (fun filename => negb (ends_with ".zip" filename && remove_ok filename))
              files)
  end.

(* ------------------------------------------------------------------ *)
(** ** Further notions the properties are stated with *)

(** The URLs of a fetched list before the first one of the history. *)
Fixpoint fresh_prefix (history all_urls : list string) : list string :=
  match all_urls with
  | [] => []
  | url :: rest =>
      if bool_decide (url ∈ history) then [] else url :: fresh_prefix history rest
  end.

(** [images_for_zip.get(mockup_name, [])]. *)
Fixpoint group_of (mockup_name : string) (images : ZipBundle) : list (string * list byte) :=
  match images with
  | [] => []
  | (name, image_list) :: rest =>
      if String.eqb name mockup_name then image_list else group_of mockup_name rest
  end.

(** A dictionary: no key twice, and no key with an empty list. *)
Definition bundle_ok (images : ZipBundle) : Prop :=
  NoDup images.*1 /\ Forall (fun group => group.2 <> []) images.

(** Every entry of the cache is the load of the configured mockup set of its
    name. *)
Definition cache_loaded (W : World) (cfg : Config) (cache : gmap string MockupData) : Prop :=
  forall name data, cache !! name = Some data ->
    exists m_config, mockup_sets cfg !! name = Some m_config /\
                     data = load_mockup W m_config.

(** Every pixel of the image is within the tolerance of the pixel at (0, 0). *)
Definition uniform (im : Image) : Prop :=
  forall x y, in_image im x y = true ->
    matches_seed (pixels im 0 0) (pixels im x y) = true.

(** The stored history of a domain. *)
Definition history_of (st : RunState) (domain : string) : list string :=
  default [] (processed_log st !! domain).

(** A configuration with a rule that has no pattern in its second domain. *)
Definition broken_config : Config :=
  mkConfig 2 3 []
    [("shop"%string, [shop_rule]);
     ("blog"%string, [mkRule None None None false false []])]
    {[ "A"%string := mockup_set_A ]}.

(** A rule that skips light and dark designs alike. *)
Definition never_rule : Rule :=
  mkRule (Some "design"%string) None (Some (mkCoords 0 0 8 8)) true true ["A"%string].

(** A 4 by 3 image of one colour. *)
Definition plain_image : Image := mkImage RGBA 4 3 (fun _ _ => white).

(** Whether a call of [process_image] returned a composite. *)
Definition gives_composite (r : Result (option Image)) : bool :=
  match r with
  | Ok (Some _) => true
  | _ => false
  end.

(** The composite of the test design on the test base. *)
Definition demo_composite : Image :=
  match process_image (demo_world 1000) (convert RGBA design_image)
          (convert RGBA base_image) (Some (mkCoords 2 2 16 16)) None with
  | Ok (Some out) => out
  | _ => base_image
  end.

(** What the trim of the canvas with a pixel near its corner returns. *)
Definition corner_trimmed : Image :=
  match get_trimmed_image_with_padding corner_image 40 20 with
  | Ok (Some out) => out
  | _ => corner_image
  end.

(** [bool(image_list)]. *)
Definition nonempty {A} (l : list A) : bool :=
  match l with
  | [] => false
  | _ :: _ => true
  end.

(** The bundle after the entries of a list have been appended one by one,
    each under its mockup-set name. *)
Definition append_all (entries : list (string * (string * list byte)))
    (images : ZipBundle) : ZipBundle :=
  foldl (fun bundle e => zip_append e.1 e.2 bundle) images entries.

(* ------------------------------------------------------------------ *)
(** * Properties *)

(** ** Exceptions *)

Lemma bind_Ok {A B} (f : A -> Result B) (a : A) : Ok a ≫= f = f a.
Proof. reflexivity. Qed.

Lemma bind_Raise {A B} (f : A -> Result B) : Raise ≫= f = Raise.
Proof. reflexivity. Qed.

Lemma bind_Ok_inv {A B} (f : A -> Result B) (m : Result A) (b : B) :
  m ≫= f = Ok b -> exists a, m = Ok a /\ f a = Ok b.
Proof. destruct m as [a|]; [eauto | done]. Qed.

(** ** Strings *)

Lemma starts_with_spec (p s : string) :
  starts_with p s = true <-> exists b, s = (p +:+ b)%string.
Proof.
  revert s. induction p as [|a p IH]; intros s; simpl.
  - split; [intros _; by exists s | done].
  - destruct s as [|c s].
    + split; [done | intros [b Hb]; discriminate].
    + rewrite andb_true_iff, Ascii.eqb_eq, IH. split.
      * intros [-> [b ->]]. by exists b.
      * intros [b Hb]. injection Hb as -> ->. eauto.
Qed.

Lemma str_contains_spec (p s : string) :
  str_contains p s = true <-> exists a b, s = (a +:+ p +:+ b)%string.
Proof.
  induction s as [|c s IH]; simpl.
  - rewrite orb_false_r, starts_with_spec. split.
    + intros [b Hb]. by exists EmptyString, b.
    + intros [[|a0 a] [b Hb]]; [by exists b | discriminate].
  - rewrite orb_true_iff, starts_with_spec, IH. split.
    + intros [[b Hb] | (a & b & Hab)].
      * by exists EmptyString, b.
      * exists (String c a), b. simpl. by rewrite Hab.
    + intros [[|a0 a] [b Hb]].
      * left. by exists b.
      * right. simpl in Hb. injection Hb as -> ->. eauto.
Qed.

(* ------------------------------------------------------------------ *)
(** ** Rule matcher *)

Lemma decorate_Ok rs ks :
  decorate rs = Ok ks -> ks = (fun r => (pat_len r, r)) <$> rs.
Proof.
  revert ks. induction rs as [|r rs IH]; intros ks; simpl.
  - by intros [= <-].
  - unfold pattern_key, pat_len. destruct (pattern r); simpl; [|done].
    destruct (decorate rs) as [ks'|]; simpl; [|done].
    intros [= <-]. by rewrite (IH ks').
Qed.

Lemma decorate_Raise rs :
  decorate rs = Raise <-> exists r, r ∈ rs /\ pattern r = None.
Proof.
  induction rs as [|r rs IH]; simpl.
  - split; [done | intros (r & Hr & _); inversion Hr].
  - unfold pattern_key. destruct (pattern r) eqn:Hp; simpl.
    + destruct (decorate rs) eqn:Hd; simpl.
      * split; [done |]. intros (r' & Hr' & Hn).
        apply elem_of_cons in Hr' as [-> | Hr']; [congruence |].
        destruct IH as [_ IH]. discriminate IH. eauto.
      * split; [| done]. intros _. destruct IH as [IH _].
        destruct (IH eq_refl) as (r' & Hr' & Hn). exists r'. split; [by right | done].
    + split; [| done]. intros _. exists r. split; [by left | done].
Qed.

Lemma insert_desc_perm x l : insert_desc x l ≡ₚ x :: l.
Proof.
  induction l as [|y l IH]; simpl; [done |].
  destruct (x.1 <? y.1)%nat; [|done].
  rewrite IH. apply Permutation_swap.
Qed.

Lemma sort_desc_perm l : sort_desc l ≡ₚ l.
Proof.
  induction l as [|x l IH]; simpl; [done |].
  by rewrite insert_desc_perm, IH.
Qed.


Lemma insert_desc_sorted x l :
  StronglySorted key_desc l -> StronglySorted key_desc (insert_desc x l).
Proof.
  induction 1 as [|y l Hs IH Hy]; simpl.
  - repeat constructor.
  - destruct (x.1 <? y.1)%nat eqn:Hlt.
    + apply Nat.ltb_lt in Hlt. constructor; [done |].
      rewrite insert_desc_perm. constructor; [unfold key_desc; lia | done].
    + apply Nat.ltb_ge in Hlt. constructor; [by constructor |].
      constructor; [done |].
      eapply Forall_impl; [exact Hy |]. unfold key_desc. intros z Hz. simpl in Hz. lia.
Qed.

Lemma sort_desc_sorted l : StronglySorted key_desc (sort_desc l).
Proof.
  induction l as [|x l IH]; simpl; [constructor | by apply insert_desc_sorted].
Qed.

(** Stability: the elements of one key stand as they stood. *)
Lemma insert_desc_filter n x l :
  StronglySorted key_desc l ->
  List.filter (fun a => Nat.eqb a.1 n) (insert_desc x l)
  = List.filter (fun a => Nat.eqb a.1 n) (x :: l).
Proof.
  induction 1 as [|y l Hs IH Hy]; [done |].
  cbn [insert_desc]. destruct (x.1 <? y.1)%nat eqn:Hlt; [|done].
  apply Nat.ltb_lt in Hlt.
  cbn [List.filter]. rewrite IH. cbn [List.filter].
  destruct (Nat.eqb x.1 n) eqn:Hx, (Nat.eqb y.1 n) eqn:Hyn; try done.
  apply Nat.eqb_eq in Hx, Hyn. lia.
Qed.

Lemma sort_desc_filter n l :
  List.filter (fun a => Nat.eqb a.1 n) (sort_desc l)
  = List.filter (fun a => Nat.eqb a.1 n) l.
Proof.
  induction l as [|x l IH]; [done |].
  cbn [sort_desc]. rewrite insert_desc_filter by apply sort_desc_sorted.
  cbn [List.filter]. by rewrite IH.
Qed.

Lemma sort_desc_keys rs :
  Forall (fun a => a.1 = pat_len a.2) (sort_desc ((fun r => (pat_len r, r)) <$> rs)).
Proof.
  rewrite sort_desc_perm. apply Forall_fmap. by apply Forall_true.
Qed.

Lemma sort_rules_perm rs srs : sort_rules rs = Ok srs -> srs ≡ₚ rs.
Proof.
  unfold sort_rules. destruct (decorate rs) as [ks|] eqn:Hd; simpl; [|done].
  intros [= <-]. apply decorate_Ok in Hd as ->.
  rewrite sort_desc_perm, <- list_fmap_compose. by rewrite list_fmap_id.
Qed.

Lemma sort_rules_sorted rs srs :
  sort_rules rs = Ok srs -> StronglySorted longer_first srs.
Proof.
  unfold sort_rules. destruct (decorate rs) as [ks|] eqn:Hd; simpl; [|done].
  intros [= <-]. apply decorate_Ok in Hd as ->.
  pose proof (sort_desc_sorted ((fun r => (pat_len r, r)) <$> rs)) as Hs.
  pose proof (sort_desc_keys rs) as Hk.
  induction Hs as [|a l Hs IH Ha]; simpl; [constructor |].
  apply Forall_cons in Hk as [Hka Hk].
  constructor; [by apply IH |].
  apply Forall_fmap. rewrite Forall_forall in Ha, Hk |- *.
  intros b Hb. specialize (Ha b Hb). specialize (Hk b Hb).
  unfold key_desc in Ha. unfold longer_first. simpl. lia.
Qed.

Lemma filter_decorated n (l : list (nat * Rule)) :
  Forall (fun a => a.1 = pat_len a.2) l ->
  List.filter (fun r => Nat.eqb (pat_len r) n) (snd <$> l)
  = snd <$> List.filter (fun a => Nat.eqb a.1 n) l.
Proof.
  induction 1 as [|a l Ha _ IH]; [done |].
  cbn [fmap list_fmap List.filter]. rewrite <- Ha.
  destruct (Nat.eqb a.1 n); cbn [fmap list_fmap]; by rewrite <- IH.
Qed.

Lemma sort_rules_stable rs srs n :
  sort_rules rs = Ok srs ->
  List.filter (fun r => Nat.eqb (pat_len r) n) srs
  = List.filter (fun r => Nat.eqb (pat_len r) n) rs.
Proof.
  unfold sort_rules. destruct (decorate rs) as [ks|] eqn:Hd; simpl; [|done].
  intros [= <-]. apply decorate_Ok in Hd as ->.
  rewrite filter_decorated by apply sort_desc_keys.
  rewrite sort_desc_filter.
  rewrite <- filter_decorated by (apply Forall_fmap; by apply Forall_true).
  rewrite <- list_fmap_compose. by rewrite list_fmap_id.
Qed.

Lemma match_rule_Some rules f r :
  match_rule rules f = Some r <->
  exists l1 l2, rules = l1 ++ r :: l2 /\ rule_matches f r = true /\
                forall r', r' ∈ l1 -> rule_matches f r' = false.
Proof.
  unfold match_rule. induction rules as [|a rules IH]; simpl.
  - split; [done |]. intros (l1 & l2 & H & _). by destruct l1.
  - destruct (rule_matches f a) eqn:Ha.
    + split.
      * intros [= <-]. exists [], rules. split; [done |]. split; [done |].
        intros r' Hr'. inversion Hr'.
      * intros (l1 & l2 & H & Hr & Hl1). destruct l1 as [|b l1].
        -- by injection H as ->.
        -- injection H as -> _. rewrite Hl1 in Ha; [done | by left].
    + rewrite IH. split.
      * intros (l1 & l2 & -> & Hr & Hl1). exists (a :: l1), l2.
        split; [done |]. split; [done |].
        intros r' Hr'. apply elem_of_cons in Hr' as [-> | Hr']; auto.
      * intros (l1 & l2 & H & Hr & Hl1). destruct l1 as [|b l1].
        -- injection H as -> _. congruence.
        -- injection H as -> ->. exists l1, l2. split; [done |]. split; [done |].
           intros r' Hr'. apply Hl1. by right.
Qed.

Lemma match_rule_None rules f :
  match_rule rules f = None <-> forall r, r ∈ rules -> rule_matches f r = false.
Proof.
  unfold match_rule. induction rules as [|a rules IH]; simpl.
  - split; [|done]. intros _ r Hr. inversion Hr.
  - destruct (rule_matches f a) eqn:Ha.
    + split; [done |]. intros H. rewrite H in Ha; [done | by left].
    + rewrite IH. split.
      * intros H r Hr. apply elem_of_cons in Hr as [-> | Hr]; auto.
      * intros H r Hr. apply H. by right.
Qed.

Lemma rule_matches_spec f r :
  rule_matches f r = true <->
  exists p, pattern r = Some p /\ exists a b, f = (a +:+ p +:+ b)%string.
Proof.
  unfold rule_matches. destruct (pattern r) as [p|].
  - rewrite str_contains_spec. split; [eauto |]. by intros (p' & [= <-] & H).
  - split; [done | by intros (p' & ? & _)].
Qed.

(** C5. Rule matching.  When the sort of a domain's rules succeeds, the
    sorted list is a permutation of the rules in descending pattern length in
    which rules of equal pattern length keep their original order; the rule
    selected for a file name is the first of the sorted list whose pattern is
    a substring of the name, and none is selected exactly when no pattern is
    a substring; the selected rule has the longest pattern among those that
    match.  For the patterns "front" and "front-view", in either order, the
    file name "image-front-view-01.jpg" selects the rule of "front-view". *)
Theorem rule_matching_longest_first (rs srs : list Rule) (filename : string) :
  sort_rules rs = Ok srs ->
  (srs ≡ₚ rs /\ StronglySorted longer_first srs /\
   forall n, List.filter (fun r => Nat.eqb (pat_len r) n) srs
             = List.filter (fun r => Nat.eqb (pat_len r) n) rs) /\
  (forall r, rule_matches filename r = true <->
             exists p, pattern r = Some p /\
                       exists a b, filename = (a +:+ p +:+ b)%string) /\
  (forall r, match_rule srs filename = Some r <->
             exists l1 l2, srs = l1 ++ r :: l2 /\ rule_matches filename r = true /\
                           forall r', r' ∈ l1 -> rule_matches filename r' = false) /\
  (match_rule srs filename = None <->
   forall r, r ∈ rs -> rule_matches filename r = false) /\
  (forall r r', match_rule srs filename = Some r -> r' ∈ rs ->
                rule_matches filename r' = true -> (pat_len r' <= pat_len r)%nat) /\
  (forall r1 r2 out,
     pattern r1 = Some "front"%string -> pattern r2 = Some "front-view"%string ->
     sort_rules [r1; r2] = Ok out \/ sort_rules [r2; r1] = Ok out ->
     match_rule out "image-front-view-01.jpg" = Some r2).
Proof.
  intros Hsort.
  pose proof (sort_rules_perm _ _ Hsort) as Hperm.
  pose proof (sort_rules_sorted _ _ Hsort) as Hsorted.
  split; [split; [done | split; [done |]] |].
  { intros n. by apply sort_rules_stable. }
  split; [apply rule_matches_spec |].
  split; [intros r; apply match_rule_Some |].
  split.
  { rewrite match_rule_None. by setoid_rewrite Hperm. }
  split.
  { intros r r' Hm Hr' Hmatch.
    apply match_rule_Some in Hm as (l1 & l2 & -> & Hr & Hl1).
    rewrite <- Hperm in Hr'. apply elem_of_app in Hr' as [Hr' | Hr'].
    - rewrite Hl1 in Hmatch; done.
    - apply elem_of_cons in Hr' as [-> | Hr']; [done |].
      clear Hl1 Hperm Hsort. induction l1 as [|a l1 IH]; simpl in Hsorted.
      + apply StronglySorted_inv in Hsorted as [_ Hall].
        rewrite Forall_forall in Hall. by apply Hall.
      + apply StronglySorted_inv in Hsorted as [Hs _]. by apply IH. }
  intros r1 r2 out H1 H2 Hout.
  assert (out = [r2; r1]) as ->.
  { unfold sort_rules, decorate, pattern_key in Hout. rewrite H1, H2 in Hout.
    destruct Hout as [Hout | Hout]; simpl in Hout; congruence. }
  unfold match_rule. simpl. unfold rule_matches. by rewrite H2.
Qed.

Lemma rule_matching_longest_first_witness :
  match_rule [mkRule (Some "front-view"%string) None None false false [];
              mkRule (Some "front"%string) None None false false []]
    "image-front-view-01.jpg"
  = Some (mkRule (Some "front-view"%string) None None false false []).
Proof.
  refine (proj2 (proj2 (proj2 (proj2 (proj2
    (rule_matching_longest_first
       [mkRule (Some "front"%string) None None false false [];
        mkRule (Some "front-view"%string) None None false false []]
       [mkRule (Some "front-view"%string) None None false false [];
        mkRule (Some "front"%string) None None false false []]
       "image-front-view-01.jpg" _)))))
    (mkRule (Some "front"%string) None None false false [])
    (mkRule (Some "front-view"%string) None None false false [])
    _ _ _ _).
  - reflexivity.
  - reflexivity.
  - reflexivity.
  - left. reflexivity.
Defined.

(* ------------------------------------------------------------------ *)
(** ** History cutoff *)

Lemma window_loop_prefix stop max_urls i l :
  window_loop stop max_urls i l `prefix_of` l.
Proof.
  revert i. induction l as [|u l IH]; intros i; simpl; [done |].
  case_bool_decide; [apply prefix_nil |].
  destruct (max_urls <=? i); [apply prefix_nil |].
  by apply prefix_cons.
Qed.

Lemma window_loop_fresh stop max_urls i l u :
  u ∈ window_loop stop max_urls i l -> u ∉ stop.
Proof.
  revert i. induction l as [|v l IH]; intros i; simpl; [by intros ?%elem_of_nil |].
  case_bool_decide; [by intros ?%elem_of_nil |].
  destruct (max_urls <=? i); [by intros ?%elem_of_nil |].
  intros [-> | Hu]%elem_of_cons; eauto.
Qed.

Lemma window_loop_length stop max_urls i l :
  i <= max_urls -> Z.of_nat (length (window_loop stop max_urls i l)) <= max_urls - i.
Proof.
  revert i. induction l as [|v l IH]; intros i Hi; simpl; [lia |].
  case_bool_decide; [simpl; lia |].
  destruct (Z.leb_spec max_urls i); [simpl; lia |].
  simpl. specialize (IH (i + 1)). lia.
Qed.

Lemma window_loop_longest stop max_urls i l p :
  p `prefix_of` l -> (forall u, u ∈ p -> u ∉ stop) ->
  Z.of_nat (length p) <= max_urls - i ->
  p `prefix_of` window_loop stop max_urls i l.
Proof.
  revert i p. induction l as [|v l IH]; intros i p Hp Hfresh Hlen.
  - apply prefix_nil_inv in Hp as ->. done.
  - destruct p as [|w p]; [apply prefix_nil |].
    apply prefix_cons_inv_1 in Hp as Hw. apply prefix_cons_inv_2 in Hp. subst w.
    simpl. rewrite bool_decide_eq_false_2 by (apply Hfresh; by left).
    simpl in Hlen. destruct (Z.leb_spec max_urls i); [lia |].
    apply prefix_cons. apply IH; [done | | lia].
    intros u Hu. apply Hfresh. by right.
Qed.

(** C3. Compute-window.  For a non-negative cap, the window is a prefix of the
    fetched list, holds no URL of the stored history and has at most
    [max_urls_per_domain] elements, and every prefix of the fetched list with
    these two properties is a prefix of the window: the window is the longest
    one.  With a cap of at least two, the fetched list u1..u5 and the history
    [u3, u9] give the window [u1, u2]. *)
Theorem compute_window_longest_prefix (all_urls history : list string) (max_urls : Z) :
  0 <= max_urls ->
  compute_window all_urls history max_urls `prefix_of` all_urls /\
  (forall u, u ∈ compute_window all_urls history max_urls -> u ∉ history) /\
  Z.of_nat (length (compute_window all_urls history max_urls)) <= max_urls /\
  (forall p, p `prefix_of` all_urls -> (forall u, u ∈ p -> u ∉ history) ->
             Z.of_nat (length p) <= max_urls ->
             p `prefix_of` compute_window all_urls history max_urls) /\
  (2 <= max_urls ->
   compute_window ["u1"; "u2"; "u3"; "u4"; "u5"]%string ["u3"; "u9"]%string max_urls
   = ["u1"; "u2"]%string).
Proof.
  intros Hmax. unfold compute_window.
  split; [apply window_loop_prefix |].
  split.
  { intros u Hu%window_loop_fresh. by rewrite elem_of_list_to_set in Hu. }
  split.
  { pose proof (window_loop_length (list_to_set history) max_urls 0 all_urls). lia. }
  split.
  { intros p Hp Hfresh Hlen. apply window_loop_longest; [done | | lia].
    intros u Hu. rewrite elem_of_list_to_set. by apply Hfresh. }
  intros H2. cbn [window_loop].
  rewrite bool_decide_eq_false_2
    by (rewrite elem_of_list_to_set, !not_elem_of_cons;
        repeat split; (discriminate || apply not_elem_of_nil)).
  destruct (Z.leb_spec max_urls 0); [lia |].
  rewrite bool_decide_eq_false_2
    by (rewrite elem_of_list_to_set, !not_elem_of_cons;
        repeat split; (discriminate || apply not_elem_of_nil)).
  destruct (Z.leb_spec max_urls (0 + 1)); [lia |].
  rewrite bool_decide_eq_true_2; [done |].
  rewrite elem_of_list_to_set. by left.
Qed.

Lemma compute_window_longest_prefix_witness :
  compute_window ["u1"; "u2"; "u3"; "u4"; "u5"]%string ["u3"; "u9"]%string 200
  = ["u1"; "u2"]%string.
Proof.
  refine (proj2 (proj2 (proj2 (proj2
    (compute_window_longest_prefix [] [] 200 _)))) _); lia.
Defined.

(* ------------------------------------------------------------------ *)
(** ** History retention *)

Lemma update_history_spec successes previous keep :
  0 <= keep ->
  Z.of_nat (length (update_history successes previous keep)) <= keep /\
  update_history successes previous keep
  = take (Z.to_nat keep) successes
    ++ take (Z.to_nat keep - length successes) previous.
Proof.
  intros Hk. unfold update_history, py_slice_to.
  destruct (Z.leb_spec 0 keep); [|lia].
  split; [rewrite length_take; lia | apply take_app].
Qed.

(* ------------------------------------------------------------------ *)
(** ** Segmentation engine *)

Lemma inside_spec w h x y :
  inside w h x y = true <-> 0 <= x < w /\ 0 <= y < h.
Proof. unfold inside. rewrite !andb_true_iff. lia. Qed.

Lemma elem_of_cells w h x y : inside w h x y = true -> (x, y) ∈ cells w h.
Proof.
  rewrite inside_spec. intros [Hx Hy]. unfold cells.
  apply list_elem_of_bind. exists x. split; [| apply elem_of_seqZ; lia].
  apply list_elem_of_bind. exists y. split; [by left | apply elem_of_seqZ; lia].
Qed.

Lemma length_bind_const {A B} (f : A -> list B) (n : nat) (l : list A) :
  (forall a, length (f a) = n) -> length (l ≫= f) = (length l * n)%nat.
Proof.
  intros Hf. induction l as [|a l IH]; [done |].
  rewrite bind_cons, length_app, Hf, IH. simpl. lia.
Qed.

Lemma length_cells w h : 0 <= w -> 0 <= h -> length (cells w h) = Z.to_nat (w * h).
Proof.
  intros Hw Hh. unfold cells.
  rewrite (length_bind_const _ (Z.to_nat h)).
  - rewrite length_seqZ. lia.
  - intros x. rewrite (length_bind_const _ 1%nat) by done. rewrite length_seqZ. lia.
Qed.


Lemma putpixel_same px x y t : putpixel px x y t x y = t.
Proof. unfold putpixel. by rewrite !Z.eqb_refl. Qed.

Lemma putpixel_other px x y t a b :
  (a, b) ≠ (x, y) -> putpixel px x y t a b = px a b.
Proof.
  intros Hne. unfold putpixel.
  destruct (Z.eqb_spec a x), (Z.eqb_spec b y); simpl; congruence.
Qed.

Section flood.
Variables (w h : Z) (seed : Pixel) (orig : Z -> Z -> Pixel).
Hypothesis w_pos : 0 < w.
Hypothesis h_pos : 0 < h.

Local Abbreviation passable := (passable w h seed orig).
Local Abbreviation flood_reached := (flood_reached w h seed orig).
Local Abbreviation flood_inv := (flood_inv w h seed orig).

Lemma flood_inv_init : flood_inv [(0, 0)] ∅ orig.
Proof.
  split.
  - intros p Hp. set_solver.
  - done.
  - intros p Hp. set_solver.
  - intros q Hq Hpass. apply list_elem_of_singleton in Hq as ->. by constructor.
  - intros p q Hp. set_solver.
  - right. by left.
Qed.

Lemma flood_inv_skip x y rest visited px :
  flood_inv ((x, y) :: rest) visited px ->
  (x, y) ∈ visited \/ inside w h x y = false ->
  flood_inv rest visited px.
Proof.
  intros [Hc Hk Hv Hs Hcl Hseed] Hskip. split; try done.
  - intros q Hq. apply Hs. by right.
  - intros p q Hp Hpass Hadj Hin.
    destruct (Hcl p q Hp Hpass Hadj Hin) as [Hq | Hq]; [by left |].
    apply elem_of_cons in Hq as [-> | Hq]; [| by right].
    destruct Hskip as [Hvis | Hout]; [by left | simpl in Hin; congruence].
  - destruct Hseed as [Hseed | Hseed]; [by left |].
    apply elem_of_cons in Hseed as [Heq | Hseed]; [| by right].
    injection Heq as <- <-. destruct Hskip as [Hvis | Hout]; [by left |].
    assert (inside w h 0 0 = true) by (apply inside_spec; lia). congruence.
Qed.

Lemma flood_inv_clear x y rest visited px :
  flood_inv ((x, y) :: rest) visited px ->
  (x, y) ∉ visited -> inside w h x y = true ->
  matches_seed seed (px x y) = true ->
  flood_inv ((x, y - 1) :: (x, y + 1) :: (x - 1, y) :: (x + 1, y) :: rest)
    ({[ (x, y) ]} ∪ visited) (putpixel px x y transparent).
Proof.
  intros [Hc Hk Hv Hs Hcl Hseed] Hnew Hin Hmatch.
  assert (px x y = orig x y) as Hpx by (apply (Hk (x, y)); tauto).
  assert (passable (x, y)) as Hpass by (split; simpl; congruence).
  assert (flood_reached (x, y)) as Hreach by (apply Hs; [by left | done]).
  split.
  - intros [a b] Hp Hpa. simpl.
    destruct (decide ((a, b) = (x, y))) as [[= -> ->] | Hne].
    + apply putpixel_same.
    + rewrite putpixel_other by done. apply (Hc (a, b)); [set_solver | done].
  - intros [a b] Hp. simpl.
    destruct (decide ((a, b) = (x, y))) as [[= -> ->] | Hne].
    + exfalso. apply Hp. split; [set_solver | done].
    + rewrite putpixel_other by done. apply (Hk (a, b)). set_solver.
  - intros p Hp Hpa. apply elem_of_union in Hp as [Hp | Hp]; [| by apply Hv].
    apply elem_of_singleton in Hp as ->. done.
  - intros q Hq Hpa. rewrite !elem_of_cons in Hq.
    destruct Hq as [-> | [-> | [-> | [-> | Hq]]]];
      try (apply (flood_reached_step _ _ _ _ (x, y));
           [done | unfold adjacent; simpl; tauto | done]).
    apply Hs; [by right | done].
  - intros p q Hp Hpa Hadj Hq. apply elem_of_union in Hp as [Hp | Hp].
    + apply elem_of_singleton in Hp as ->. right. rewrite !elem_of_cons.
      unfold adjacent in Hadj. simpl in Hadj. tauto.
    + destruct (Hcl p q Hp Hpa Hadj Hq) as [Hq' | Hq']; [left; set_solver |].
      apply elem_of_cons in Hq' as [-> | Hq']; [left; set_solver |].
      right. rewrite !elem_of_cons. tauto.
  - destruct Hseed as [Hseed | Hseed]; [left; set_solver |].
    apply elem_of_cons in Hseed as [<- | Hseed]; [left; set_solver |].
    right. rewrite !elem_of_cons. tauto.
Qed.

Lemma flood_inv_keep x y rest visited px :
  flood_inv ((x, y) :: rest) visited px ->
  (x, y) ∉ visited -> inside w h x y = true ->
  matches_seed seed (px x y) = false ->
  flood_inv rest ({[ (x, y) ]} ∪ visited) px.
Proof.
  intros [Hc Hk Hv Hs Hcl Hseed] Hnew Hin Hmatch.
  assert (px x y = orig x y) as Hpx by (apply (Hk (x, y)); tauto).
  assert (~ passable (x, y)) as Hpass.
  { intros [_ Hm]. simpl in Hm. congruence. }
  split.
  - intros p Hp Hpa. apply Hc; [| done].
    apply elem_of_union in Hp as [->%elem_of_singleton | Hp]; done.
  - intros p Hp. destruct (decide (p = (x, y))) as [-> | Hne]; [done |].
    apply Hk. set_solver.
  - intros p Hp Hpa. apply Hv; [| done].
    apply elem_of_union in Hp as [->%elem_of_singleton | Hp]; done.
  - intros q Hq. apply Hs. by right.
  - intros p q Hp Hpa Hadj Hq.
    apply elem_of_union in Hp as [->%elem_of_singleton | Hp]; [done |].
    destruct (Hcl p q Hp Hpa Hadj Hq) as [Hq' | Hq']; [left; set_solver |].
    apply elem_of_cons in Hq' as [-> | Hq']; [left; set_solver | by right].
  - destruct Hseed as [Hseed | Hseed]; [left; set_solver |].
    apply elem_of_cons in Hseed as [<- | Hseed]; [left; set_solver | by right].
Qed.

(** Partial correctness of the loop. *)
Lemma flood_loop_inv fuel stack visited px px' :
  flood_inv stack visited px ->
  flood_loop fuel w h seed stack visited px = Some px' ->
  exists visited', flood_inv [] visited' px'.
Proof.
  revert stack visited px. induction fuel as [|fuel IH]; intros stack visited px Hinv; [done |].
  cbn [flood_loop]. destruct stack as [|[x y] rest].
  { intros [= <-]. by exists visited. }
  case_bool_decide as Hvis; cbn [orb].
  { apply IH. eapply flood_inv_skip; [done | by left]. }
  destruct (inside w h x y) eqn:Hin; cbn [negb].
  2:{ apply IH. eapply flood_inv_skip; [done | by right]. }
  destruct (matches_seed seed (px x y)) eqn:Hm.
  - apply IH. by apply flood_inv_clear.
  - apply IH. by apply flood_inv_keep.
Qed.

(** At the end the cleared pixels are those a path reaches. *)
Lemma flood_inv_final visited px :
  flood_inv [] visited px ->
  forall p, (flood_reached p -> px p.1 p.2 = transparent) /\
            (~ flood_reached p -> px p.1 p.2 = orig p.1 p.2).
Proof.
  intros [Hc Hk Hv Hs Hcl Hseed].
  assert (forall p, flood_reached p -> p ∈ visited /\ passable p) as Hall.
  { induction 1 as [Hpa | p q Hp [IHv IHp] Hadj Hq].
    - split; [| done]. destruct Hseed as [? | Hnil]; [done | by apply elem_of_nil in Hnil].
    - split; [| done].
      destruct (Hcl p q IHv IHp Hadj (proj1 Hq)) as [? | Hnil];
        [done | by apply elem_of_nil in Hnil]. }
  intros p. split.
  - intros Hr. destruct (Hall p Hr). by apply Hc.
  - intros Hr. apply Hk. intros [Hp Hpa]. apply Hr. by apply Hv.
Qed.
End flood.

(** Termination: the fuel bounds the number of turns of the loop. *)
Lemma unvisited_insert (w h : Z) visited p :
  inside w h p.1 p.2 = true -> p ∉ visited ->
  (unvisited w h ({[ p ]} ∪ visited) < unvisited w h visited)%nat.
Proof.
  intros Hin Hnew. unfold unvisited.
  assert (p ∈ cells w h) as Hp by (destruct p; by apply elem_of_cells).
  revert Hp. generalize (cells w h). intros l.
  induction l as [|q l IH]; intros Hq; [by apply elem_of_nil in Hq |].
  assert (length (filter (fun p0 => p0 ∉ {[p]} ∪ visited) l)
          <= length (filter (fun p0 => p0 ∉ visited) l))%nat as Hle.
  { clear. induction l as [|a l IH]; [done |].
    rewrite !filter_cons. repeat case_decide; simpl; try lia. set_solver. }
  rewrite !filter_cons.
  destruct (decide (q = p)) as [-> | Hne].
  - rewrite decide_False by set_solver. rewrite decide_True by done. simpl. lia.
  - apply elem_of_cons in Hq as [-> | Hq]; [done |]. specialize (IH Hq).
    repeat case_decide; simpl; try lia. set_solver.
Qed.

Lemma flood_loop_terminates (w h : Z) seed fuel stack visited px :
  (length stack + 4 * unvisited w h visited < fuel)%nat ->
  is_Some (flood_loop fuel w h seed stack visited px).
Proof.
  revert stack visited px.
  induction fuel as [|fuel IH]; intros stack visited px Hfuel; [lia |].
  cbn [flood_loop]. destruct stack as [|[x y] rest]; [done |].
  simpl in Hfuel.
  case_bool_decide as Hvis; cbn [orb]; [apply IH; lia |].
  destruct (inside w h x y) eqn:Hin; cbn [negb]; [| apply IH; lia].
  pose proof (unvisited_insert w h visited (x, y) Hin Hvis).
  destruct (matches_seed seed (px x y)); apply IH; simpl; lia.
Qed.

Lemma unvisited_empty (w h : Z) :
  0 <= w -> 0 <= h -> (unvisited w h ∅ <= Z.to_nat (w * h))%nat.
Proof.
  intros Hw Hh. unfold unvisited. rewrite <- length_cells by lia. apply length_filter.
Qed.

Lemma chain_snoc path q :
  chain (path ++ [q]) <->
  chain path /\ (forall p, last path = Some p -> adjacent p q).
Proof.
  induction path as [|a path IH].
  - simpl. split; [done | tauto].
  - destruct path as [|b path].
    + simpl. split.
      * intros [Hadj _]. split; [done |]. by intros p [= <-].
      * intros [_ Hadj]. split; [by apply Hadj | done].
    + change (chain ((a :: b :: path) ++ [q]))
        with (adjacent a b /\ chain ((b :: path) ++ [q])).
      change (chain (a :: b :: path)) with (adjacent a b /\ chain (b :: path)).
      change (last (a :: b :: path)) with (last (b :: path)).
      rewrite IH. tauto.
Qed.

(** A path of matching neighbours exists exactly when the pixel is reached
    step by step. *)
Lemma reached_seed_connected im p : reached im p <-> seed_connected im p.
Proof.
  split.
  - induction 1 as [Hm | p q Hp (path & Hhead & Hlast & Hchain & Hall) Hadj Hq].
    + exists [(0, 0)]. do 3 (split; [done |]). by constructor.
    + exists (path ++ [q]). destruct path as [|a path]; [done |].
      split; [done |]. split; [by rewrite last_snoc |].
      split.
      * apply chain_snoc. split; [done |]. intros p' Hp'. congruence.
      * apply Forall_app. split; [done | by constructor].
  - intros (path & Hhead & Hlast & Hchain & Hall). revert p Hlast.
    induction path as [|q path IH] using rev_ind; intros p Hlast; [done |].
    rewrite last_snoc in Hlast. injection Hlast as ->.
    apply Forall_app in Hall as [Hall Hp]. rewrite Forall_singleton in Hp.
    apply chain_snoc in Hchain as [Hchain Hadj].
    destruct path as [|a path].
    + injection Hhead as ->. by constructor.
    + destruct (last (a :: path)) as [p'|] eqn:Hlast.
      * apply (reached_step im p'); [| by apply Hadj | done].
        by apply IH.
      * by apply last_None in Hlast.
Qed.

Lemma flood_reached_reached im p :
  flood_reached (width im) (height im) (pixels im 0 0) (pixels im) p <-> reached im p.
Proof.
  split; induction 1; [by constructor 1 | by econstructor 2 | by constructor 1 | by econstructor 2].
Qed.

Lemma getpixel_origin im :
  0 < width im -> 0 < height im -> getpixel im 0 0 = Ok (pixels im 0 0).
Proof.
  intros Hw Hh. unfold getpixel, in_image. cbn [Z.ltb Z.compare].
  by rewrite (proj2 (inside_spec _ _ 0 0)) by lia.
Qed.

Lemma flood_fill_total (im : Image) :
  0 < width im -> 0 < height im -> exists im', flood_fill im = Ok im'.
Proof.
  intros Hw Hh. unfold flood_fill. rewrite getpixel_origin, bind_Ok by done.
  destruct (flood_loop_terminates (width im) (height im) (pixels im 0 0)
              (flood_fuel (width im) (height im)) [(0, 0)] ∅ (pixels im)) as [px ->];
    [| by eexists].
  pose proof (unvisited_empty (width im) (height im) ltac:(lia) ltac:(lia)).
  unfold flood_fuel. cbn [length]. lia.
Qed.

(** C2. Segmentation.  On an image that has a pixel at (0,0) the flood fill
    returns an image of the same mode and size in which a pixel is (0,0,0,0)
    when a 4-connected path leads to it from (0,0) through pixels of the
    image whose R, G and B are each within less than 30 of the seed's, and is
    the pixel of the input when no such path exists. *)
Theorem flood_fill_clears_connected (im : Image) :
  0 < width im -> 0 < height im ->
  exists im', flood_fill im = Ok im' /\
    mode im' = mode im /\ size im' = size im /\
    forall x y, in_image im x y = true ->
      (seed_connected im (x, y) -> pixels im' x y = transparent) /\
      (~ seed_connected im (x, y) -> pixels im' x y = pixels im x y).
Proof.
  intros Hw Hh. destruct (flood_fill_total im Hw Hh) as [im' Hfill].
  exists im'. split; [done |].
  unfold flood_fill in Hfill. rewrite getpixel_origin, bind_Ok in Hfill by done.
  destruct (flood_loop _ _ _ _ _ _ _) as [px|] eqn:Hloop; [| done].
  injection Hfill as <-. split; [done |]. split; [done |].
  intros x y _. simpl.
  apply (flood_loop_inv _ _ _ (pixels im) Hw Hh) in Hloop as [visited Hinv];
    [| by apply flood_inv_init].
  pose proof (flood_inv_final _ _ _ _ _ _ Hinv (x, y)) as [Hclear Hkeep].
  rewrite flood_reached_reached, reached_seed_connected in Hclear, Hkeep.
  done.
Qed.

Lemma flood_fill_clears_connected_witness :
  exists im', flood_fill island_image = Ok im' /\
    mode im' = mode island_image /\ size im' = size island_image /\
    forall x y, in_image island_image x y = true ->
      (seed_connected island_image (x, y) -> pixels im' x y = transparent) /\
      (~ seed_connected island_image (x, y) -> pixels im' x y = pixels island_image x y).
Proof.
  apply (flood_fill_clears_connected island_image); reflexivity.
Defined.

(** The island of the design document: the border is cleared, the ring and
    the pixel it encloses stay. *)
Example flood_fill_island :
  match flood_fill island_image with
  | Ok im' =>
      pixels im' 0 0 = transparent /\ pixels im' 4 4 = transparent /\
      pixels im' 0 3 = transparent /\ pixels im' 1 1 = black /\
      pixels im' 2 2 = white
  | Raise => False
  end.
Proof. vm_compute. by repeat split. Qed.

(* ------------------------------------------------------------------ *)
(** ** Compositor: trim with padding *)

Lemma filter_first (f : Z -> bool) l x1 rest :
  List.filter f l = x1 :: rest ->
  exists l1 l2, l = l1 ++ x1 :: l2 /\ f x1 = true /\
                forall x, x ∈ l1 -> f x = false.
Proof.
  induction l as [|a l IH]; [done |]. cbn [List.filter].
  destruct (f a) eqn:Ha.
  - intros [= -> _]. exists [], l. split; [done |]. split; [done |].
    by intros x ?%elem_of_nil.
  - intros (l1 & l2 & -> & Hx & Hl1)%IH. exists (a :: l1), l2.
    split; [done |]. split; [done |].
    intros x [-> | Hx']%elem_of_cons; auto.
Qed.

Lemma filter_last (f : Z -> bool) l d :
  List.filter f l <> [] ->
  exists l1 l2, l = l1 ++ List.last (List.filter f l) d :: l2 /\
                f (List.last (List.filter f l) d) = true /\
                forall x, x ∈ l2 -> f x = false.
Proof.
  induction l as [|a l IH] using rev_ind; [done |].
  rewrite List.filter_app. cbn [List.filter]. destruct (f a) eqn:Ha.
  - intros _. rewrite List.last_last. exists l, []. split; [done |].
    split; [done |]. by intros x ?%elem_of_nil.
  - rewrite app_nil_r. intros (l1 & l2 & Hl & Hx & Hl2)%IH.
    exists l1, (l2 ++ [a]). split; [by rewrite Hl at 1; rewrite <- app_assoc |].
    split; [done |].
    intros x [Hx' | ->%list_elem_of_singleton]%elem_of_app; auto.
Qed.

Lemma filter_nil (f : Z -> bool) l :
  List.filter f l = [] <-> forall x, x ∈ l -> f x = false.
Proof.
  induction l as [|a l IH]; cbn [List.filter].
  - split; [by intros _ x ?%elem_of_nil | done].
  - destruct (f a) eqn:Ha.
    + split; [done |]. intros H. rewrite H in Ha; [done | by left].
    + rewrite IH. split.
      * intros H x [-> | Hx]%elem_of_cons; auto.
      * intros H x Hx. apply H. by right.
Qed.

Lemma seqZ_split m n l1 z l2 :
  seqZ m n = l1 ++ z :: l2 ->
  m <= z < m + n /\ (forall x, x ∈ l1 -> x < z) /\
  (forall x, m <= x < m + n -> x < z -> x ∈ l1) /\
  (forall x, m <= x < m + n -> z < x -> x ∈ l2).
Proof.
  intros Hsplit.
  assert (forall i x, (l1 ++ z :: l2) !! i = Some x <-> x = m + Z.of_nat i /\ Z.of_nat i < n)
    as Hlook by (intros i x; rewrite <- Hsplit; apply lookup_seqZ).
  assert (z = m + Z.of_nat (length l1) /\ Z.of_nat (length l1) < n) as [Hz Hlen].
  { apply Hlook. by rewrite list_lookup_middle. }
  split; [lia |]. split; [| split].
  - intros x (i & Hi)%list_elem_of_lookup.
    pose proof (lookup_lt_Some _ _ _ Hi).
    assert ((l1 ++ z :: l2) !! i = Some x) as Hx by (by rewrite lookup_app_l).
    apply Hlook in Hx. lia.
  - intros x Hx Hlt.
    assert ((l1 ++ z :: l2) !! Z.to_nat (x - m) = Some x) as Hi by (apply Hlook; lia).
    rewrite lookup_app_l in Hi by lia. by apply list_elem_of_lookup_2 in Hi.
  - intros x Hx Hlt.
    assert ((l1 ++ z :: l2) !! Z.to_nat (x - m) = Some x) as Hi by (apply Hlook; lia).
    rewrite lookup_app_r in Hi by lia.
    destruct (Z.to_nat (x - m) - length l1)%nat as [|j] eqn:Hj; [lia |].
    cbn [lookup list_lookup] in Hi. by apply list_elem_of_lookup_2 in Hi.
Qed.

Lemma in_image_spec im x y :
  in_image im x y = true <-> 0 <= x < width im /\ 0 <= y < height im.
Proof. apply inside_spec. Qed.

Lemma column_counted_spec im x :
  column_counted im x = true <->
  exists y, 0 <= y < height im /\ counted im x y = true.
Proof.
  unfold column_counted. rewrite existsb_exists. split.
  - intros (y & Hy%list_elem_of_In%elem_of_seqZ & Hc). exists y. split; [lia | done].
  - intros (y & Hy & Hc). exists y. split; [| done].
    apply list_elem_of_In, elem_of_seqZ. lia.
Qed.

Lemma row_counted_spec im y :
  row_counted im y = true <->
  exists x, 0 <= x < width im /\ counted im x y = true.
Proof.
  unfold row_counted. rewrite existsb_exists. split.
  - intros (x & Hx%list_elem_of_In%elem_of_seqZ & Hc). exists x. split; [lia | done].
  - intros (x & Hx & Hc). exists x. split; [| done].
    apply list_elem_of_In, elem_of_seqZ. lia.
Qed.

Lemma columns_nil im :
  List.filter (column_counted im) (seqZ 0 (width im)) = [] <->
  forall x y, in_image im x y = true -> counted im x y = false.
Proof.
  rewrite filter_nil. split.
  - intros H x y [Hx Hy]%in_image_spec.
    destruct (counted im x y) eqn:Hc; [| done].
    rewrite <- (H x) by (apply elem_of_seqZ; lia).
    symmetry. apply column_counted_spec. eauto.
  - intros H x Hx%elem_of_seqZ.
    destruct (column_counted im x) eqn:Hc; [| done].
    apply column_counted_spec in Hc as (y & Hy & Hc).
    rewrite H in Hc; [done |]. apply in_image_spec. lia.
Qed.

Lemma rows_nil im :
  List.filter (row_counted im) (seqZ 0 (height im)) = [] <->
  forall x y, in_image im x y = true -> counted im x y = false.
Proof.
  rewrite filter_nil. split.
  - intros H x y [Hx Hy]%in_image_spec.
    destruct (counted im x y) eqn:Hc; [| done].
    rewrite <- (H y) by (apply elem_of_seqZ; lia).
    symmetry. apply row_counted_spec. eauto.
  - intros H y Hy%elem_of_seqZ.
    destruct (row_counted im y) eqn:Hc; [| done].
    apply row_counted_spec in Hc as (x & Hx & Hc).
    rewrite H in Hc; [done |]. apply in_image_spec. lia.
Qed.

Lemma getbbox_None im :
  getbbox im = None <->
  forall x y, in_image im x y = true -> counted im x y = false.
Proof.
  unfold getbbox.
  destruct (List.filter (column_counted im) _) as [|x1 xs] eqn:Hxs.
  - split; [intros _; by apply columns_nil | done].
  - destruct (List.filter (row_counted im) _) as [|y1 ys] eqn:Hys.
    + split; [intros _; by apply rows_nil | done].
    + split; [done |]. intros H%columns_nil. congruence.
Qed.

(** The first and the last counted element of a range bound the counted ones. *)
Lemma counted_range (f : Z -> bool) n z1 rest :
  List.filter f (seqZ 0 n) = z1 :: rest ->
  0 <= z1 /\ z1 <= List.last (z1 :: rest) z1 /\ List.last (z1 :: rest) z1 < n /\
  f z1 = true /\ f (List.last (z1 :: rest) z1) = true /\
  forall z, 0 <= z < n -> f z = true -> z1 <= z <= List.last (z1 :: rest) z1.
Proof.
  intros Hf. set (z2 := List.last (z1 :: rest) z1).
  destruct (filter_first f _ _ _ Hf) as (a1 & a2 & Ha & Hz1 & Hbefore).
  destruct (filter_last f (seqZ 0 n) z1) as (b1 & b2 & Hb & Hz2 & Hafter);
    [by rewrite Hf |].
  rewrite Hf in Hb, Hz2. fold z2 in Hb, Hz2.
  apply seqZ_split in Ha as (Hr1 & _ & Hlow & _).
  apply seqZ_split in Hb as (Hr2 & _ & _ & Hhigh).
  assert (forall z, 0 <= z < n -> f z = true -> z1 <= z <= z2) as Hall.
  { intros z Hz Hfz. split.
    - destruct (Z.lt_ge_cases z z1) as [Hlt |]; [| lia].
      rewrite Hbefore in Hfz; [done |]. apply Hlow; lia.
    - destruct (Z.lt_ge_cases z2 z) as [Hlt |]; [| lia].
      rewrite Hafter in Hfz; [done |]. apply Hhigh; lia. }
  pose proof (Hall z1 ltac:(lia) Hz1).
  split; [lia |]. split; [lia |]. split; [lia |]. done.
Qed.

Lemma getbbox_Some im x1 y1 x2 y2 :
  getbbox im = Some (x1, y1, x2, y2) ->
  is_bbox im (x1, y1, x2, y2) /\
  0 <= x1 < x2 /\ x2 <= width im /\ 0 <= y1 < y2 /\ y2 <= height im.
Proof.
  unfold getbbox.
  destruct (List.filter (column_counted im) _) as [|cx1 xs] eqn:Hxs; [done |].
  destruct (List.filter (row_counted im) _) as [|cy1 ys] eqn:Hys; [done |].
  intros [= <- <- <- <-].
  destruct (counted_range _ _ _ _ Hxs) as (Hx0 & Hx12 & Hxw & Hc1 & Hc2 & Hxall).
  destruct (counted_range _ _ _ _ Hys) as (Hy0 & Hy12 & Hyh & Hr1 & Hr2 & Hyall).
  set (lx := List.last (cx1 :: xs) cx1) in *.
  set (ly := List.last (cy1 :: ys) cy1) in *.
  change (is_bbox im (cx1, cy1, lx + 1, ly + 1) /\
          0 <= cx1 < lx + 1 /\ lx + 1 <= width im /\
          0 <= cy1 < ly + 1 /\ ly + 1 <= height im).
  split; [| lia]. unfold is_bbox.
  split; [| split; [| split; [| split]]].
  - intros x y [Hx Hy]%in_image_spec Hc.
    specialize (Hxall x Hx). specialize (Hyall y Hy).
    rewrite column_counted_spec in Hxall. rewrite row_counted_spec in Hyall.
    assert (cx1 <= x <= lx) by (apply Hxall; eauto).
    assert (cy1 <= y <= ly) by (apply Hyall; eauto).
    lia.
  - apply column_counted_spec in Hc1 as (y & Hy & Hc). exists y.
    split; [apply in_image_spec; lia | done].
  - replace (lx + 1 - 1) with lx by lia.
    apply column_counted_spec in Hc2 as (y & Hy & Hc). exists y.
    split; [apply in_image_spec; lia | done].
  - apply row_counted_spec in Hr1 as (x & Hx & Hc). exists x.
    split; [apply in_image_spec; lia | done].
  - replace (ly + 1 - 1) with ly by lia.
    apply row_counted_spec in Hr2 as (x & Hx & Hc). exists x.
    split; [apply in_image_spec; lia | done].
Qed.

Lemma crop_inside im x1 y1 x2 y2 out :
  crop im (x1, y1, x2, y2) = Ok out ->
  mode out = mode im /\ width out = x2 - x1 /\ height out = y2 - y1 /\
  forall x y, in_image im (x + x1) (y + y1) = true ->
              pixels out x y = pixels im (x + x1) (y + y1).
Proof.
  unfold crop. destruct (_ || _); [done |]. intros [= <-]. simpl.
  do 3 (split; [done |]). intros x y ->. done.
Qed.

Lemma counted_RGBA im x y :
  mode im = RGBA -> (counted im x y = true <-> alpha (pixels im x y) <> 0).
Proof.
  intros Hm. unfold counted. rewrite Hm, negb_true_iff, Z.eqb_neq. done.
Qed.

(** The function for any non-negative padding. *)
Lemma get_trimmed_image_with_padding_spec im pad_x pad_y :
  0 <= pad_x -> 0 <= pad_y ->
  (get_trimmed_image_with_padding im pad_x pad_y = Ok None <->
   forall x y, in_image im x y = true -> counted im x y = false) /\
  get_trimmed_image_with_padding im pad_x pad_y <> Raise /\
  (forall out, get_trimmed_image_with_padding im pad_x pad_y = Ok (Some out) ->
     exists x1 y1 x2 y2,
       is_bbox im (x1, y1, x2, y2) /\
       crop im (Z.max 0 (x1 - pad_x), Z.max 0 (y1 - pad_y),
                Z.min (width im) (x2 + pad_x), Z.min (height im) (y2 + pad_y))
       = Ok out /\
       0 <= Z.max 0 (x1 - pad_x) <= x1 /\ x2 <= Z.min (width im) (x2 + pad_x) <= width im /\
       0 <= Z.max 0 (y1 - pad_y) <= y1 /\ y2 <= Z.min (height im) (y2 + pad_y) <= height im).
Proof.
  intros Hpx Hpy. unfold get_trimmed_image_with_padding.
  destruct (getbbox im) as [[[[x1 y1] x2] y2]|] eqn:Hbox.
  - apply getbbox_Some in Hbox as (Hbb & Hx & Hxw & Hy & Hyh).
    assert (exists out,
      crop im (Z.max 0 (x1 - pad_x), Z.max 0 (y1 - pad_y),
               Z.min (width im) (x2 + pad_x), Z.min (height im) (y2 + pad_y))
      = Ok out) as [out Hcrop].
    { unfold crop.
      destruct (Z.ltb_spec (Z.min (width im) (x2 + pad_x)) (Z.max 0 (x1 - pad_x))); [lia |].
      destruct (Z.ltb_spec (Z.min (height im) (y2 + pad_y)) (Z.max 0 (y1 - pad_y))); [lia |].
      by eexists. }
    rewrite Hcrop, bind_Ok. split; [| split; [done |]].
    + split; [done |]. intros Hnone.
      destruct Hbb as (_ & (y & Hin & Hc) & _). rewrite Hnone in Hc; done.
    + intros out' [= <-]. exists x1, y1, x2, y2.
      split; [done |]. split; [done |]. lia.
  - split; [| split; [done | done]].
    split; [intros _; by apply getbbox_None | done].
Qed.

(** C6. Trim-with-padding.  For an RGBA image the function never raises; it
    returns [None] exactly when every pixel of the image has alpha zero;
    otherwise it returns the crop of the box that is the bounding box of the
    pixels with non-zero alpha, moved out by 40 to the left and to the right
    and by 20 upwards and downwards, and cut at the edges of the image. *)
Theorem trim_with_padding_box (im : Image) :
  mode im = RGBA ->
  (get_trimmed_image_with_padding im 40 20 = Ok None <->
   forall x y, in_image im x y = true -> alpha (pixels im x y) = 0) /\
  get_trimmed_image_with_padding im 40 20 <> Raise /\
  (forall x y, counted im x y = true <-> alpha (pixels im x y) <> 0) /\
  (forall out, get_trimmed_image_with_padding im 40 20 = Ok (Some out) ->
     exists x1 y1 x2 y2,
       is_bbox im (x1, y1, x2, y2) /\
       crop im (Z.max 0 (x1 - 40), Z.max 0 (y1 - 20),
                Z.min (width im) (x2 + 40), Z.min (height im) (y2 + 20)) = Ok out /\
       mode out = mode im /\
       width out = Z.min (width im) (x2 + 40) - Z.max 0 (x1 - 40) /\
       height out = Z.min (height im) (y2 + 20) - Z.max 0 (y1 - 20) /\
       forall x y, 0 <= x < width out -> 0 <= y < height out ->
         pixels out x y = pixels im (x + Z.max 0 (x1 - 40)) (y + Z.max 0 (y1 - 20))).
Proof.
  intros Hmode.
  destruct (get_trimmed_image_with_padding_spec im 40 20) as (Hnone & Hraise & Hsome);
    [lia | lia |].
  split.
  { rewrite Hnone. split; intros H x y Hin; specialize (H x y Hin).
    - destruct (Z.eq_dec (alpha (pixels im x y)) 0) as [| Hne]; [done |].
      apply (counted_RGBA im x y Hmode) in Hne. congruence.
    - apply not_true_is_false. rewrite counted_RGBA by done. tauto. }
  split; [done |]. split; [intros x y; by apply counted_RGBA |].
  intros out Hout. destruct (Hsome out Hout) as (x1 & y1 & x2 & y2 & Hbb & Hcrop & Hb).
  exists x1, y1, x2, y2. split; [done |]. split; [done |].
  destruct (crop_inside _ _ _ _ _ _ Hcrop) as (Hm & Hwd & Hht & Hpix).
  split; [done |]. split; [done |]. split; [done |].
  intros x y Hx Hy. apply Hpix. apply in_image_spec. lia.
Qed.

Lemma trim_with_padding_box_witness :
  get_trimmed_image_with_padding corner_image 40 20 <> Raise.
Proof.
  refine (proj1 (proj2 (trim_with_padding_box corner_image _))). reflexivity.
Defined.

(** The canvas of the design document: the square at (50, 50) gives the box
    (10, 30, 100, 80), which lies inside the canvas. *)
Example trim_square :
  getbbox square_image = Some (50, 50, 60, 60) /\
  exists out, crop square_image (10, 30, 100, 80) = Ok out /\
              get_trimmed_image_with_padding square_image 40 20 = Ok (Some out) /\
              size out = (90, 50).
Proof.
  assert (getbbox square_image = Some (50, 50, 60, 60)) as Hbox
    by (vm_compute; reflexivity).
  split; [done |]. eexists. split; [reflexivity |].
  unfold get_trimmed_image_with_padding. rewrite Hbox. split; reflexivity.
Qed.

(** Near a corner the box is cut at the edges of the canvas. *)
Example trim_corner :
  getbbox corner_image = Some (5, 5, 6, 6) /\
  exists out, crop corner_image (0, 0, 46, 26) = Ok out /\
              get_trimmed_image_with_padding corner_image 40 20 = Ok (Some out) /\
              size out = (46, 26).
Proof.
  assert (getbbox corner_image = Some (5, 5, 6, 6)) as Hbox
    by (vm_compute; reflexivity).
  split; [done |]. eexists. split; [reflexivity |].
  unfold get_trimmed_image_with_padding. rewrite Hbox. split; reflexivity.
Qed.

(* ------------------------------------------------------------------ *)
(** ** Compositor: scale and paste *)

(** What [process_image] does on the way to a composite. *)
Lemma process_image_Some W design_img mockup_img rect watermark_text out :
  process_image W design_img mockup_img (Some rect) watermark_text = Ok (Some out) ->
  exists filled trimmed pl resized px,
    flood_fill design_img = Ok filled /\
    get_trimmed_image_with_padding filled 40 20 = Ok (Some trimmed) /\
    placement rect (width trimmed) (height trimmed) = Ok pl /\
    pil_resize W trimmed (final_w pl, final_h pl) = Ok resized /\
    pil_paste W (copy mockup_img) resized (final_x pl, final_y pl) = Ok px /\
    add_watermark W (with_pixels (copy mockup_img) px) watermark_text = Ok out.
Proof.
  unfold process_image. intros H.
  apply bind_Ok_inv in H as (filled & Hfill & H).
  apply bind_Ok_inv in H as ([trimmed|] & Htrim & H); [| done].
  apply bind_Ok_inv in H as (pl & Hpl & H).
  apply bind_Ok_inv in H as (resized & Hres & H).
  apply bind_Ok_inv in H as (px & Hpx & H).
  apply bind_Ok_inv in H as (out' & Hwm & [= <-]).
  by exists filled, trimmed, pl, resized, px.
Qed.

(** *** The floats of the placement are numbers *)

Lemma iter_pos_invariant {A} (P : A -> Prop) (f : A -> A) :
  (forall x, P x -> P (f x)) -> forall p x, P x -> P (SpecFloat.iter_pos f p x).
Proof. intros Hf p. induction p as [p IH | p IH |]; intros x Hx; simpl; auto. Qed.

Lemma shr_1_nonneg mrs : 0 <= shr_m mrs -> 0 <= shr_m (shr_1 mrs).
Proof. destruct mrs as [[|[p|p|]|p] r s]; simpl; lia. Qed.

Lemma shr_fexp_nonneg m e l :
  0 <= m -> 0 <= shr_m (shr_fexp prec emax m e l).1.
Proof.
  intros Hm. unfold shr_fexp, shr.
  assert (0 <= shr_m (shr_record_of_loc m l)) as H0 by (by destruct l as [|[]]).
  destruct (fexp prec emax (Zdigits2 m + e) - e) as [|p|p]; simpl; [done | | done].
  by apply (iter_pos_invariant (fun mrs => 0 <= shr_m mrs) shr_1 shr_1_nonneg).
Qed.

Lemma round_nearest_even_nonneg m l : 0 <= m -> 0 <= round_nearest_even m l.
Proof.
  intros Hm. destruct l as [|[]]; simpl; try lia. destruct (Z.even m); lia.
Qed.

(** Rounding a non-negative significand never gives a NaN. *)
Lemma binary_round_aux_not_nan sx mx ex lx :
  0 <= mx -> binary_round_aux prec emax sx mx ex lx <> S754_nan.
Proof.
  intros Hm. unfold binary_round_aux.
  pose proof (shr_fexp_nonneg mx ex lx Hm) as H1.
  destruct (shr_fexp prec emax mx ex lx) as [mrs' e']. simpl in H1.
  pose proof (shr_fexp_nonneg _ e' loc_Exact
                (round_nearest_even_nonneg _ (loc_of_shr_record mrs') H1)) as H2.
  destruct (shr_fexp prec emax _ e' loc_Exact) as [mrs'' e'']. simpl in H2.
  destruct (shr_m mrs'') as [|m|m]; [done | | lia].
  by destruct (e'' <=? emax - prec).
Qed.

Lemma SFdiv_exact_int_not_nan a b :
  b <> 0 -> SFdiv prec emax (exact_int a) (exact_int b) <> S754_nan.
Proof.
  intros Hb.
  assert (forall sx sy mx my,
            SFdiv prec emax (S754_finite sx mx 0) (S754_finite sy my 0) <> S754_nan) as Hfin.
  { intros sx sy mx my. unfold SFdiv, SFdiv_core_binary.
    set (e' := Z.min _ _). set (m' := match 0 - 0 - e' with 0 => _ | _ => _ end).
    assert (0 <= m') as Hm'.
    { subst m'. destruct (0 - 0 - e') as [|p|p]; [lia | | lia].
      apply Z.shiftl_nonneg. lia. }
    assert (Z.div_eucl m' (Z.pos my) = (m' `div` Z.pos my, m' `mod` Z.pos my)) as ->.
    { unfold Z.div, Z.modulo. by destruct (Z.div_eucl m' (Z.pos my)). }
    apply binary_round_aux_not_nan. apply Z.div_pos; lia. }
  destruct a as [|a|a], b as [|b|b]; try done; apply Hfin.
Qed.

Lemma py_true_div_not_nan a b q : py_true_div a b = Ok q -> q <> S754_nan.
Proof.
  unfold py_true_div. destruct (Z.eqb_spec b 0) as [|Hb]; [done |].
  pose proof (SFdiv_exact_int_not_nan a b Hb) as Hnan.
  destruct (SFdiv prec emax (exact_int a) (exact_int b)); simpl; congruence.
Qed.

(** *** The order of the floats *)

Lemma SFcompare_antisym x y :
  SFcompare y x = CompOpp <$> SFcompare x y.
Proof.
  destruct x as [sx|sx| |sx mx ex], y as [sy|sy| |sy my ey];
    try done; try (by destruct sx); try (by destruct sy); try (by destruct sx, sy).
  unfold SFcompare, fmap, option_fmap, option_map. f_equal.
  rewrite (Z.compare_antisym ey ex).
  destruct sx, sy; try done.
  - destruct (ey ?= ex); simpl; try done.
    by rewrite (Pos.compare_cont_antisym mx my Eq).
  - destruct (ey ?= ex); simpl; try done.
    by rewrite (Pos.compare_cont_antisym mx my Eq).
Qed.

Lemma SFcompare_refl x : x <> S754_nan -> SFcompare x x = Some Eq.
Proof.
  destruct x as [s|s| |s m e]; try done; try (by destruct s).
  intros _. unfold SFcompare. rewrite Z.compare_refl.
  assert (Pos.compare_cont Eq m m = Eq) as -> by apply Pos.compare_refl.
  by destruct s.
Qed.

Lemma SFcompare_Some x y :
  x <> S754_nan -> y <> S754_nan -> exists c, SFcompare x y = Some c.
Proof.
  destruct x as [sx|sx| |sx mx ex], y as [sy|sy| |sy my ey]; try done; intros _ _;
    by eexists.
Qed.

(** [min(a, b)] returns the smaller of two numbers, and it is the only
    float that is. *)
Lemma py_min_smaller_of a b :
  a <> S754_nan -> b <> S754_nan -> smaller_of a b (py_min a b).
Proof.
  intros Ha Hb. unfold smaller_of, py_min, SFltb, SFleb.
  destruct (SFcompare_Some b a Hb Ha) as [c Hc].
  pose proof (SFcompare_antisym b a) as Hanti. rewrite Hc in Hanti. simpl in Hanti.
  rewrite Hc. destruct c; cbv beta iota.
  - rewrite (SFcompare_refl a Ha), Hanti. split; [done |]. split; [done |]. by left.
  - rewrite (SFcompare_refl b Hb), Hc. split; [done |]. split; [done |]. by right.
  - rewrite (SFcompare_refl a Ha), Hanti. split; [done |]. split; [done |]. by left.
Qed.

Lemma smaller_of_py_min a b s : smaller_of a b s -> s = py_min a b.
Proof.
  unfold smaller_of, py_min, SFltb, SFleb.
  intros (_ & Hb & [-> | [-> Hlt]]).
  - rewrite (SFcompare_antisym a b). by destruct (SFcompare a b) as [[]|].
  - by rewrite Hlt.
Qed.

(** What [placement] computes, with [min] read as the smaller of the two
    quotients. *)
Lemma placement_spec rect dw dh pl :
  placement rect dw dh = Ok pl <->
  exists scale_w scale_h scaled_w scaled_h,
    py_true_div (cw rect) dw = Ok scale_w /\
    py_true_div (ch rect) dh = Ok scale_h /\
    smaller_of scale_w scale_h (scale pl) /\
    py_int_mul dw (scale pl) = Ok scaled_w /\ py_int scaled_w = Ok (final_w pl) /\
    py_int_mul dh (scale pl) = Ok scaled_h /\ py_int scaled_h = Ok (final_h pl) /\
    final_x pl = cx rect + (cw rect - final_w pl) `div` 2 /\
    final_y pl = cy rect + 20.
Proof.
  unfold placement. split.
  - intros H.
    apply bind_Ok_inv in H as (scale_w & Hsw & H).
    apply bind_Ok_inv in H as (scale_h & Hsh & H).
    apply bind_Ok_inv in H as (scaled_w & Hmw & H).
    apply bind_Ok_inv in H as (fw & Hfw & H).
    apply bind_Ok_inv in H as (scaled_h & Hmh & H).
    apply bind_Ok_inv in H as (fh & Hfh & [= <-]).
    cbn [scale final_w final_h final_x final_y].
    exists scale_w, scale_h, scaled_w, scaled_h. do 2 (split; [done |]).
    split; [| done].
    apply py_min_smaller_of; by eapply py_true_div_not_nan.
  - intros (scale_w & scale_h & scaled_w & scaled_h
            & Hsw & Hsh & Hmin & Hmw & Hfw & Hmh & Hfh & Hx & Hy).
    apply smaller_of_py_min in Hmin.
    rewrite Hsw, bind_Ok, Hsh, bind_Ok, <- Hmin, Hmw, bind_Ok, Hfw, bind_Ok,
      Hmh, bind_Ok, Hfh, bind_Ok.
    destruct pl as [s fw fh fx fy]. cbn in *. by subst fx fy.
Qed.

(** *** A placement exists for sizes below 2^31 *)

Lemma digits2_pos_size p : digits2_pos p = Pos.size p.
Proof. induction p as [p IH | p IH |]; simpl; congruence. Qed.

(** The number of bits of a natural number. *)
Lemma Zdigits2_le m k : 0 <= m -> 0 <= k -> (Zdigits2 m <= k <-> m < 2 ^ k).
Proof.
  intros Hm Hk. destruct m as [|p|p]; [| | lia].
  - simpl. pose proof (Z.pow_pos_nonneg 2 k). lia.
  - cbn [Zdigits2]. rewrite digits2_pos_size.
    pose proof (Pos.size_gt p) as Hgt. pose proof (Pos.size_le p) as Hle.
    apply Pos2Z.pos_lt_pos in Hgt. apply Pos2Z.pos_le_pos in Hle.
    rewrite Pos2Z.inj_pow in Hgt, Hle. change (Z.pos p~0) with (2 * Z.pos p) in Hle.
    split.
    + intros Hs. pose proof (Z.pow_le_mono_r 2 (Z.pos (Pos.size p)) k). lia.
    + intros Hp. destruct (Z.le_gt_cases (Z.pos (Pos.size p)) k) as [|Hgt']; [done |].
      pose proof (Z.pow_le_mono_r 2 (Z.succ k) (Z.pos (Pos.size p)) ltac:(lia) ltac:(lia))
        as Hpow.
      rewrite Z.pow_succ_r in Hpow by lia. lia.
Qed.

Lemma shr_1_le mrs : 0 <= shr_m mrs -> 0 <= shr_m (shr_1 mrs) <= shr_m mrs.
Proof. destruct mrs as [[|[p|p|]|p] r s]; simpl; lia. Qed.

Lemma shr_fexp_le m e l :
  0 <= m -> 0 <= shr_m (shr_fexp prec emax m e l).1 <= m.
Proof.
  intros Hm. unfold shr_fexp, shr.
  assert (shr_m (shr_record_of_loc m l) = m) as H0 by (by destruct l as [|[]]).
  destruct (fexp prec emax (Zdigits2 m + e) - e) as [|p|p]; simpl; [lia | | lia].
  apply (iter_pos_invariant (fun mrs => 0 <= shr_m mrs <= m) shr_1); [| lia].
  intros mrs [H1 H2]. pose proof (shr_1_le mrs H1). lia.
Qed.

Lemma shr_fexp_exponent m e l :
  (shr_fexp prec emax m e l).2 = Z.max e (fexp prec emax (Zdigits2 m + e)).
Proof.
  unfold shr_fexp, shr.
  destruct (fexp prec emax (Zdigits2 m + e) - e) as [|p|p] eqn:Hn; simpl; lia.
Qed.

Lemma round_nearest_even_le m l : 0 <= m -> 0 <= round_nearest_even m l <= m + 1.
Proof.
  intros Hm. destruct l as [|[]]; simpl; try lia. destruct (Z.even m); lia.
Qed.

(** Rounding a significand of at most [D] bits never overflows when the
    exponent is small. *)
Lemma binary_round_aux_fits sx mx ex lx D E :
  0 <= mx -> Zdigits2 mx <= D -> ex <= E ->
  53 <= D -> -1074 <= E -> 2 * D + E - 105 <= 971 ->
  fits (D + 1) (2 * D + E - 105) (binary_round_aux prec emax sx mx ex lx).
Proof.
  intros Hm Hd He HD HE Hmax. unfold binary_round_aux.
  pose proof (shr_fexp_le mx ex lx Hm) as H1.
  pose proof (shr_fexp_exponent mx ex lx) as H1e.
  destruct (shr_fexp prec emax mx ex lx) as [mrs' e']. simpl in H1, H1e.
  pose proof (round_nearest_even_le (shr_m mrs') (loc_of_shr_record mrs') ltac:(lia)) as Hr.
  set (mr := round_nearest_even (shr_m mrs') (loc_of_shr_record mrs')) in *.
  pose proof (shr_fexp_le mr e' loc_Exact ltac:(lia)) as H2.
  pose proof (shr_fexp_exponent mr e' loc_Exact) as H2e.
  destruct (shr_fexp prec emax mr e' loc_Exact) as [mrs'' e'']. simpl in H2, H2e.
  apply Zdigits2_le in Hd; [| done | lia].
  assert (mr < 2 ^ (D + 1)) as Hmr by (rewrite Z.pow_add_r by lia; lia).
  assert (Zdigits2 mr <= D + 1) as Hdr by (apply Zdigits2_le; lia).
  assert (Zdigits2 mx <= D) as Hdx by (apply Zdigits2_le; lia).
  unfold fexp, emin, prec, emax in H1e, H2e.
  destruct (shr_m mrs'') as [|m|m] eqn:Hm''; [done | | lia].
  destruct (Z.leb_spec e'' (emax - prec)) as [_ | Hbig]; [| unfold emax, prec in Hbig; lia].
  split; [| lia]. apply Zdigits2_le; lia.
Qed.

Lemma SFdiv_exact_int_fits a b :
  Z.abs a < 2 ^ 31 -> b <> 0 -> Z.abs b < 2 ^ 31 ->
  fits 116 125 (SFdiv prec emax (exact_int a) (exact_int b)).
Proof.
  intros Ha Hb0 Hb.
  assert (forall sx sy mx my,
            Z.pos mx < 2 ^ 31 -> Z.pos my < 2 ^ 31 ->
            fits 116 125 (SFdiv prec emax (S754_finite sx mx 0) (S754_finite sy my 0)))
    as Hfin.
  { intros sx sy mx my Hx Hy. unfold SFdiv, SFdiv_core_binary.
    assert (1 <= Zdigits2 (Z.pos mx) <= 31) as Hd1
      by (split; [simpl; lia | apply Zdigits2_le; lia]).
    assert (1 <= Zdigits2 (Z.pos my) <= 31) as Hd2
      by (split; [simpl; lia | apply Zdigits2_le; lia]).
    set (e' := Z.min _ _).
    assert (-83 <= e' <= 0) as He'
      by (subst e'; unfold fexp, emin, prec, emax; lia).
    set (m' := match 0 - 0 - e' with 0 => _ | _ => _ end).
    assert (0 <= m' < 2 ^ 114) as Hm'.
    { assert (Z.pos mx * 2 ^ (0 - 0 - e') < 2 ^ 114) as Hshift.
      { assert (2 ^ (0 - 0 - e') <= 2 ^ 83) by (apply Z.pow_le_mono_r; lia).
        change (2 ^ 114) with (2 ^ 31 * 2 ^ 83).
        pose proof (Z.pow_pos_nonneg 2 (0 - 0 - e')). nia. }
      subst m'. destruct (0 - 0 - e') as [|p|p] eqn:Hs; [| | lia].
      - rewrite Z.pow_0_r in Hshift. lia.
      - rewrite Z.shiftl_mul_pow2 by lia.
        pose proof (Z.pow_pos_nonneg 2 (Z.pos p)). nia. }
    assert (Z.div_eucl m' (Z.pos my) = (m' `div` Z.pos my, m' `mod` Z.pos my)) as ->.
    { unfold Z.div, Z.modulo. by destruct (Z.div_eucl m' (Z.pos my)). }
    assert (0 <= m' `div` Z.pos my <= m') as Hq.
    { split; [apply Z.div_pos; lia |]. apply Z.div_le_upper_bound; [lia | nia]. }
    apply (binary_round_aux_fits _ _ _ _ 115 0); try lia.
    apply Zdigits2_le; [lia | lia |].
    assert (2 ^ 114 < 2 ^ 115) by (apply Z.pow_lt_mono_r; lia). lia. }
  destruct a as [|a|a], b as [|b|b]; try done; apply Hfin; lia.
Qed.

Lemma py_true_div_fits a b :
  Z.abs a < 2 ^ 31 -> b <> 0 -> Z.abs b < 2 ^ 31 ->
  exists q, py_true_div a b = Ok q /\ fits 116 125 q.
Proof.
  intros Ha Hb0 Hb. unfold py_true_div.
  destruct (Z.eqb_spec b 0) as [|_]; [done |].
  pose proof (SFdiv_exact_int_fits a b Ha Hb0 Hb) as Hfits.
  destruct (SFdiv prec emax (exact_int a) (exact_int b)) as [s|s| |s m e];
    [by eexists | done | done | by eexists].
Qed.

Lemma Pos_iter_xO p n : Z.pos (Pos.iter xO p n) = Z.pos p * 2 ^ Z.pos n.
Proof.
  induction n as [|n IH] using Pos.peano_ind.
  - simpl. lia.
  - rewrite Pos.iter_succ, Pos2Z.inj_xO, IH, Pos2Z.inj_succ, Z.pow_succ_r by lia. lia.
Qed.

Lemma float_of_int_fits z :
  Z.abs z < 2 ^ 31 -> exists f, float_of_int z = Ok f /\ fits 84 61 f.
Proof.
  intros Hz.
  assert (forall s p, Z.pos p < 2 ^ 31 -> fits 84 61 (binary_round prec emax s p 0)) as Hfin.
  { intros s p Hp. unfold binary_round, shl_align.
    assert (1 <= Z.pos (digits2_pos p) <= 31) as Hd
      by (split; [lia | apply (Zdigits2_le (Z.pos p)); lia]).
    assert (fexp prec emax (Z.pos (digits2_pos p) + 0) - 0
            = Z.neg (Z.to_pos (53 - Z.pos (digits2_pos p)))) as ->.
    { unfold fexp, emin, prec, emax. rewrite <- Pos2Z.opp_pos, Z2Pos.id by lia. lia. }
    apply (binary_round_aux_fits _ _ _ _ 83 0); try lia.
    - apply Zdigits2_le; [lia | lia |]. rewrite Pos_iter_xO, Z2Pos.id by lia.
      assert (2 ^ (53 - Z.pos (digits2_pos p)) <= 2 ^ 52) by (apply Z.pow_le_mono_r; lia).
      change (2 ^ 83) with (2 ^ 31 * 2 ^ 52).
      pose proof (Z.pow_pos_nonneg 2 (53 - Z.pos (digits2_pos p))). nia.
    - unfold fexp, emin, prec, emax. lia. }
  unfold float_of_int, binary_normalize.
  destruct z as [|p|p].
  - by eexists.
  - pose proof (Hfin false p ltac:(lia)) as Hf.
    destruct (binary_round prec emax false p 0); [by eexists | done | done | by eexists].
  - pose proof (Hfin true p ltac:(lia)) as Hf.
    destruct (binary_round prec emax true p 0); [by eexists | done | done | by eexists].
Qed.

Lemma py_int_mul_fits z f :
  Z.abs z < 2 ^ 31 -> fits 116 125 f ->
  exists g, py_int_mul z f = Ok g /\ fits 201 481 g.
Proof.
  intros Hz Hf. unfold py_int_mul.
  destruct (float_of_int_fits z Hz) as (zf & -> & Hzf). rewrite bind_Ok.
  eexists. split; [reflexivity |].
  destruct zf as [sx|sx| |sx mx ex], f as [sy|sy| |sy my ey]; try done.
  destruct Hzf as [Hdx Hex], Hf as [Hdy Hey]. unfold SFmul.
  apply (binary_round_aux_fits _ _ _ _ 200 186); try lia.
  apply Zdigits2_le in Hdx; [| lia | lia]. apply Zdigits2_le in Hdy; [| lia | lia].
  apply Zdigits2_le; [lia | lia |].
  rewrite Pos2Z.inj_mul. change (2 ^ 200) with (2 ^ 84 * 2 ^ 116). nia.
Qed.

Lemma py_int_fits d e f : fits d e f -> exists z, py_int f = Ok z.
Proof. destruct f; [by eexists | done | done | by eexists]. Qed.

Lemma py_min_fits d e a b : fits d e a -> fits d e b -> fits d e (py_min a b).
Proof. intros Ha Hb. unfold py_min. by destruct (SFltb b a). Qed.

(** For a design and a rectangle with sides below 2^31, the placement is
    computed: no division by zero and no overflow. *)
Lemma placement_total rect dw dh :
  Z.abs (cw rect) < 2 ^ 31 -> Z.abs (ch rect) < 2 ^ 31 ->
  1 <= dw < 2 ^ 31 -> 1 <= dh < 2 ^ 31 ->
  exists pl, placement rect dw dh = Ok pl.
Proof.
  intros Hw Hh Hdw Hdh. unfold placement.
  destruct (py_true_div_fits (cw rect) dw) as (scale_w & -> & Hsw); [lia | lia | lia |].
  destruct (py_true_div_fits (ch rect) dh) as (scale_h & -> & Hsh); [lia | lia | lia |].
  rewrite !bind_Ok.
  pose proof (py_min_fits _ _ _ _ Hsw Hsh) as Hs.
  destruct (py_int_mul_fits dw _ ltac:(lia) Hs) as (gw & -> & Hgw). rewrite bind_Ok.
  destruct (py_int_fits _ _ _ Hgw) as (fw & ->). rewrite bind_Ok.
  destruct (py_int_mul_fits dh _ ltac:(lia) Hs) as (gh & -> & Hgh). rewrite bind_Ok.
  destruct (py_int_fits _ _ _ Hgh) as (fh & ->). rewrite bind_Ok.
  by eexists.
Qed.

(** C7. Scale-and-paste.  Let the flood fill and the trim of a design give a
    trimmed design of size dw by dh, and let the rectangle be (x, y, w, h).
    The trimmed design is at least 1 by 1, so that neither quotient divides
    by zero.  [process_image] then does exactly this: it computes the
    placement from the rectangle and (dw, dh), resizes the trimmed design
    to (final_w, final_h), pastes it at (final_x, final_y) on a copy of the
    mockup, adds the signature and returns the composite; an exception of
    one of these steps is its own.  When the sides of the rectangle and of
    the trimmed design are below 2^31, the placement is always computed: no
    quotient, product or truncation overflows.  A value is the placement
    exactly when its scale is the smaller of the float quotients w/dw and
    h/dh in the order of the floats (the first on a tie), final_w and
    final_h are the truncations of the float products dw*scale and
    dh*scale, final_x is x + (w - final_w) // 2 and final_y is y + 20;
    final_x leaves margins in the rectangle that differ by at most one
    pixel.  A 100 by 50 design in
    a 200 by 200 rectangle gets the scale 2.0 and the size 200 by 100 from
    its width; a 50 by 100 design gets the scale 2.0 and the size 100 by
    200 from its height, and is pasted 50 pixels from the left of the
    rectangle. *)
Theorem scale_and_paste (W : World) (design_img mockup_img : Image) (rect : Coords)
    (watermark_text : option string) (filled trimmed : Image) :
  flood_fill design_img = Ok filled ->
  get_trimmed_image_with_padding filled 40 20 = Ok (Some trimmed) ->
  (1 <= width trimmed /\ 1 <= height trimmed) /\
  process_image W design_img mockup_img (Some rect) watermark_text
  = (pl ← placement rect (width trimmed) (height trimmed);
     resized_design ← pil_resize W trimmed (final_w pl, final_h pl);
     px ← pil_paste W (copy mockup_img) resized_design (final_x pl, final_y pl);
     out ← add_watermark W (with_pixels (copy mockup_img) px) watermark_text;
     Ok (Some out)) /\
  (Z.abs (cw rect) < 2 ^ 31 -> Z.abs (ch rect) < 2 ^ 31 ->
   width trimmed < 2 ^ 31 -> height trimmed < 2 ^ 31 ->
   exists pl, placement rect (width trimmed) (height trimmed) = Ok pl) /\
  (forall pl,
     placement rect (width trimmed) (height trimmed) = Ok pl <->
     exists scale_w scale_h scaled_w scaled_h,
       py_true_div (cw rect) (width trimmed) = Ok scale_w /\
       py_true_div (ch rect) (height trimmed) = Ok scale_h /\
       smaller_of scale_w scale_h (scale pl) /\
       py_int_mul (width trimmed) (scale pl) = Ok scaled_w /\
       py_int scaled_w = Ok (final_w pl) /\
       py_int_mul (height trimmed) (scale pl) = Ok scaled_h /\
       py_int scaled_h = Ok (final_h pl) /\
       final_x pl = cx rect + (cw rect - final_w pl) `div` 2 /\
       final_y pl = cy rect + 20) /\
  (forall pl,
     placement rect (width trimmed) (height trimmed) = Ok pl ->
     final_x pl - cx rect <= cx rect + cw rect - (final_x pl + final_w pl)
     <= final_x pl - cx rect + 1) /\
  (forall x y,
     placement (mkCoords x y 200 200) 100 50
     = Ok (mkPlacement (S754_finite false (2 ^ 52) (-51)) 200 100 (x + 0) (y + 20)) /\
     placement (mkCoords x y 200 200) 50 100
     = Ok (mkPlacement (S754_finite false (2 ^ 52) (-51)) 100 200 (x + 50) (y + 20))).
Proof.
  intros Hfill Htrim.
  assert (1 <= width trimmed /\ 1 <= height trimmed) as Hsize.
  { destruct (get_trimmed_image_with_padding_spec filled 40 20 ltac:(lia) ltac:(lia))
      as (_ & _ & Hsome).
    destruct (Hsome trimmed Htrim)
      as (x1 & y1 & x2 & y2 & Hbb & Hcrop & Hx1 & Hx2 & Hy1 & Hy2).
    apply crop_inside in Hcrop as (_ & -> & -> & _).
    destruct Hbb as (Hin & (y & Hy & Hcy) & _ & (x & Hx & Hcx) & _).
    destruct (Hin _ _ Hy Hcy) as [? _]. destruct (Hin _ _ Hx Hcx) as [_ ?]. lia. }
  split; [done |]. split; [| split; [| split; [| split]]].
  - unfold process_image. by rewrite Hfill, bind_Ok, Htrim, bind_Ok.
  - intros Hw Hh Hdw Hdh. apply placement_total; lia.
  - intros pl. apply placement_spec.
  - intros pl (scale_w & scale_h & scaled_w & scaled_h & _ & _ & _ & _ & _ & _ & _
               & -> & _)%placement_spec.
    pose proof (Z.div_mod (cw rect - final_w pl) 2 ltac:(lia)).
    pose proof (Z.mod_pos_bound (cw rect - final_w pl) 2 ltac:(lia)). lia.
  - intros x y.
    assert (py_true_div 200 100 = Ok (S754_finite false (2 ^ 52) (-51))) as H2
      by (vm_compute; reflexivity).
    assert (py_true_div 200 50 = Ok (S754_finite false (2 ^ 52) (-50))) as H4
      by (vm_compute; reflexivity).
    assert (py_min (S754_finite false (2 ^ 52) (-51)) (S754_finite false (2 ^ 52) (-50))
            = S754_finite false (2 ^ 52) (-51)) as Hmin1 by (vm_compute; reflexivity).
    assert (py_min (S754_finite false (2 ^ 52) (-50)) (S754_finite false (2 ^ 52) (-51))
            = S754_finite false (2 ^ 52) (-51)) as Hmin2 by (vm_compute; reflexivity).
    assert (py_int_mul 100 (S754_finite false (2 ^ 52) (-51))
            = Ok (S754_finite false (200 * 2 ^ 45) (-45))) as Hw
      by (vm_compute; reflexivity).
    assert (py_int_mul 50 (S754_finite false (2 ^ 52) (-51))
            = Ok (S754_finite false (100 * 2 ^ 46) (-46))) as Hh
      by (vm_compute; reflexivity).
    assert (py_int (S754_finite false (200 * 2 ^ 45) (-45)) = Ok 200) as Hiw
      by (vm_compute; reflexivity).
    assert (py_int (S754_finite false (100 * 2 ^ 46) (-46)) = Ok 100) as Hih
      by (vm_compute; reflexivity).
    unfold placement. cbn [cx cy cw ch].
    split.
    + rewrite H2, bind_Ok, H4, bind_Ok, Hmin1, Hw, bind_Ok, Hiw, bind_Ok,
        Hh, bind_Ok, Hih, bind_Ok. reflexivity.
    + rewrite H4, bind_Ok, H2, bind_Ok, Hmin2, Hh, bind_Ok, Hih, bind_Ok,
        Hw, bind_Ok, Hiw, bind_Ok. reflexivity.
Qed.

Lemma scale_and_paste_witness :
  (1 <= width tall_trimmed /\ 1 <= height tall_trimmed) /\
  process_image (demo_world 1000) tall_design tall_base (Some (mkCoords 5 10 16 16)) None
  = (pl ← placement (mkCoords 5 10 16 16) (width tall_trimmed) (height tall_trimmed);
     resized_design ← pil_resize (demo_world 1000) tall_trimmed (final_w pl, final_h pl);
     px ← pil_paste (demo_world 1000) (copy tall_base) resized_design
            (final_x pl, final_y pl);
     out ← add_watermark (demo_world 1000) (with_pixels (copy tall_base) px) None;
     Ok (Some out)) /\
  (Z.abs (cw (mkCoords 5 10 16 16)) < 2 ^ 31 -> Z.abs (ch (mkCoords 5 10 16 16)) < 2 ^ 31 ->
   width tall_trimmed < 2 ^ 31 -> height tall_trimmed < 2 ^ 31 ->
   exists pl,
     placement (mkCoords 5 10 16 16) (width tall_trimmed) (height tall_trimmed) = Ok pl) /\
  (forall pl,
     placement (mkCoords 5 10 16 16) (width tall_trimmed) (height tall_trimmed) = Ok pl <->
     exists scale_w scale_h scaled_w scaled_h,
       py_true_div (cw (mkCoords 5 10 16 16)) (width tall_trimmed) = Ok scale_w /\
       py_true_div (ch (mkCoords 5 10 16 16)) (height tall_trimmed) = Ok scale_h /\
       smaller_of scale_w scale_h (scale pl) /\
       py_int_mul (width tall_trimmed) (scale pl) = Ok scaled_w /\
       py_int scaled_w = Ok (final_w pl) /\
       py_int_mul (height tall_trimmed) (scale pl) = Ok scaled_h /\
       py_int scaled_h = Ok (final_h pl) /\
       final_x pl = cx (mkCoords 5 10 16 16)
                    + (cw (mkCoords 5 10 16 16) - final_w pl) `div` 2 /\
       final_y pl = cy (mkCoords 5 10 16 16) + 20) /\
  (forall pl,
     placement (mkCoords 5 10 16 16) (width tall_trimmed) (height tall_trimmed) = Ok pl ->
     final_x pl - cx (mkCoords 5 10 16 16)
     <= cx (mkCoords 5 10 16 16) + cw (mkCoords 5 10 16 16) - (final_x pl + final_w pl)
     <= final_x pl - cx (mkCoords 5 10 16 16) + 1) /\
  (forall x y,
     placement (mkCoords x y 200 200) 100 50
     = Ok (mkPlacement (S754_finite false (2 ^ 52) (-51)) 200 100 (x + 0) (y + 20)) /\
     placement (mkCoords x y 200 200) 50 100
     = Ok (mkPlacement (S754_finite false (2 ^ 52) (-51)) 100 200 (x + 50) (y + 20))).
Proof.
  apply (scale_and_paste (demo_world 1000) tall_design tall_base (mkCoords 5 10 16 16)
           None tall_filled tall_trimmed).
  - vm_compute. reflexivity.
  - vm_compute. reflexivity.
Defined.

(** The design of the test world that is taller than wide: the flood fill
    clears the white around the bar, the trim keeps the whole 4 by 8 image,
    the height of the 16 by 16 rectangle limits the scale to 2.0, and the
    8 by 16 design is pasted 4 pixels from the left of the rectangle; the
    bar ends up black at (13, 40) on the white base. *)
Example placement_height_limited :
  width tall_trimmed = 4 /\ height tall_trimmed = 8 /\
  placement (mkCoords 5 10 16 16) 4 8
  = Ok (mkPlacement (S754_finite false (2 ^ 52) (-51)) 8 16 9 30) /\
  process_image (demo_world 1000) tall_design tall_base (Some (mkCoords 5 10 16 16)) None
  = Ok (Some tall_composite) /\
  size tall_composite = (40, 60) /\
  pixels tall_composite 13 40 = black /\ pixels tall_composite 9 30 = white.
Proof. repeat split; vm_compute; reflexivity. Qed.

(** A 90 by 50 design in a 300 by 200 rectangle: the width limits the scale,
    the design becomes 300 by 166 and is pasted flush left. *)
Example placement_width_limited :
  exists pl, placement (mkCoords 7 9 300 200) 90 50 = Ok pl /\
             final_w pl = 300 /\ final_h pl = 166 /\ final_x pl = 7 /\ final_y pl = 29.
Proof. eexists. split; [vm_compute; reflexivity |]. by repeat split. Qed.

(** The rounding of binary64 shows: 49 * (1 / 49) is below one. *)
Example placement_rounds_down :
  exists pl, placement (mkCoords 0 0 1 1) 49 49 = Ok pl /\
             final_w pl = 0 /\ final_h pl = 0.
Proof. eexists. split; [vm_compute; reflexivity |]. by split. Qed.

(** Integers beyond 2^53 are divided exactly and the quotient is rounded
    once, ties to even; a quotient or an integer beyond the largest float
    raises, and so does the division by zero. *)
Example py_true_div_beyond_2_53 :
  py_true_div (2 ^ 53 + 1) 1 = Ok (S754_finite false (2 ^ 52) 1) /\
  py_true_div (2 ^ 53 + 3) 1 = Ok (S754_finite false (2 ^ 52 + 2) 1) /\
  py_true_div (10 ^ 400) (10 ^ 399) = Ok (S754_finite false (5 * 2 ^ 50) (-49)) /\
  py_true_div 0 (-5) = Ok (S754_zero true) /\
  py_true_div (2 ^ 1024) 1 = Raise /\
  py_true_div 1 0 = Raise /\
  float_of_int (2 ^ 1024 - 1) = Raise /\
  py_int_mul (2 ^ 1024) (S754_finite false (2 ^ 52) (-52)) = Raise.
Proof. vm_compute. by repeat split. Qed.

(* ------------------------------------------------------------------ *)
(** ** The output encoding never succeeds

    [download_image] converts what it fetches to RGBA, the composite is drawn
    on a copy of a base image, and line 343 saves that composite, not the RGB
    conversion of line 342: the JPEG writer refuses it. *)

Lemma convert_mode m im : mode (convert m im) = m.
Proof. unfold convert. by destruct (mode im) eqn:Hm, m. Qed.

Lemma download_image_mode W url im :
  download_image W url = Some im -> mode im = RGBA.
Proof.
  unfold download_image. destruct url as [u|]; [| done].
  destruct (http_image W u); [| done]. intros [= <-]. apply convert_mode.
Qed.

Lemma add_watermark_mode W final_mockup watermark_content out :
  add_watermark W final_mockup watermark_content = Ok out ->
  mode out = mode final_mockup.
Proof.
  unfold add_watermark. destruct watermark_content as [[|c text]|]; try by intros [= <-].
  destruct (_ || _).
  - destruct (download_image W _) as [wm|]; [| by intros [= <-]].
    intros H. apply bind_Ok_inv in H as (wm' & _ & H).
    apply bind_Ok_inv in H as (px & _ & [= <-]). done.
  - intros H. apply bind_Ok_inv in H as ([[[bx0 by0] bx1] by1] & _ & H).
    apply bind_Ok_inv in H as (px & _ & [= <-]). done.
Qed.

Lemma process_image_mode W design_img mockup_img mockup_config watermark_text out :
  process_image W design_img mockup_img mockup_config watermark_text = Ok (Some out) ->
  mode out = mode mockup_img.
Proof.
  destruct mockup_config as [rect|].
  - intros (filled & trimmed & pl & resized & px & _ & _ & _ & _ & _ & Hwm)%process_image_Some.
    by apply add_watermark_mode in Hwm.
  - unfold process_image. intros H.
    apply bind_Ok_inv in H as (filled & _ & H).
    apply bind_Ok_inv in H as ([trimmed|] & _ & H); done.
Qed.

Lemma save_jpeg_RGBA encode im : mode im = RGBA -> save_jpeg encode im = Raise.
Proof. unfold save_jpeg. by intros ->. Qed.

Lemma cache_rgba_empty : cache_rgba ∅.
Proof. intros name data Hl. by rewrite lookup_empty in Hl. Qed.

Lemma cache_rgba_insert W cache name m_config :
  cache_rgba cache -> cache_rgba (<[name := load_mockup W m_config]> cache).
Proof.
  intros Hc name' data. rewrite lookup_insert. case_decide as Hn.
  - intros [= <-]. simpl. split; intros im; apply download_image_mode.
  - apply Hc.
Qed.

Lemma cache_on_demand_rgba W cfg name cache cache1 :
  cache_rgba cache -> cache_on_demand W cfg name cache = Some cache1 ->
  cache_rgba cache1.
Proof.
  unfold cache_on_demand. intros Hc.
  destruct (cache !! name); [by intros [= <-] |].
  destruct (mockup_sets cfg !! name); [| done].
  intros [= <-]. by apply cache_rgba_insert.
Qed.

(** A composite that reaches the encoder is refused. *)
Lemma render_mockup_images W cfg filename is_white cropped_img name data images :
  (forall im, md_white data = Some im -> mode im = RGBA) ->
  (forall im, md_black data = Some im -> mode im = RGBA) ->
  (render_mockup W cfg filename is_white cropped_img name data images).1 = images.
Proof.
  intros Hw Hb. unfold render_mockup.
  destruct (if is_white then md_white data else md_black data) as [mockup|] eqn:Hmock;
    [| done].
  assert (mode mockup = RGBA) as Hmode by (destruct is_white; auto).
  destruct (process_image W _ _ _ _) as [[final|]|] eqn:Hproc; [| done | done].
  destruct (derive_filename W _ _ _ _); [| done].
  apply process_image_mode in Hproc. rewrite Hmode in Hproc.
  by rewrite (save_jpeg_RGBA _ _ Hproc).
Qed.

(** The loop over the mockup sets leaves the bundle as it found it. *)
Lemma mockup_loop_images W cfg filename is_white cropped_img names images cache :
  cache_rgba cache ->
  (mockup_loop W cfg filename is_white cropped_img names images cache).1.1 = images /\
  cache_rgba (mockup_loop W cfg filename is_white cropped_img names images cache).1.2.
Proof.
  revert images cache. induction names as [|name names IH]; intros images cache Hc; [done |].
  cbn [mockup_loop].
  destruct (cache_on_demand W cfg name cache) as [cache1|] eqn:Hcache; [| by apply IH].
  apply cache_on_demand_rgba in Hcache; [| done].
  destruct (cache1 !! name) as [data|] eqn:Hdata; [| by apply IH].
  destruct (Hcache name data Hdata) as [Hw Hb].
  pose proof (render_mockup_images W cfg filename is_white cropped_img name data images Hw Hb)
    as Himg.
  destruct (render_mockup W cfg filename is_white cropped_img name data images)
    as [images1 r]. simpl in Himg. subst images1.
  destruct r; [by apply IH | done].
Qed.

Lemma url_pipeline_images W cfg rule url filename images cache :
  cache_rgba cache ->
  (url_pipeline W cfg rule url filename images cache).1.1 = images /\
  cache_rgba (url_pipeline W cfg rule url filename images cache).1.2.
Proof.
  intros Hc. unfold url_pipeline.
  destruct (download_image W (Some url)) as [img|]; [| done].
  destruct (coords rule) as [cc|]; [| done].
  destruct (getpixel img _ _) as [pixel|]; [| done].
  destruct (_ || _); [done |].
  destruct (crop img _) as [cropped|]; [| done].
  pose proof (mockup_loop_images W cfg filename (is_white_pixel pixel) cropped
                (mockup_sets_to_use rule) images cache Hc) as H.
  by destruct (mockup_loop _ _ _ _ _ _ _ _) as [[images' cache'] r].
Qed.

Lemma url_outcome_images W cfg rules url images cache :
  cache_rgba cache ->
  (url_outcome W cfg rules url images cache).1.1 = images /\
  cache_rgba (url_outcome W cfg rules url images cache).1.2.
Proof.
  intros Hc. unfold url_outcome.
  destruct (match_rule rules (basename url)) as [rule|]; [| done].
  case_bool_decide; [done |].
  pose proof (url_pipeline_images W cfg rule url (basename url) images cache Hc) as Hpipe.
  by destruct (url_pipeline _ _ _ _ _ _ _) as [[images' cache'] r].
Qed.

(* ------------------------------------------------------------------ *)
(** ** Bookkeeping of the URL loop *)

(** One URL moves exactly one counter by one, and is recorded as successful
    exactly when it moves [processed_count]. *)
Lemma process_url_counts W cfg rules st url :
  (url_outcome W cfg rules url (dr_images st) (mockup_cache st)).2 = Processed /\
  processed_count (process_url W cfg rules st url) = processed_count st + 1 /\
  skipped_count (process_url W cfg rules st url) = skipped_count st /\
  successfully_processed_this_run (process_url W cfg rules st url)
  = successfully_processed_this_run st ++ [url]
  \/
  (url_outcome W cfg rules url (dr_images st) (mockup_cache st)).2 <> Processed /\
  processed_count (process_url W cfg rules st url) = processed_count st /\
  skipped_count (process_url W cfg rules st url) = skipped_count st + 1 /\
  successfully_processed_this_run (process_url W cfg rules st url)
  = successfully_processed_this_run st.
Proof.
  unfold process_url.
  destruct (url_outcome W cfg rules url (dr_images st) (mockup_cache st))
    as [[images' cache'] o].
  destruct o; simpl; (by left) || (by right).
Qed.

Lemma process_url_images W cfg rules st url :
  cache_rgba (mockup_cache st) ->
  dr_images (process_url W cfg rules st url) = dr_images st /\
  cache_rgba (mockup_cache (process_url W cfg rules st url)).
Proof.
  intros Hc. unfold process_url.
  pose proof (url_outcome_images W cfg rules url (dr_images st) (mockup_cache st) Hc) as H.
  destruct (url_outcome _ _ _ _ _ _) as [[images' cache'] o].
  by destruct o.
Qed.

Lemma url_loop_app W cfg rules pre post st :
  url_loop W cfg rules (pre ++ post) st
  = url_loop W cfg rules post (url_loop W cfg rules pre st).
Proof. unfold url_loop. apply foldl_app. Qed.

Lemma url_loop_cons W cfg rules url rest st :
  url_loop W cfg rules (url :: rest) st
  = url_loop W cfg rules rest (process_url W cfg rules st url).
Proof. done. Qed.

Lemma url_loop_counts W cfg rules urls st :
  processed_count (url_loop W cfg rules urls st)
  + skipped_count (url_loop W cfg rules urls st)
  = processed_count st + skipped_count st + Z.of_nat (length urls).
Proof.
  revert st. induction urls as [|url urls IH]; intros st; [simpl; lia |].
  rewrite url_loop_cons, IH.
  destruct (process_url_counts W cfg rules st url)
    as [(_ & -> & -> & _) | (_ & -> & -> & _)]; simpl; lia.
Qed.

Lemma url_loop_successes W cfg rules urls st :
  exists succ,
    successfully_processed_this_run (url_loop W cfg rules urls st)
    = successfully_processed_this_run st ++ succ /\
    succ `sublist_of` urls /\
    Z.of_nat (length succ) = processed_count (url_loop W cfg rules urls st) - processed_count st.
Proof.
  revert st. induction urls as [|url urls IH]; intros st.
  - exists []. simpl. rewrite app_nil_r. split; [done |]. split; [done | lia].
  - rewrite url_loop_cons.
    destruct (IH (process_url W cfg rules st url)) as (succ & -> & Hsub & Hlen).
    destruct (process_url_counts W cfg rules st url)
      as [(_ & Hp & _ & ->) | (_ & Hp & _ & ->)].
    + exists (url :: succ). rewrite <- app_assoc. split; [done |].
      split; [by apply sublist_skip |]. simpl length. lia.
    + exists succ. split; [done |]. split; [by apply sublist_cons | lia].
Qed.

Lemma url_loop_images W cfg rules urls st :
  cache_rgba (mockup_cache st) ->
  dr_images (url_loop W cfg rules urls st) = dr_images st.
Proof.
  revert st. induction urls as [|url urls IH]; intros st Hc; [done |].
  rewrite url_loop_cons.
  destruct (process_url_images W cfg rules st url Hc) as [Himg Hc'].
  by rewrite IH.
Qed.

(* ------------------------------------------------------------------ *)
(** ** The domain loop *)

(** What a domain that is not cut short does to the state. *)
Lemma process_domain_Continue W cfg domain rules st st' :
  process_domain W cfg domain rules st = Ok (Continue st') ->
  repo_bytes W domain < MAX_REPO_SIZE_BYTES /\
  exists srs, sort_rules rules = Ok srs /\
    (st' = st \/
     exists all_urls, fetch_url_list W domain = Ok all_urls /\
       exists run,
         run = url_loop W cfg srs
                 (compute_window all_urls (default [] (processed_log st !! domain))
                    (max_urls_per_domain cfg))
                 (fresh_run st) /\
         compute_window all_urls (default [] (processed_log st !! domain))
           (max_urls_per_domain cfg) <> [] /\
         images_for_zip st' = dr_images run /\
         urls_summary st'
         = <[domain := mkSummary (processed_count run) (skipped_count run)
                         (Z.of_nat (length (compute_window all_urls
                            (default [] (processed_log st !! domain))
                            (max_urls_per_domain cfg))))]> (urls_summary st) /\
         (successfully_processed_this_run run = [] /\ processed_log st' = processed_log st
          \/
          successfully_processed_this_run run <> [] /\
          processed_log st'
          = <[domain := update_history (successfully_processed_this_run run)
                          (default [] (processed_log st !! domain))
                          (history_to_keep cfg)]> (processed_log st))).
Proof.
  unfold process_domain.
  destruct (Z.leb_spec MAX_REPO_SIZE_BYTES (repo_bytes W domain)) as [Hge | Hlt]; [done |].
  intros H. split; [done |].
  apply bind_Ok_inv in H as (srs & Hsort & H). exists srs. split; [done |].
  destruct (fetch_url_list W domain) as [all_urls|]; [| left; congruence].
  destruct (compute_window _ _ _) as [|u window] eqn:Hwin; [left; congruence |].
  right. exists all_urls. split; [done |]. rewrite Hwin.
  match type of H with
  | Ok (Continue ?X) = _ => assert (st' = X) as -> by congruence
  end.
  clear H. cbn [images_for_zip urls_summary processed_log]. fold (fresh_run st).
  eexists. split; [done |]. split; [done |]. split; [done |]. split; [done |].
  destruct (successfully_processed_this_run _); [by left | by right].
Qed.

(** A domain is cut short exactly when the repository has reached the
    ceiling. *)
Lemma process_domain_Break W cfg domain rules st :
  process_domain W cfg domain rules st = Ok Break <->
  MAX_REPO_SIZE_BYTES <= repo_bytes W domain.
Proof.
  unfold process_domain.
  destruct (Z.leb_spec MAX_REPO_SIZE_BYTES (repo_bytes W domain)) as [Hge | Hlt]; [done |].
  split; [| lia]. intros H. apply bind_Ok_inv in H as (srs & _ & H).
  destruct (fetch_url_list W domain); [| done].
  by destruct (compute_window _ _ _).
Qed.

(** Below the ceiling a domain ends the run only through a rule without a
    pattern. *)
Lemma process_domain_Raise W cfg domain rules st :
  process_domain W cfg domain rules st = Raise <->
  repo_bytes W domain < MAX_REPO_SIZE_BYTES /\ sort_rules rules = Raise.
Proof.
  unfold process_domain.
  destruct (Z.leb_spec MAX_REPO_SIZE_BYTES (repo_bytes W domain)) as [Hge | Hlt].
  - split; [done | lia].
  - destruct (sort_rules rules) as [srs|]; simpl.
    + split; [| by intros [_ ?]].
      destruct (fetch_url_list W domain); [| done].
      by destruct (compute_window _ _ _).
    + done.
Qed.

Lemma sort_rules_Raise rules :
  sort_rules rules = Raise <-> exists r, r ∈ rules /\ pattern r = None.
Proof.
  rewrite <- decorate_Raise. unfold sort_rules.
  by destruct (decorate rules).
Qed.

(** A domain touches the entries of no other domain and adds no image. *)
Lemma process_domain_frame W cfg domain rules st st' :
  process_domain W cfg domain rules st = Ok (Continue st') ->
  images_for_zip st' = images_for_zip st /\
  forall d, d <> domain ->
    processed_log st' !! d = processed_log st !! d /\
    urls_summary st' !! d = urls_summary st !! d.
Proof.
  intros (_ & srs & _ & [-> | H])%process_domain_Continue; [done |].
  destruct H as (all_urls & _ & run & Hrun & _ & Himg & Hsum & Hlog).
  split.
  - rewrite Himg, Hrun. apply url_loop_images. apply cache_rgba_empty.
  - intros d Hd. rewrite Hsum, lookup_insert_ne by done. split; [| done].
    destruct Hlog as [[_ ->] | [_ ->]]; [done |]. by rewrite lookup_insert_ne.
Qed.

Lemma domain_loop_frame W cfg ds st st' :
  domain_loop W cfg ds st = Ok st' ->
  images_for_zip st' = images_for_zip st /\
  forall d, d ∉ ds.*1 ->
    processed_log st' !! d = processed_log st !! d /\
    urls_summary st' !! d = urls_summary st !! d.
Proof.
  revert st. induction ds as [|[domain rules] ds IH]; intros st; cbn [domain_loop].
  - by intros [= <-].
  - intros H. apply bind_Ok_inv in H as ([|st1] & Hstep & H).
    + by injection H as <-.
    + apply process_domain_frame in Hstep as [Himg Hframe].
      apply IH in H as [Himg' Hframe']. split; [congruence |].
      intros d Hd. rewrite fmap_cons, not_elem_of_cons in Hd. destruct Hd as [Hne Hd].
      simpl in Hne.
      destruct (Hframe d Hne) as [<- <-]. by apply (Hframe' d).
Qed.

Lemma domain_loop_summary W cfg ds st st' :
  domain_loop W cfg ds st = Ok st' ->
  (forall d s, urls_summary st !! d = Some s -> summary_adds_up s) ->
  forall d s, urls_summary st' !! d = Some s -> summary_adds_up s.
Proof.
  revert st. induction ds as [|[domain rules] ds IH]; intros st; cbn [domain_loop].
  - by intros [= <-].
  - intros H Hinv. apply bind_Ok_inv in H as ([|st1] & Hstep & H).
    + by injection H as <-.
    + apply (IH st1); [done |].
      apply process_domain_Continue in Hstep as (_ & srs & _ & [-> | Hstep]); [done |].
      destruct Hstep as (all_urls & _ & run & Hrun & _ & _ & Hsum & _).
      intros d s. rewrite Hsum, lookup_insert. case_decide; [| by apply Hinv].
      intros [= <-]. unfold summary_adds_up. simpl.
      rewrite Hrun, url_loop_counts. simpl. lia.
Qed.

(** The loop stops at a domain that finds the ceiling reached. *)
Lemma domain_loop_break W cfg pre domain rules post st :
  MAX_REPO_SIZE_BYTES <= repo_bytes W domain ->
  domain_loop W cfg (pre ++ (domain, rules) :: post) st = domain_loop W cfg pre st.
Proof.
  intros Hsize. revert st. induction pre as [|[d rs] pre IH]; intros st.
  - cbn [app domain_loop]. by rewrite (proj2 (process_domain_Break W cfg domain rules st)).
  - cbn [app domain_loop]. destruct (process_domain W cfg d rs st) as [[|st1]|]; try done.
    rewrite !bind_Ok. apply IH.
Qed.
(* ------------------------------------------------------------------ *)
(** ** History retention *)

(** C4. History retention.  A domain below the ceiling whose rules sort and
    whose URL list is fetched always ends its turn with a state; let [succ]
    be the URLs of its window that the URL loop processed successfully, in
    the order of the window.  When there is none, the history is left as it
    was.  When there is one, the entry of the domain is replaced, and with a
    non-negative [history_to_keep] the list stored for the domain has at
    most [history_to_keep] URLs and consists of the URLs of [succ], in their
    order, followed by the previously stored ones, cut to [history_to_keep]:
    every URL kept from this run comes before every URL kept from before,
    and all URLs of this run are kept when there are at most
    [history_to_keep] of them. *)
Theorem history_retention (W : World) (cfg : Config) (domain : string)
    (rules srs : list Rule) (all_urls previous window succ : list string)
    (st : RunState) :
  0 <= history_to_keep cfg ->
  repo_bytes W domain < MAX_REPO_SIZE_BYTES ->
  sort_rules rules = Ok srs ->
  fetch_url_list W domain = Ok all_urls ->
  previous = default [] (processed_log st !! domain) ->
  window = compute_window all_urls previous (max_urls_per_domain cfg) ->
  succ = successfully_processed_this_run (url_loop W cfg srs window (fresh_run st)) ->
  exists st',
    process_domain W cfg domain rules st = Ok (Continue st') /\
    succ `sublist_of` window /\
    (succ = [] -> processed_log st' = processed_log st) /\
    (succ <> [] ->
     exists stored,
       processed_log st' = <[domain := stored]> (processed_log st) /\
       Z.of_nat (length stored) <= history_to_keep cfg /\
       stored = take (Z.to_nat (history_to_keep cfg)) succ
                ++ take (Z.to_nat (history_to_keep cfg) - length succ) previous /\
       (Z.of_nat (length succ) <= history_to_keep cfg ->
        stored = succ ++ take (Z.to_nat (history_to_keep cfg) - length succ) previous)).
Proof.
  intros Hkeep Hsize Hsort Hfetch Hprev Hwin Hsucc.
  assert (succ `sublist_of` window) as Hsub.
  { destruct (url_loop_successes W cfg srs window (fresh_run st)) as (s & Heq & Hs & _).
    simpl in Heq. by rewrite Hsucc, Heq. }
  unfold process_domain.
  destruct (Z.leb_spec MAX_REPO_SIZE_BYTES (repo_bytes W domain)) as [|_]; [lia |].
  rewrite Hsort, bind_Ok, Hfetch, <- Hprev, <- Hwin.
  destruct window as [|url rest] eqn:Hw.
  - exists st. split; [done |]. split; [done |]. simpl in Hsucc. by split.
  - rewrite <- Hw in *. change (mkDomainRun (images_for_zip st) ∅ 0 0 []) with (fresh_run st).
    rewrite <- Hsucc. destruct succ as [|u succ'] eqn:Hs.
    + eexists. split; [reflexivity |]. split; [done |]. by split.
    + rewrite <- Hs in *. eexists. split; [reflexivity |]. split; [done |].
      split; [by rewrite Hs |]. intros _. cbn [processed_log].
      destruct (update_history_spec succ previous (history_to_keep cfg) Hkeep)
        as [Hlen Hstored].
      eexists. split; [reflexivity |]. split; [exact Hlen |]. split; [exact Hstored |].
      intros Hall. rewrite Hstored at 1. by rewrite take_ge by lia.
Qed.

Lemma history_retention_witness :
  exists st',
    process_domain (demo_world 1000) demo_config "blog" [blog_rule] blog_state
    = Ok (Continue st') /\
    [post_one; post_two] `sublist_of` [post_one; post_two] /\
    ([post_one; post_two] = [] -> processed_log st' = processed_log blog_state) /\
    ([post_one; post_two] <> [] ->
     exists stored,
       processed_log st' = <["blog"%string := stored]> (processed_log blog_state) /\
       Z.of_nat (length stored) <= history_to_keep demo_config /\
       stored = take (Z.to_nat (history_to_keep demo_config)) [post_one; post_two]
                ++ take (Z.to_nat (history_to_keep demo_config)
                         - length [post_one; post_two])
                     ["https://img.example/b/post-zero.png"%string;
                      "https://img.example/b/post-old.png"%string] /\
       (Z.of_nat (length [post_one; post_two]) <= history_to_keep demo_config ->
        stored = [post_one; post_two]
                 ++ take (Z.to_nat (history_to_keep demo_config)
                          - length [post_one; post_two])
                      ["https://img.example/b/post-zero.png"%string;
                       "https://img.example/b/post-old.png"%string])).
Proof.
  apply (history_retention (demo_world 1000) demo_config "blog" [blog_rule] [blog_rule]
           [post_one; post_two]
           ["https://img.example/b/post-zero.png"%string;
            "https://img.example/b/post-old.png"%string]
           [post_one; post_two] [post_one; post_two] blog_state).
  - simpl. lia.
  - vm_compute. reflexivity.
  - vm_compute. reflexivity.
  - vm_compute. reflexivity.
  - vm_compute. reflexivity.
  - vm_compute. reflexivity.
  - vm_compute. reflexivity.
Defined.

(** The domain "blog" of the test world: two new URLs go before the two
    stored ones, and three are kept. *)
Example blog_history_example :
  processed_log blog_state_after !! "blog"%string
  = Some [post_one; post_two; "https://img.example/b/post-zero.png"%string].
Proof. vm_compute. reflexivity. Qed.

(* ------------------------------------------------------------------ *)
(** ** Fault isolation *)

(** Where the exceptions of the pipeline come from. *)
Lemma url_pipeline_raises W cfg rule url filename images cache img cc :
  download_image W (Some url) = Some img -> coords rule = Some cc ->
  (getpixel img (cx cc) (cy cc) = Raise ->
   (url_pipeline W cfg rule url filename images cache).2 = Raise) /\
  (forall pixel, getpixel img (cx cc) (cy cc) = Ok pixel ->
     (skipWhite rule && is_white_pixel pixel)
     || (skipBlack rule && negb (is_white_pixel pixel)) = false ->
     (crop img (cx cc, cy cc, cx cc + cw cc, cy cc + ch cc) = Raise ->
      (url_pipeline W cfg rule url filename images cache).2 = Raise) /\
     (forall cropped,
        crop img (cx cc, cy cc, cx cc + cw cc, cy cc + ch cc) = Ok cropped ->
        (mockup_loop W cfg filename (is_white_pixel pixel) cropped
           (mockup_sets_to_use rule) images cache).2 = Raise ->
        (url_pipeline W cfg rule url filename images cache).2 = Raise)).
Proof.
  intros Himg Hcc. unfold url_pipeline. rewrite Himg, Hcc. split.
  - by intros ->.
  - intros pixel -> ->. split.
    + by intros ->.
    + intros cropped ->.
      destruct (mockup_loop _ _ _ _ _ _ _ _) as [[images' cache'] r]. simpl.
      by intros ->.
Qed.

(** Compositing and encoding: an exception of [process_image], of the file
    name or of the encoder ends the turn of the loop with that exception. *)
Lemma render_mockup_raises W cfg filename (is_white : bool) cropped_img name data images
    mockup_img :
  (if is_white then md_white data else md_black data) = Some mockup_img ->
  (process_image W (copy cropped_img) mockup_img (md_coords data)
     (md_watermark_text data) = Raise ->
   render_mockup W cfg filename is_white cropped_img name data images = (images, Raise)) /\
  (forall final_mockup,
     process_image W (copy cropped_img) mockup_img (md_coords data)
       (md_watermark_text data) = Ok (Some final_mockup) ->
     (derive_filename W filename (title_clean_keywords cfg)
        (md_title_prefix_to_add data) (md_title_suffix_to_add data) = Raise \/
      save_jpeg (jpeg_encode W) final_mockup = Raise) ->
     render_mockup W cfg filename is_white cropped_img name data images = (images, Raise)).
Proof.
  intros Hm. unfold render_mockup. rewrite Hm. split.
  - by intros ->.
  - intros final -> [-> | Hsave]; [done |].
    destruct (derive_filename W _ _ _ _); [| done]. by rewrite Hsave.
Qed.

(** C8. Per-URL fault isolation.  For every world, whatever raises inside
    the pipeline of a URL, the iteration of the URL ends normally: an
    exception of the pipeline, or a failed download, adds one to
    [skipped_count] and leaves [processed_count] and the list of successes
    alone; the loop goes on with the URLs that follow, so that after a window
    the two counters have grown by the length of the window; and a domain
    whose rules all have a pattern and that starts below the ceiling hands
    the run on to the domains that follow, without touching the summary of
    any other domain. *)
Theorem per_url_fault_isolation (W : World) (cfg : Config) (rules : list Rule)
    (st : DomainRun) (url : string) :
  (forall rule,
     match_rule rules (basename url) = Some rule ->
     action rule <> Some "skip"%string ->
     (url_pipeline W cfg rule url (basename url) (dr_images st) (mockup_cache st)).2 = Raise \/
     http_image W url = Raise ->
     processed_count (process_url W cfg rules st url) = processed_count st /\
     skipped_count (process_url W cfg rules st url) = skipped_count st + 1 /\
     successfully_processed_this_run (process_url W cfg rules st url)
     = successfully_processed_this_run st) /\
  (forall pre post st0,
     url_loop W cfg rules (pre ++ url :: post) st0
     = url_loop W cfg rules post
         (process_url W cfg rules (url_loop W cfg rules pre st0) url)) /\
  (forall urls st0,
     processed_count (url_loop W cfg rules urls st0)
     + skipped_count (url_loop W cfg rules urls st0)
     = processed_count st0 + skipped_count st0 + Z.of_nat (length urls)) /\
  (forall domain rest (gst : RunState),
     repo_bytes W domain < MAX_REPO_SIZE_BYTES ->
     (forall r, r ∈ rules -> pattern r <> None) ->
     exists gst',
       process_domain W cfg domain rules gst = Ok (Continue gst') /\
       domain_loop W cfg ((domain, rules) :: rest) gst = domain_loop W cfg rest gst' /\
       forall d, d <> domain -> urls_summary gst' !! d = urls_summary gst !! d).
Proof.
  split; [| split; [| split]].
  - intros rule Hrule Hact Hraise.
    assert ((url_outcome W cfg rules url (dr_images st) (mockup_cache st)).2 <> Processed)
      as Hout.
    { unfold url_outcome. rewrite Hrule. rewrite bool_decide_eq_false_2 by done.
      destruct Hraise as [Hraise | Hhttp].
      - destruct (url_pipeline _ _ _ _ _ _ _) as [[images' cache'] r]. simpl in *.
        by subst r.
      - unfold url_pipeline, download_image. by rewrite Hhttp. }
    destruct (process_url_counts W cfg rules st url) as [[Hp _] | (_ & Hp & Hs & Hl)];
      [done | done].
  - intros pre post st0. by rewrite url_loop_app, url_loop_cons.
  - apply url_loop_counts.
  - intros domain rest gst Hsize Hpat.
    destruct (process_domain W cfg domain rules gst) as [[|gst']|] eqn:Hstep.
    + apply process_domain_Break in Hstep. lia.
    + exists gst'. split; [done |]. split.
      * cbn [domain_loop]. by rewrite Hstep.
      * intros d Hd. by apply (process_domain_frame _ _ _ _ _ _ Hstep).
    + apply process_domain_Raise in Hstep as [_ (r & Hr & Hnone)%sort_rules_Raise].
      by destruct (Hpat r Hr).
Qed.

Lemma per_url_fault_isolation_witness :
  processed_count (process_url (demo_world 1000) shop_config [shop_rule]
                     (fresh_run empty_state) url_one) = 0 /\
  skipped_count (process_url (demo_world 1000) shop_config [shop_rule]
                   (fresh_run empty_state) url_one) = 0 + 1 /\
  successfully_processed_this_run
    (process_url (demo_world 1000) shop_config [shop_rule] (fresh_run empty_state) url_one)
  = [].
Proof.
  apply (proj1 (per_url_fault_isolation (demo_world 1000) shop_config [shop_rule]
                  (fresh_run empty_state) url_one) shop_rule).
  - reflexivity.
  - discriminate.
  - left. vm_compute. reflexivity.
Defined.

(* ------------------------------------------------------------------ *)
(** ** Circuit breaker *)

(** C9. Circuit breaker.  The size of the repository is the first thing a
    domain looks at, and the ceiling is 900 megabytes.  When a domain finds
    the ceiling reached, the loop ends there: the run is the run of the
    domains before it, and the history and the summary of that domain and of
    the domains after it are those the run started with.  Below the ceiling
    a domain never ends the loop. *)
Theorem circuit_breaker (W : World) (cfg : Config)
    (pre : list (string * list Rule)) (domain : string) (rules : list Rule)
    (post : list (string * list Rule)) (st : RunState) :
  MAX_REPO_SIZE_BYTES <= repo_bytes W domain ->
  MAX_REPO_SIZE_BYTES = 900 * (1024 * 1024) /\
  (forall st1, process_domain W cfg domain rules st1 = Ok Break) /\
  domain_loop W cfg (pre ++ (domain, rules) :: post) st = domain_loop W cfg pre st /\
  (forall st', domain_loop W cfg (pre ++ (domain, rules) :: post) st = Ok st' ->
     images_for_zip st' = images_for_zip st /\
     forall d, d ∈ domain :: post.*1 -> d ∉ pre.*1 ->
       processed_log st' !! d = processed_log st !! d /\
       urls_summary st' !! d = urls_summary st !! d) /\
  (forall d rs st1, repo_bytes W d < MAX_REPO_SIZE_BYTES ->
     process_domain W cfg d rs st1 <> Ok Break).
Proof.
  intros Hsize. split; [done |].
  split; [intros st1; by apply process_domain_Break |].
  split; [by apply domain_loop_break |].
  split.
  - intros st'. rewrite domain_loop_break by done.
    intros [Himg Hframe]%domain_loop_frame. split; [done |].
    intros d _ Hd. by apply Hframe.
  - intros d rs st1 Hlt Hbreak%process_domain_Break. lia.
Qed.

Lemma circuit_breaker_witness :
  domain_loop (demo_world (900 * 1048576)) demo_config
    ([] ++ ("shop"%string, [shop_rule]) :: [("blog"%string, [blog_rule])]) blog_state
  = domain_loop (demo_world (900 * 1048576)) demo_config [] blog_state.
Proof.
  apply (circuit_breaker (demo_world (900 * 1048576)) demo_config []
           "shop" [shop_rule] [("blog"%string, [blog_rule])] blog_state).
  vm_compute. discriminate.
Defined.

(** In the test world a repository of 900 megabytes stops the run before the
    first domain, and one byte less lets both domains run. *)
Example demo_ceiling_reached :
  main (demo_world (900 * 1048576)) demo_config (processed_log blog_state)
  = Ok (mkRunReport [] (processed_log blog_state) ∅) /\
  (exists report,
     main (demo_world (900 * 1048576 - 1)) demo_config (processed_log blog_state)
     = Ok report /\
     summary_log report !! "shop"%string = Some (mkSummary 0 2 2) /\
     summary_log report !! "blog"%string = Some (mkSummary 2 0 2)).
Proof.
  split; [vm_compute; reflexivity |].
  eexists. split; [vm_compute; reflexivity |]. split; vm_compute; reflexivity.
Qed.

(* ------------------------------------------------------------------ *)
(** ** Counters *)

Lemma process_domain_summary W cfg domain rules st st' srs all_urls :
  process_domain W cfg domain rules st = Ok (Continue st') ->
  sort_rules rules = Ok srs -> fetch_url_list W domain = Ok all_urls ->
  compute_window all_urls (default [] (processed_log st !! domain))
    (max_urls_per_domain cfg) <> [] ->
  urls_summary st' !! domain
  = Some (mkSummary
            (processed_count
               (url_loop W cfg srs
                  (compute_window all_urls (default [] (processed_log st !! domain))
                     (max_urls_per_domain cfg)) (fresh_run st)))
            (skipped_count
               (url_loop W cfg srs
                  (compute_window all_urls (default [] (processed_log st !! domain))
                     (max_urls_per_domain cfg)) (fresh_run st)))
            (Z.of_nat (length
               (compute_window all_urls (default [] (processed_log st !! domain))
                  (max_urls_per_domain cfg))))).
Proof.
  unfold process_domain.
  destruct (Z.leb_spec MAX_REPO_SIZE_BYTES (repo_bytes W domain)) as [Hge | Hlt]; [done |].
  intros H Hsort Hfetch Hwin. rewrite Hsort, bind_Ok, Hfetch in H.
  destruct (compute_window _ _ _) as [|u window]; [done |].
  match type of H with
  | Ok (Continue ?X) = _ => assert (st' = X) as -> by congruence
  end.
  cbn [urls_summary]. by rewrite lookup_insert_eq.
Qed.

(** C10. Counter invariant.  In the summary a run records, the processed and
    the skipped URLs of every domain add up to its [total_to_process].  A
    domain whose rules sort, whose fetch succeeds and whose window is not
    empty records a summary whose [total_to_process] is the length of the
    window and whose two counters add up to it, because every URL of the
    window adds one to exactly one of the two counters. *)
Theorem counters_add_up (W : World) (cfg : Config)
    (log : gmap string (list string)) (report : RunReport) :
  main W cfg log = Ok report ->
  (forall domain s, summary_log report !! domain = Some s ->
     processed s + skipped s = total_to_process s) /\
  (forall domain rules st st' srs all_urls,
     process_domain W cfg domain rules st = Ok (Continue st') ->
     sort_rules rules = Ok srs -> fetch_url_list W domain = Ok all_urls ->
     compute_window all_urls (default [] (processed_log st !! domain))
       (max_urls_per_domain cfg) <> [] ->
     exists s, urls_summary st' !! domain = Some s /\
       total_to_process s
       = Z.of_nat (length (compute_window all_urls
                             (default [] (processed_log st !! domain))
                             (max_urls_per_domain cfg))) /\
       processed s + skipped s = total_to_process s) /\
  (forall rules st url,
     processed_count (process_url W cfg rules st url) = processed_count st + 1 /\
     skipped_count (process_url W cfg rules st url) = skipped_count st
     \/
     processed_count (process_url W cfg rules st url) = processed_count st /\
     skipped_count (process_url W cfg rules st url) = skipped_count st + 1).
Proof.
  intros Hmain. split; [| split].
  - unfold main in Hmain. apply bind_Ok_inv in Hmain as (st & Hloop & [= <-]).
    cbn [summary_log]. intros domain s Hs.
    apply (domain_loop_summary _ _ _ _ _ Hloop) in Hs; [done |].
    intros d s' Hd. cbn [urls_summary] in Hd. by rewrite lookup_empty in Hd.
  - intros domain rules st st' srs all_urls Hstep Hsort Hfetch Hwin.
    eexists. split; [by eapply process_domain_summary |].
    cbn [total_to_process processed skipped]. split; [done |].
    rewrite url_loop_counts. simpl. lia.
  - intros rules st url.
    destruct (process_url_counts W cfg rules st url)
      as [(_ & Hp & Hs & _) | (_ & Hp & Hs & _)]; [by left | by right].
Qed.

Lemma demo_run : main (demo_world 1000) demo_config ∅ = Ok demo_report.
Proof. vm_compute. reflexivity. Qed.

Lemma demo_report_shop : summary_log demo_report !! "shop"%string = Some (mkSummary 0 2 2).
Proof. vm_compute. reflexivity. Qed.

Lemma counters_add_up_witness :
  processed (mkSummary 0 2 2) + skipped (mkSummary 0 2 2)
  = total_to_process (mkSummary 0 2 2).
Proof.
  exact (proj1 (counters_add_up (demo_world 1000) demo_config ∅ demo_report demo_run)
           "shop"%string (mkSummary 0 2 2) demo_report_shop).
Defined.

(* ------------------------------------------------------------------ *)
(** ** End to end *)

(** No run writes an archive: the bundle is empty when the domain loop ends. *)
Lemma main_writes_no_archive W cfg log report :
  main W cfg log = Ok report -> archives report = [].
Proof.
  unfold main. intros (st & Hloop & [= <-])%bind_Ok_inv. cbn [archives].
  apply domain_loop_frame in Hloop as [-> _]. done.
Qed.

(** C1. End to end, at the run the design document describes: one domain with
    [max_urls_per_domain = 2] and no history, two fetched URLs that both match
    a rule with crop coordinates and pass the brightness checks, and a mockup
    set "A" whose base images load.  For both URLs [process_image] returns a
    composite, and the encoder refuses the composite; the run writes no
    archive, saves an empty history and reports both URLs as skipped. *)
Theorem end_to_end_two_urls :
  max_urls_per_domain shop_config = 2 /\
  fetch_url_list (demo_world 1000) "shop" = Ok [url_one; url_two] /\
  mockup_sets shop_config !! "A"%string = Some mockup_set_A /\
  mockup_sets_to_use shop_rule = ["A"%string] /\
  match_rule [shop_rule] (basename url_one) = Some shop_rule /\
  match_rule [shop_rule] (basename url_two) = Some shop_rule /\
  refused_at_encoder (demo_world 1000) url_one shop_rule mockup_set_A /\
  refused_at_encoder (demo_world 1000) url_two shop_rule mockup_set_A /\
  main (demo_world 1000) shop_config ∅
  = Ok (mkRunReport [] ∅ {[ "shop"%string := mkSummary 0 2 2 ]}).
Proof.
  do 6 (split; [reflexivity |]).
  split; [vm_compute; by repeat split |].
  split; [vm_compute; by repeat split |].
  vm_compute. reflexivity.
Qed.

(* ================================================================== *)
(** * Further properties of the code *)

(** ** Rule matcher: the rule in terms of the configured order *)

Lemma find_filter_first (f g : Rule -> bool) l1 r l2 :
  (forall r', r' ∈ l1 -> f r' = false) -> f r = true -> g r = true ->
  List.find f (List.filter g (l1 ++ r :: l2)) = Some r.
Proof.
  intros Hl1 Hf Hg. induction l1 as [|a l1 IH]; cbn [app List.filter].
  - rewrite Hg. cbn [List.find]. by rewrite Hf.
  - destruct (g a); cbn [List.find].
    + rewrite Hl1 by (by left). apply IH. intros r' Hr'. apply Hl1. by right.
    + apply IH. intros r' Hr'. apply Hl1. by right.
Qed.

Lemma find_Some_matches (f : Rule -> bool) l r : List.find f l = Some r -> f r = true /\ r ∈ l.
Proof.
  induction l as [|a l IH]; [done |]. cbn [List.find].
  destruct (f a) eqn:Ha.
  - intros [= <-]. split; [done | by left].
  - intros [Hr Hin]%IH. split; [done | by right].
Qed.

Lemma sorted_match_longest rs srs filename r r' :
  sort_rules rs = Ok srs -> match_rule srs filename = Some r ->
  r' ∈ rs -> rule_matches filename r' = true -> (pat_len r' <= pat_len r)%nat.
Proof.
  intros Hsort Hm Hr' Hmatch.
  pose proof (sort_rules_perm _ _ Hsort) as Hperm.
  pose proof (sort_rules_sorted _ _ Hsort) as Hsorted.
  apply match_rule_Some in Hm as (l1 & l2 & -> & Hr & Hl1).
  rewrite <- Hperm in Hr'. apply elem_of_app in Hr' as [Hr' | Hr'].
  - rewrite Hl1 in Hmatch; done.
  - apply elem_of_cons in Hr' as [-> | Hr']; [done |].
    clear Hl1 Hperm Hsort. induction l1 as [|a l1 IH]; simpl in Hsorted.
    + apply StronglySorted_inv in Hsorted as [_ Hall].
      rewrite Forall_forall in Hall. by apply Hall.
    + apply StronglySorted_inv in Hsorted as [Hs _]. by apply IH.
Qed.

(** X1. The rule selected for a file name is, among the rules whose pattern occurs
    in the name, one of the greatest pattern length, and among those of that
    length the first of the list as configured; these three conditions single
    it out. *)
Theorem match_rule_configured_order (rs srs : list Rule) (filename : string) (r : Rule) :
  sort_rules rs = Ok srs ->
  (match_rule srs filename = Some r <->
   rule_matches filename r = true /\
   (forall r', r' ∈ rs -> rule_matches filename r' = true ->
               (pat_len r' <= pat_len r)%nat) /\
   List.find (rule_matches filename)
     (List.filter (fun x => Nat.eqb (pat_len x) (pat_len r)) rs) = Some r).
Proof.
  intros Hsort.
  assert (forall r0, match_rule srs filename = Some r0 ->
    List.find (rule_matches filename)
      (List.filter (fun x => Nat.eqb (pat_len x) (pat_len r0)) rs) = Some r0) as Hfirst.
  { intros r0 Hm. rewrite <- (sort_rules_stable rs srs (pat_len r0) Hsort).
    apply match_rule_Some in Hm as (l1 & l2 & -> & Hr & Hl1).
    apply find_filter_first; [done | done | apply Nat.eqb_refl]. }
  split.
  - intros Hm. split.
    + by apply match_rule_Some in Hm as (l1 & l2 & _ & Hr & _).
    + split; [intros r' Hr' Hmatch; by eapply sorted_match_longest | by apply Hfirst].
  - intros (Hr & Hmax & Hfind).
    assert (r ∈ rs) as Hin.
    { apply find_Some_matches in Hfind as [_ Hin%list_elem_of_In].
      apply List.filter_In in Hin as [Hin _]. by apply list_elem_of_In. }
    destruct (match_rule srs filename) as [r0|] eqn:Hm.
    + assert (pat_len r0 = pat_len r) as Hlen.
      { apply Nat.le_antisymm.
        - apply Hmax.
          + apply match_rule_Some in Hm as (l1 & l2 & Hsrs & _ & _).
            rewrite <- (sort_rules_perm _ _ Hsort), Hsrs. set_solver.
          + by apply match_rule_Some in Hm as (l1 & l2 & _ & Hr0 & _).
        - by eapply sorted_match_longest. }
      specialize (Hfirst r0 eq_refl). rewrite Hlen in Hfirst. congruence.
    + rewrite match_rule_None in Hm. rewrite Hm in Hr; [done |].
      by rewrite (sort_rules_perm _ _ Hsort).
Qed.

Lemma match_rule_configured_order_witness :
  match_rule [shop_rule; blog_rule] "design-post.png" = Some shop_rule <->
  rule_matches "design-post.png" shop_rule = true /\
  (forall r', r' ∈ [blog_rule; shop_rule] -> rule_matches "design-post.png" r' = true ->
              (pat_len r' <= pat_len shop_rule)%nat) /\
  List.find (rule_matches "design-post.png")
    (List.filter (fun x => Nat.eqb (pat_len x) (pat_len shop_rule)) [blog_rule; shop_rule])
  = Some shop_rule.
Proof.
  apply (match_rule_configured_order [blog_rule; shop_rule] [shop_rule; blog_rule]).
  reflexivity.
Defined.

Lemma str_contains_empty s : str_contains "" s = true.
Proof. by destruct s. Qed.

(** X2. A rule with the empty pattern is a default: with it among the rules every
    file name selects some rule, and the default itself only when no rule
    with a longer pattern matches. *)
Theorem empty_pattern_is_default (rs srs : list Rule) (r0 : Rule) (filename : string) :
  sort_rules rs = Ok srs -> r0 ∈ rs -> pattern r0 = Some ""%string ->
  exists r, match_rule srs filename = Some r /\
    (pat_len r = 0%nat ->
     forall r', r' ∈ rs -> rule_matches filename r' = true -> pattern r' = Some ""%string).
Proof.
  intros Hsort Hin Hpat.
  assert (rule_matches filename r0 = true) as Hr0.
  { unfold rule_matches. rewrite Hpat. apply str_contains_empty. }
  destruct (match_rule srs filename) as [r|] eqn:Hm.
  - exists r. split; [done |]. intros Hlen r' Hr' Hmatch.
    pose proof (sorted_match_longest _ _ _ _ _ Hsort Hm Hr' Hmatch) as Hle.
    rewrite Hlen in Hle. unfold rule_matches in Hmatch. unfold pat_len in Hle.
    destruct (pattern r') as [[|c p]|]; [done | simpl in Hle; lia | done].
  - rewrite match_rule_None in Hm. rewrite Hm in Hr0; [done |].
    by rewrite (sort_rules_perm _ _ Hsort).
Qed.

Lemma empty_pattern_is_default_witness :
  exists r,
    match_rule [shop_rule; mkRule (Some ""%string) None None false false []] "readme.txt"
    = Some r /\
    (pat_len r = 0%nat ->
     forall r', r' ∈ [mkRule (Some ""%string) None None false false []; shop_rule] ->
                rule_matches "readme.txt" r' = true -> pattern r' = Some ""%string).
Proof.
  apply (empty_pattern_is_default
           [mkRule (Some ""%string) None None false false []; shop_rule]
           [shop_rule; mkRule (Some ""%string) None None false false []]
           (mkRule (Some ""%string) None None false false [])).
  - reflexivity.
  - by left.
  - reflexivity.
Defined.

(* ------------------------------------------------------------------ *)
(** ** History cutoff: closed form and the next run *)

Lemma window_loop_closed stop history max_urls i l :
  stop = list_to_set history ->
  window_loop stop max_urls i l
  = take (Z.to_nat (max_urls - i)) (fresh_prefix history l).
Proof.
  intros ->. revert i. induction l as [|u l IH]; intros i; cbn [window_loop fresh_prefix].
  - by rewrite take_nil.
  - rewrite (bool_decide_ext (u ∈ list_to_set (C:=gset string) history) (u ∈ history))
      by apply elem_of_list_to_set.
    case_bool_decide; [by rewrite take_nil |].
    destruct (Z.leb_spec max_urls i) as [Hle | Hlt].
    + by replace (Z.to_nat (max_urls - i)) with 0%nat by lia.
    + replace (Z.to_nat (max_urls - i)) with (S (Z.to_nat (max_urls - (i + 1)))) by lia.
      cbn [take]. by rewrite IH.
Qed.

(** X3. For every cap, negative ones included, the window is the first
    [max_urls_per_domain] URLs of the part of the fetched list that comes
    before its first URL of the history; it is empty exactly when the list is
    empty, when its first URL is in the history, or when the cap is not
    positive. *)
Theorem compute_window_closed_form (all_urls history : list string) (max_urls : Z) :
  compute_window all_urls history max_urls
  = take (Z.to_nat max_urls) (fresh_prefix history all_urls) /\
  (compute_window all_urls history max_urls = [] <->
   max_urls <= 0 \/ all_urls = [] \/ exists u, head all_urls = Some u /\ u ∈ history).
Proof.
  assert (compute_window all_urls history max_urls
          = take (Z.to_nat max_urls) (fresh_prefix history all_urls)) as Heq.
  { unfold compute_window. rewrite (window_loop_closed _ history) by done.
    by rewrite Z.sub_0_r. }
  split; [done |]. rewrite Heq.
  destruct all_urls as [|u rest]; cbn [fresh_prefix head].
  - rewrite take_nil. split; [tauto | done].
  - case_bool_decide as Hu.
    + rewrite take_nil. split; [| done]. intros _. right. right. eauto.
    + destruct (Z.to_nat max_urls) as [|n] eqn:Hn; cbn [take].
      * split; [intros _; left; lia | done].
      * split; [done |]. intros [Hle | [Hnil | (u' & [= <-] & Hin)]]; [lia | done | done].
Qed.

Lemma url_loop_first_success W cfg rules u rest st :
  (url_outcome W cfg rules u (dr_images st) (mockup_cache st)).2 = Processed ->
  successfully_processed_this_run st = [] ->
  exists succ, successfully_processed_this_run (url_loop W cfg rules (u :: rest) st)
               = u :: succ.
Proof.
  intros Hout Hnil. rewrite url_loop_cons.
  destruct (url_loop_successes W cfg rules rest (process_url W cfg rules st u))
    as (succ & -> & _).
  destruct (process_url_counts W cfg rules st u) as [(_ & _ & _ & ->) | [Hne _]]; [| done].
  rewrite Hnil. by exists succ.
Qed.

(** X4. Once the first URL of a domain's window has been processed successfully
    and at least one URL is kept, the history stored for the domain starts
    with that URL, and the same fetched list gives an empty window: the next
    run over an unchanged list leaves the domain alone. *)
Theorem next_run_finds_nothing (W : World) (cfg : Config) (domain : string)
    (rules srs : list Rule) (st st' : RunState) (all_urls rest : list string) (u : string) :
  process_domain W cfg domain rules st = Ok (Continue st') ->
  sort_rules rules = Ok srs ->
  fetch_url_list W domain = Ok all_urls ->
  compute_window all_urls (history_of st domain) (max_urls_per_domain cfg) = u :: rest ->
  (url_outcome W cfg srs u (images_for_zip st) ∅).2 = Processed ->
  0 < history_to_keep cfg ->
  head (history_of st' domain) = Some u /\
  compute_window all_urls (history_of st' domain) (max_urls_per_domain cfg) = [] /\
  process_domain W cfg domain rules st' = Ok (Continue st').
Proof.
  intros Hstep Hsort Hfetch Hwin Hout Hkeep. unfold history_of in *.
  assert (head all_urls = Some u) as Hhead.
  { pose proof (window_loop_prefix (list_to_set (default [] (processed_log st !! domain)))
                  (max_urls_per_domain cfg) 0 all_urls) as [k Hk].
    fold (compute_window all_urls (default [] (processed_log st !! domain))
            (max_urls_per_domain cfg)) in Hk.
    rewrite Hwin in Hk. by rewrite Hk. }
  assert (exists stored, processed_log st' !! domain = Some (u :: stored)) as [stored Hst].
  { pose proof Hstep as (_ & srs' & Hsort' & Hcase)%process_domain_Continue.
    assert (srs' = srs) as -> by congruence.
    unfold process_domain in Hstep.
    destruct (Z.leb_spec MAX_REPO_SIZE_BYTES (repo_bytes W domain)) as [? | _]; [done |].
    rewrite Hsort, bind_Ok, Hfetch, Hwin in Hstep.
    destruct (url_loop_first_success W cfg srs u rest
                (mkDomainRun (images_for_zip st) ∅ 0 0 []) Hout eq_refl) as [succ Hsucc].
    rewrite Hsucc in Hstep.
    match type of Hstep with
    | Ok (Continue ?X) = _ => assert (st' = X) as -> by congruence
    end.
    cbn [processed_log]. rewrite lookup_insert_eq.
    unfold update_history, py_slice_to.
    destruct (Z.leb_spec 0 (history_to_keep cfg)) as [_ | ?]; [| lia].
    destruct (Z.to_nat (history_to_keep cfg)) as [|n] eqn:Hn; [lia |].
    cbn [app take]. eauto. }
  rewrite Hst. change (default [] (Some (u :: stored))) with (u :: stored). cbn [head].
  assert (compute_window all_urls (u :: stored) (max_urls_per_domain cfg) = []) as Hempty.
  { apply compute_window_closed_form. right. right. exists u. split; [done | by left]. }
  split; [done |]. split; [done |].
  unfold process_domain.
  destruct (Z.leb_spec MAX_REPO_SIZE_BYTES (repo_bytes W domain)) as [Hge | _].
  - apply process_domain_Continue in Hstep as [Hlt _]. lia.
  - rewrite Hsort, bind_Ok, Hfetch, Hst.
    change (default [] (Some (u :: stored))) with (u :: stored). by rewrite Hempty.
Qed.

Lemma next_run_finds_nothing_witness :
  head (history_of blog_state_after "blog") = Some post_one /\
  compute_window [post_one; post_two] (history_of blog_state_after "blog")
    (max_urls_per_domain demo_config) = [] /\
  process_domain (demo_world 1000) demo_config "blog" [blog_rule] blog_state_after
  = Ok (Continue blog_state_after).
Proof.
  apply (next_run_finds_nothing (demo_world 1000) demo_config "blog" [blog_rule] [blog_rule]
           blog_state blog_state_after [post_one; post_two] [post_two] post_one).
  - vm_compute. reflexivity.
  - reflexivity.
  - reflexivity.
  - vm_compute. reflexivity.
  - vm_compute. reflexivity.
  - simpl. lia.
Defined.

(* ------------------------------------------------------------------ *)
(** ** History: what enters it and what it keeps *)

(** The full account of one domain with a window: the summary and the
    history it leaves. *)
Lemma process_domain_window W cfg domain rules st st' srs all_urls :
  process_domain W cfg domain rules st = Ok (Continue st') ->
  sort_rules rules = Ok srs -> fetch_url_list W domain = Ok all_urls ->
  compute_window all_urls (history_of st domain) (max_urls_per_domain cfg) <> [] ->
  exists succ,
    succ `sublist_of` compute_window all_urls (history_of st domain)
                        (max_urls_per_domain cfg) /\
    (exists skipped_urls,
       urls_summary st' !! domain
       = Some (mkSummary (Z.of_nat (length succ)) skipped_urls
                 (Z.of_nat (length (compute_window all_urls (history_of st domain)
                                      (max_urls_per_domain cfg)))))) /\
    (succ = [] -> processed_log st' = processed_log st) /\
    (succ <> [] ->
     processed_log st'
     = <[domain := update_history succ (history_of st domain) (history_to_keep cfg)]>
         (processed_log st)).
Proof.
  intros Hstep Hsort Hfetch Hwin. unfold history_of in *.
  destruct (url_loop_successes W cfg srs
              (compute_window all_urls (default [] (processed_log st !! domain))
                 (max_urls_per_domain cfg)) (fresh_run st)) as (succ & Hsucc & Hsub & Hlen).
  cbn [fresh_run successfully_processed_this_run processed_count app] in Hsucc, Hlen.
  fold (fresh_run st) in Hsucc, Hlen.
  exists succ. split; [done |].
  unfold process_domain in Hstep.
  destruct (Z.leb_spec MAX_REPO_SIZE_BYTES (repo_bytes W domain)) as [? | _]; [done |].
  rewrite Hsort, bind_Ok, Hfetch in Hstep.
  destruct (compute_window _ _ _) as [|u window] eqn:Hw; [done |].
  fold (fresh_run st) in Hstep. rewrite Hsucc in Hstep.
  match type of Hstep with
  | Ok (Continue ?X) = _ => assert (st' = X) as -> by congruence
  end.
  cbn [urls_summary processed_log]. split.
  { eexists. rewrite lookup_insert_eq. do 2 f_equal. lia. }
  split; intros Hs; destruct succ; done.
Qed.

(** X5. What a domain reports as processed is the number of URLs it puts in front
    of the stored history, each of them a URL of the window and in the order
    of the window; when it reports none, the history is left as it was. *)
Theorem history_moves_with_processed_urls (W : World) (cfg : Config) (domain : string)
    (rules srs : list Rule) (st st' : RunState) (all_urls : list string) :
  process_domain W cfg domain rules st = Ok (Continue st') ->
  sort_rules rules = Ok srs -> fetch_url_list W domain = Ok all_urls ->
  compute_window all_urls (history_of st domain) (max_urls_per_domain cfg) <> [] ->
  exists s succ,
    urls_summary st' !! domain = Some s /\
    processed s = Z.of_nat (length succ) /\
    succ `sublist_of` compute_window all_urls (history_of st domain)
                        (max_urls_per_domain cfg) /\
    (processed s = 0 -> processed_log st' = processed_log st) /\
    (0 < processed s ->
     processed_log st' !! domain
     = Some (update_history succ (history_of st domain) (history_to_keep cfg))).
Proof.
  intros Hstep Hsort Hfetch Hwin.
  destruct (process_domain_window _ _ _ _ _ _ _ _ Hstep Hsort Hfetch Hwin)
    as (succ & Hsub & [sk Hsum] & Hnil & Hcons).
  eexists _, succ. split; [exact Hsum |]. cbn [processed].
  split; [done |]. split; [done |]. split.
  - intros Hz. apply Hnil. destruct succ; [done | simpl in Hz; lia].
  - intros Hpos. rewrite Hcons by (intros ->; simpl in Hpos; lia).
    by rewrite lookup_insert_eq.
Qed.

Lemma history_moves_with_processed_urls_witness :
  exists s succ,
    urls_summary
      (mkRunState ∅ [] {[ "shop"%string := mkSummary 0 2 2 ]}) !! "shop"%string = Some s /\
    processed s = Z.of_nat (length succ) /\
    succ `sublist_of` compute_window [url_one; url_two] (history_of empty_state "shop")
                        (max_urls_per_domain shop_config) /\
    (processed s = 0 ->
     processed_log (mkRunState ∅ [] {[ "shop"%string := mkSummary 0 2 2 ]})
     = processed_log empty_state) /\
    (0 < processed s ->
     processed_log (mkRunState ∅ [] {[ "shop"%string := mkSummary 0 2 2 ]}) !! "shop"%string
     = Some (update_history succ (history_of empty_state "shop")
               (history_to_keep shop_config))).
Proof.
  apply (history_moves_with_processed_urls (demo_world 1000) shop_config "shop"
           [shop_rule] [shop_rule] empty_state
           (mkRunState ∅ [] {[ "shop"%string := mkSummary 0 2 2 ]}) [url_one; url_two]).
  - vm_compute. reflexivity.
  - reflexivity.
  - reflexivity.
  - vm_compute. discriminate.
Defined.

Lemma py_slice_to_sublist {A} (k : Z) (l : list A) : py_slice_to k l `sublist_of` l.
Proof. unfold py_slice_to. destruct (0 <=? k); apply sublist_take. Qed.

(** X6. When neither the fetched list nor the stored history of a domain has a
    URL twice, the history stored after the domain has none twice either,
    whatever the cap and the retention are. *)
Theorem history_stays_duplicate_free (W : World) (cfg : Config) (domain : string)
    (rules : list Rule) (st st' : RunState) (all_urls : list string) :
  process_domain W cfg domain rules st = Ok (Continue st') ->
  fetch_url_list W domain = Ok all_urls ->
  NoDup all_urls -> NoDup (history_of st domain) ->
  NoDup (history_of st' domain).
Proof.
  intros Hstep Hfetch Hall Hprev. unfold history_of in *.
  apply process_domain_Continue in Hstep as (_ & srs & Hsort & [-> | Hcase]); [done |].
  destruct Hcase as (all_urls' & Hfetch' & run & Hrun & _ & _ & _ & Hlog).
  assert (all_urls' = all_urls) as -> by congruence.
  destruct Hlog as [[_ ->] | [_ ->]]; [done |].
  rewrite lookup_insert_eq. cbn [default from_option id].
  unfold update_history. eapply sublist_NoDup; [| apply py_slice_to_sublist].
  destruct (url_loop_successes W cfg srs
              (compute_window all_urls (default [] (processed_log st !! domain))
                 (max_urls_per_domain cfg)) (fresh_run st)) as (succ & Hsucc & Hsub & _).
  rewrite <- Hrun in Hsucc. cbn [fresh_run successfully_processed_this_run app] in Hsucc.
  rewrite Hsucc.
  pose proof (window_loop_prefix (list_to_set (default [] (processed_log st !! domain)))
                (max_urls_per_domain cfg) 0 all_urls) as Hpre.
  fold (compute_window all_urls (default [] (processed_log st !! domain))
          (max_urls_per_domain cfg)) in Hpre.
  apply NoDup_app. split; [| split; [| done]].
  - eapply sublist_NoDup; [| exact Hsub]. destruct Hpre as [k Hk].
    rewrite Hk in Hall. by apply NoDup_app in Hall as [? _].
  - intros x Hx. eapply elem_of_sublist in Hx; [| exact Hsub].
    apply window_loop_fresh in Hx. by rewrite elem_of_list_to_set in Hx.
Qed.

Lemma history_stays_duplicate_free_witness :
  NoDup (history_of blog_state_after "blog").
Proof.
  apply (history_stays_duplicate_free (demo_world 1000) demo_config "blog" [blog_rule]
           blog_state blog_state_after [post_one; post_two]).
  - vm_compute. reflexivity.
  - reflexivity.
  - apply NoDup_cons. split; [| apply NoDup_singleton].
    rewrite list_elem_of_singleton. discriminate.
  - vm_compute. apply NoDup_cons. split; [| apply NoDup_singleton].
    rewrite list_elem_of_singleton. discriminate.
Defined.

(* ------------------------------------------------------------------ *)
(** ** The run as a whole *)

Lemma process_domain_cases W cfg domain rules st :
  (MAX_REPO_SIZE_BYTES <= repo_bytes W domain /\
   process_domain W cfg domain rules st = Ok Break) \/
  (repo_bytes W domain < MAX_REPO_SIZE_BYTES /\
   (exists r, r ∈ rules /\ pattern r = None) /\
   process_domain W cfg domain rules st = Raise) \/
  (repo_bytes W domain < MAX_REPO_SIZE_BYTES /\
   (forall r, r ∈ rules -> pattern r <> None) /\
   exists st', process_domain W cfg domain rules st = Ok (Continue st')).
Proof.
  destruct (process_domain W cfg domain rules st) as [[|st']|] eqn:Hstep.
  - left. split; [by apply process_domain_Break in Hstep | done].
  - right. right.
    apply process_domain_Continue in Hstep as (Hlt & srs & Hsort & _).
    split; [done |]. split; [| by exists st'].
    intros r Hr Hnone.
    assert (sort_rules rules = Raise) by (apply sort_rules_Raise; eauto). congruence.
  - right. left. apply process_domain_Raise in Hstep as [Hlt Hsort%sort_rules_Raise]. done.
Qed.

Lemma domain_loop_Raise W cfg ds st :
  domain_loop W cfg ds st = Raise <->
  exists pre domain rules post,
    ds = pre ++ (domain, rules) :: post /\
    (forall d rs, (d, rs) ∈ pre ->
       repo_bytes W d < MAX_REPO_SIZE_BYTES /\ forall r, r ∈ rs -> pattern r <> None) /\
    repo_bytes W domain < MAX_REPO_SIZE_BYTES /\
    exists r, r ∈ rules /\ pattern r = None.
Proof.
  revert st. induction ds as [|[d rs] ds IH]; intros st.
  - split; [done |]. intros (pre & ? & ? & ? & Heq & _). by destruct pre.
  - cbn [domain_loop].
    destruct (process_domain_cases W cfg d rs st)
      as [[Hge ->] | [(Hlt & Hbad & ->) | (Hlt & Hgood & st' & ->)]]; rewrite ?bind_Ok.
    + split; [done |]. intros (pre & d' & rs' & post & Heq & Hpre & Hlt & _).
      destruct pre as [|[d0 rs0] pre]; injection Heq as Hd Hrs Hds.
      * subst d' rs' post. lia.
      * subst d0 rs0 ds. destruct (Hpre d rs ltac:(by left)). lia.
    + split; [| done]. intros _. exists [], d, rs, ds. split; [done |].
      split; [| done]. intros d' rs' Hin. by apply elem_of_nil in Hin.
    + rewrite IH. split.
      * intros (pre & d' & rs' & post & -> & Hpre & Hlt' & Hbad).
        exists ((d, rs) :: pre), d', rs', post. split; [done |]. split; [| done].
        intros d0 rs0 [[= -> ->] | Hin]%elem_of_cons; [done | by apply Hpre].
      * intros (pre & d' & rs' & post & Heq & Hpre & Hlt' & r & Hr & Hnone).
        destruct pre as [|[d0 rs0] pre]; injection Heq as Hd Hrs Hds.
        -- subst d' rs' post. by destruct (Hgood r Hr).
        -- subst d0 rs0 ds. exists pre, d', rs', post. split; [done |]. split; [| eauto].
           intros d1 rs1 Hin. apply Hpre. by right.
Qed.

(** X7. A rule without a pattern stops the run.  When the domain loop comes
    to a domain that has such a rule (every domain before it, and the domain
    itself, starts below the ceiling, and the rules of the domains before it
    all have a pattern), the sort of its rules raises outside every [try]:
    whatever the earlier domains did, and whether or not any URL would match
    the rule, the run ends there with the exception and comes neither to
    the saving of the history nor to the archives. *)
Theorem run_dies_on_rule_without_pattern (W : World) (cfg : Config)
    (log : gmap string (list string)) (pre post : list (string * list Rule))
    (domain : string) (rules : list Rule) (r : Rule) :
  domains cfg = pre ++ (domain, rules) :: post ->
  (forall d rs, (d, rs) ∈ pre ->
     repo_bytes W d < MAX_REPO_SIZE_BYTES /\ forall r', r' ∈ rs -> pattern r' <> None) ->
  repo_bytes W domain < MAX_REPO_SIZE_BYTES ->
  r ∈ rules ->
  pattern r = None ->
  main W cfg log = Raise.
Proof.
  intros Hds Hpre Hlt Hr Hnone. unfold main.
  assert (domain_loop W cfg (domains cfg) (mkRunState log [] ∅) = Raise) as Hloop.
  { apply domain_loop_Raise. exists pre, domain, rules, post.
    do 3 (split; [done |]). by exists r. }
  by rewrite Hloop.
Qed.

Lemma run_dies_on_rule_without_pattern_witness :
  main (demo_world 1000) broken_config ∅ = Raise.
Proof.
  apply (run_dies_on_rule_without_pattern (demo_world 1000) broken_config ∅
           [("shop"%string, [shop_rule])] [] "blog"%string
           [mkRule None None None false false []]
           (mkRule None None None false false [])).
  - reflexivity.
  - intros d rs Hin. apply list_elem_of_singleton in Hin. injection Hin as -> ->.
    split; [reflexivity |]. intros r Hr. apply list_elem_of_singleton in Hr. by subst r.
  - reflexivity.
  - by left.
  - reflexivity.
Defined.

Lemma url_loop_counts_nonneg W cfg rules urls st :
  processed_count st <= processed_count (url_loop W cfg rules urls st) /\
  skipped_count st <= skipped_count (url_loop W cfg rules urls st).
Proof.
  revert st. induction urls as [|url urls IH]; intros st; [simpl; lia |].
  rewrite url_loop_cons. destruct (IH (process_url W cfg rules st url)) as [Hp Hs].
  destruct (process_url_counts W cfg rules st url)
    as [(_ & Hp' & Hs' & _) | (_ & Hp' & Hs' & _)]; lia.
Qed.

Lemma domain_loop_summary_domains W cfg ds st st' :
  domain_loop W cfg ds st = Ok st' ->
  (forall d s, urls_summary st !! d = Some s ->
     0 <= processed s /\ 0 <= skipped s /\ 1 <= total_to_process s) ->
  forall d s, urls_summary st' !! d = Some s ->
    0 <= processed s /\ 0 <= skipped s /\ 1 <= total_to_process s.
Proof.
  revert st. induction ds as [|[domain rules] ds IH]; intros st; cbn [domain_loop].
  - by intros [= <-].
  - intros H Hinv. apply bind_Ok_inv in H as ([|st1] & Hstep & H).
    + by injection H as <-.
    + apply (IH st1); [done |].
      apply process_domain_Continue in Hstep as (_ & srs & _ & [-> | Hstep]); [done |].
      destruct Hstep as (all_urls & _ & run & Hrun & Hwin & _ & Hsum & _).
      intros d s. rewrite Hsum, lookup_insert. case_decide; [| by apply Hinv].
      intros [= <-]. cbn [processed skipped total_to_process].
      destruct (url_loop_counts_nonneg W cfg srs
                  (compute_window all_urls (default [] (processed_log st !! domain))
                     (max_urls_per_domain cfg)) (fresh_run st)) as [Hp Hs].
      rewrite <- Hrun in Hp, Hs. cbn [fresh_run processed_count skipped_count] in Hp, Hs.
      split; [done |]. split; [done |].
      destruct (compute_window _ _ _); [done | simpl; lia].
Qed.

(** X8. The summary of a run has an entry only for a configured domain, every
    entry stands for a window that was not empty, and no counter is
    negative: a domain whose fetch failed or that had nothing new is not in
    the summary at all. *)
Theorem summary_lists_domains_with_work (W : World) (cfg : Config)
    (log : gmap string (list string)) (report : RunReport) :
  main W cfg log = Ok report ->
  forall domain s, summary_log report !! domain = Some s ->
    domain ∈ (domains cfg).*1 /\
    0 <= processed s /\ 0 <= skipped s /\ 1 <= total_to_process s.
Proof.
  unfold main. intros (st & Hloop & [= <-])%bind_Ok_inv domain s. cbn [summary_log].
  intros Hs. split.
  - destruct (decide (domain ∈ (domains cfg).*1)) as [| Hnot]; [done |].
    apply domain_loop_frame in Hloop as [_ Hframe].
    destruct (Hframe domain Hnot) as [_ Hsum]. cbn [urls_summary] in Hsum.
    rewrite Hs, lookup_empty in Hsum. done.
  - eapply (domain_loop_summary_domains _ _ _ _ _ Hloop); [| exact Hs].
    intros d s'. cbn [urls_summary]. by rewrite lookup_empty.
Qed.

Lemma summary_lists_domains_with_work_witness :
  "shop"%string ∈ (domains demo_config).*1 /\
  0 <= processed (mkSummary 0 2 2) /\ 0 <= skipped (mkSummary 0 2 2) /\
  1 <= total_to_process (mkSummary 0 2 2).
Proof.
  exact (summary_lists_domains_with_work (demo_world 1000) demo_config ∅ demo_report
           demo_run "shop"%string (mkSummary 0 2 2) demo_report_shop).
Defined.

Lemma domain_loop_app W cfg l1 l2 st st' :
  domain_loop W cfg (l1 ++ l2) st = Ok st' ->
  exists st1, domain_loop W cfg l1 st = Ok st1 /\
              (st' = st1 \/ domain_loop W cfg l2 st1 = Ok st').
Proof.
  revert st. induction l1 as [|[d rs] l1 IH]; intros st; cbn [app domain_loop].
  - intros H. exists st. split; [done | by right].
  - destruct (process_domain W cfg d rs st) as [[|st1]|]; rewrite ?bind_Ok; [| | done].
    + intros [= <-]. exists st. split; [done | by left].
    + apply IH.
Qed.

Lemma process_domain_idle W cfg domain rules st st' :
  process_domain W cfg domain rules st = Ok (Continue st') ->
  fetch_url_list W domain = Raise \/
  (exists all_urls, fetch_url_list W domain = Ok all_urls /\
     compute_window all_urls (history_of st domain) (max_urls_per_domain cfg) = []) ->
  st' = st.
Proof.
  unfold process_domain, history_of.
  destruct (Z.leb_spec MAX_REPO_SIZE_BYTES (repo_bytes W domain)) as [? | _]; [done |].
  intros (srs & _ & H)%bind_Ok_inv [Hfetch | (all_urls & Hfetch & Hwin)];
    rewrite Hfetch in H; [congruence |].
  rewrite Hwin in H. congruence.
Qed.

(** X9. A run changes the stored history of a domain only when it has work for
    it.  The entry of a domain that is not configured is carried over as it
    is; with no domain configured twice, so is the entry of a domain whose
    URL list cannot be fetched or whose window is empty, and that domain
    gets no line in the summary. *)
Theorem history_without_work_is_kept (W : World) (cfg : Config)
    (log : gmap string (list string)) (report : RunReport) (domain : string) :
  main W cfg log = Ok report ->
  (domain ∉ (domains cfg).*1 -> saved_history report !! domain = log !! domain) /\
  (NoDup (domains cfg).*1 ->
   fetch_url_list W domain = Raise \/
   (exists all_urls, fetch_url_list W domain = Ok all_urls /\
      compute_window all_urls (default [] (log !! domain)) (max_urls_per_domain cfg) = []) ->
   saved_history report !! domain = log !! domain /\
   summary_log report !! domain = None).
Proof.
  unfold main. intros (st & Hloop & [= <-])%bind_Ok_inv.
  cbn [saved_history summary_log].
  assert (domain ∉ (domains cfg).*1 ->
          processed_log st !! domain = log !! domain /\ urls_summary st !! domain = None)
    as Hout.
  { intros Hnot. apply domain_loop_frame in Hloop as [_ Hframe].
    destruct (Hframe domain Hnot) as [Hl Hs]. cbn [processed_log urls_summary] in Hl, Hs.
    by rewrite lookup_empty in Hs. }
  split; [intros Hnot; by apply Hout |].
  intros Hnodup Hidle.
  destruct (decide (domain ∈ (domains cfg).*1)) as [Hin | Hnot]; [| by apply Hout].
  apply list_elem_of_fmap in Hin as ([d rules] & Hd & Hin). simpl in Hd. subst d.
  apply list_elem_of_split in Hin as (pre & post & Hsplit).
  rewrite Hsplit in Hloop, Hnodup.
  rewrite fmap_app, fmap_cons in Hnodup. cbn [fst] in Hnodup.
  apply NoDup_app in Hnodup as (_ & Hpre & Hpost).
  apply NoDup_cons in Hpost as [Hpost _].
  assert (domain ∉ pre.*1) as Hpre'.
  { intros Hin. apply (Hpre domain Hin). by left. }
  apply domain_loop_app in Hloop as (st1 & Hloop1 & Hrest).
  apply domain_loop_frame in Hloop1 as [_ Hframe1].
  destruct (Hframe1 domain Hpre') as [Hl1 Hs1]. cbn [processed_log urls_summary] in Hl1, Hs1.
  rewrite lookup_empty in Hs1.
  destruct Hrest as [-> | Hrest]; [done |].
  cbn [domain_loop] in Hrest. apply bind_Ok_inv in Hrest as ([|st2] & Hstep & Hrest).
  - by injection Hrest as <-.
  - assert (st2 = st1) as ->.
    { apply (process_domain_idle _ _ _ _ _ _ Hstep). unfold history_of. by rewrite Hl1. }
    apply domain_loop_frame in Hrest as [_ Hframe2].
    destruct (Hframe2 domain Hpost) as [-> ->]. done.
Qed.

Lemma history_without_work_is_kept_witness :
  ("news"%string ∉ (domains demo_config).*1 ->
   saved_history demo_report !! "news"%string = (∅ : gmap string (list string)) !! "news"%string) /\
  (NoDup (domains demo_config).*1 ->
   fetch_url_list (demo_world 1000) "news" = Raise \/
   (exists all_urls, fetch_url_list (demo_world 1000) "news" = Ok all_urls /\
      compute_window all_urls (default [] ((∅ : gmap string (list string)) !! "news"%string))
        (max_urls_per_domain demo_config) = []) ->
   saved_history demo_report !! "news"%string = (∅ : gmap string (list string)) !! "news"%string /\
   summary_log demo_report !! "news"%string = None).
Proof.
  exact (history_without_work_is_kept (demo_world 1000) demo_config ∅ demo_report
           "news"%string demo_run).
Defined.

(** X10. No run writes an archive: every composite that reaches the encoder is an
    RGBA image, the encoder refuses it, and the URL ends as skipped. *)
Theorem no_run_writes_an_archive (W : World) (cfg : Config)
    (log : gmap string (list string)) (report : RunReport) :
  main W cfg log = Ok report ->
  archives report = [] /\
  forall rules st url, dr_images st = [] -> cache_rgba (mockup_cache st) ->
    dr_images (process_url W cfg rules st url) = [].
Proof.
  intros Hmain. split.
  - unfold main in Hmain. apply bind_Ok_inv in Hmain as (st & Hloop & [= <-]).
    cbn [archives]. apply domain_loop_frame in Hloop as [-> _]. done.
  - intros rules st url Hnil Hc.
    destruct (process_url_images W cfg rules st url Hc) as [-> _]. done.
Qed.

Lemma no_run_writes_an_archive_witness : archives demo_report = [].
Proof.
  exact (proj1 (no_run_writes_an_archive (demo_world 1000) demo_config ∅ demo_report
                  demo_run)).
Defined.

(* ------------------------------------------------------------------ *)
(** ** What counts as processed *)

Lemma mockup_loop_unknown W cfg filename is_white cropped_img names images cache :
  (forall name, name ∈ names -> mockup_sets cfg !! name = None /\ cache !! name = None) ->
  mockup_loop W cfg filename is_white cropped_img names images cache
  = (images, cache, Ok ()).
Proof.
  induction names as [|name names IH]; intros Hall; [done |].
  cbn [mockup_loop]. unfold cache_on_demand.
  destruct (Hall name ltac:(by left)) as [-> ->].
  apply IH. intros n Hn. apply Hall. by right.
Qed.

(** X11. A URL whose rule names no mockup set, or only sets that are not
    configured, counts as processed as soon as its image loads, its rule has
    crop coordinates, the sampled pixel exists and passes the brightness
    flags and the crop box is in order: nothing is rendered, the bundle and
    the cache stay as they were, and the URL joins the successes that go to
    the history. *)
Theorem url_without_mockup_set_is_processed (W : World) (cfg : Config)
    (rules : list Rule) (st : DomainRun) (url : string) (rule : Rule)
    (img : Image) (cc : Coords) (pixel : Pixel) (cropped : Image) :
  match_rule rules (basename url) = Some rule ->
  action rule <> Some "skip"%string ->
  (forall name, name ∈ mockup_sets_to_use rule ->
     mockup_sets cfg !! name = None /\ mockup_cache st !! name = None) ->
  download_image W (Some url) = Some img ->
  coords rule = Some cc ->
  getpixel img (cx cc) (cy cc) = Ok pixel ->
  (skipWhite rule && is_white_pixel pixel) || (skipBlack rule && negb (is_white_pixel pixel))
  = false ->
  crop img (cx cc, cy cc, cx cc + cw cc, cy cc + ch cc) = Ok cropped ->
  process_url W cfg rules st url
  = mkDomainRun (dr_images st) (mockup_cache st) (processed_count st + 1) (skipped_count st)
      (successfully_processed_this_run st ++ [url]).
Proof.
  intros Hrule Hact Hnames Himg Hcc Hpix Hbright Hcrop.
  unfold process_url, url_outcome. rewrite Hrule, bool_decide_eq_false_2 by done.
  unfold url_pipeline. rewrite Himg, Hcc, Hpix, Hbright, Hcrop.
  by rewrite mockup_loop_unknown.
Qed.

Lemma url_without_mockup_set_is_processed_witness :
  process_url (demo_world 1000) demo_config [blog_rule] (fresh_run empty_state) post_one
  = mkDomainRun (dr_images (fresh_run empty_state)) (mockup_cache (fresh_run empty_state))
      (processed_count (fresh_run empty_state) + 1) (skipped_count (fresh_run empty_state))
      (successfully_processed_this_run (fresh_run empty_state) ++ [post_one]).
Proof.
  refine (url_without_mockup_set_is_processed (demo_world 1000) demo_config [blog_rule]
            (fresh_run empty_state) post_one blog_rule (convert RGBA design_image)
            (mkCoords 0 0 8 8) white _ _ _ _ _ _ _ _ _).
  - reflexivity.
  - discriminate.
  - intros name Hin. by apply elem_of_nil in Hin.
  - reflexivity.
  - reflexivity.
  - reflexivity.
  - reflexivity.
  - reflexivity.
Defined.

(** X12. A rule that sets both [skipWhite] and [skipBlack] processes nothing: in
    every world a URL that selects it ends as skipped, and neither the bundle
    nor the cache is touched. *)
Theorem both_skip_flags_skip_everything (W : World) (cfg : Config)
    (rules : list Rule) (st : DomainRun) (url : string) (rule : Rule) :
  match_rule rules (basename url) = Some rule ->
  skipWhite rule = true -> skipBlack rule = true ->
  process_url W cfg rules st url
  = mkDomainRun (dr_images st) (mockup_cache st) (processed_count st)
      (skipped_count st + 1) (successfully_processed_this_run st).
Proof.
  intros Hrule Hw Hb. unfold process_url, url_outcome. rewrite Hrule.
  case_bool_decide; [done |]. unfold url_pipeline.
  destruct (download_image W (Some url)) as [img|]; [| done].
  destruct (coords rule) as [cc|]; [| done].
  destruct (getpixel img (cx cc) (cy cc)) as [pixel|]; [| done].
  rewrite Hw, Hb. by destruct (is_white_pixel pixel).
Qed.

Lemma both_skip_flags_skip_everything_witness :
  process_url (demo_world 1000) demo_config [never_rule] (fresh_run empty_state) url_one
  = mkDomainRun (dr_images (fresh_run empty_state)) (mockup_cache (fresh_run empty_state))
      (processed_count (fresh_run empty_state))
      (skipped_count (fresh_run empty_state) + 1)
      (successfully_processed_this_run (fresh_run empty_state)).
Proof.
  apply (both_skip_flags_skip_everything (demo_world 1000) demo_config [never_rule]
           (fresh_run empty_state) url_one never_rule); reflexivity.
Defined.

(* ------------------------------------------------------------------ *)
(** ** The cache of mockup sets *)

Lemma cache_on_demand_loaded W cfg name cache cache1 :
  cache_loaded W cfg cache -> cache_on_demand W cfg name cache = Some cache1 ->
  cache_loaded W cfg cache1 /\ cache ⊆ cache1.
Proof.
  unfold cache_on_demand. intros Hc.
  destruct (cache !! name) eqn:Hname; [by intros [= <-] |].
  destruct (mockup_sets cfg !! name) as [m_config|] eqn:Hcfg; [| done].
  intros [= <-]. split; [| by apply insert_subseteq].
  intros name' data. rewrite lookup_insert. case_decide as Hn.
  - subst name'. intros [= <-]. eauto.
  - apply Hc.
Qed.

Lemma mockup_loop_cache W cfg filename is_white cropped_img names images cache :
  cache_loaded W cfg cache ->
  cache_loaded W cfg (mockup_loop W cfg filename is_white cropped_img names images cache).1.2 /\
  cache ⊆ (mockup_loop W cfg filename is_white cropped_img names images cache).1.2.
Proof.
  revert images cache. induction names as [|name names IH]; intros images cache Hc; [done |].
  cbn [mockup_loop].
  destruct (cache_on_demand W cfg name cache) as [cache1|] eqn:Hcache; [| by apply IH].
  apply cache_on_demand_loaded in Hcache as [Hc1 Hsub]; [| done].
  destruct (cache1 !! name) as [data|].
  - destruct (render_mockup W cfg filename is_white cropped_img name data images)
      as [images1 [[]|]]; [| done].
    destruct (IH images1 cache1 Hc1) as [Hl Hs]. split; [done | by etrans].
  - destruct (IH images cache1 Hc1) as [Hl Hs]. split; [done | by etrans].
Qed.

Lemma process_url_cache W cfg rules st url :
  cache_loaded W cfg (mockup_cache st) ->
  cache_loaded W cfg (mockup_cache (process_url W cfg rules st url)) /\
  mockup_cache st ⊆ mockup_cache (process_url W cfg rules st url).
Proof.
  intros Hc. unfold process_url, url_outcome.
  destruct (match_rule rules (basename url)) as [rule|]; [| done].
  case_bool_decide; [done |]. unfold url_pipeline.
  destruct (download_image W (Some url)) as [img|]; [| done].
  destruct (coords rule) as [cc|]; [| done].
  destruct (getpixel img (cx cc) (cy cc)) as [pixel|]; [| done].
  destruct (_ || _); [done |].
  destruct (crop img _) as [cropped|]; [| done].
  pose proof (mockup_loop_cache W cfg (basename url) (is_white_pixel pixel) cropped
                (mockup_sets_to_use rule) (dr_images st) (mockup_cache st) Hc) as Hloop.
  destruct (mockup_loop _ _ _ _ _ _ _ _) as [[images' cache'] r].
  by destruct r.
Qed.

(** X13. Through the URL loop of a domain the cache only grows: an entry, once
    there, is never replaced, so the base images of a mockup set are loaded
    once for the domain; every entry is the load of the configured set of
    its name, and every base image in it is an RGBA image. *)
Theorem cache_entries_are_loaded_once (W : World) (cfg : Config) (rules : list Rule)
    (urls : list string) (st : DomainRun) :
  cache_loaded W cfg (mockup_cache st) ->
  mockup_cache st ⊆ mockup_cache (url_loop W cfg rules urls st) /\
  forall name data, mockup_cache (url_loop W cfg rules urls st) !! name = Some data ->
    exists m_config,
      mockup_sets cfg !! name = Some m_config /\
      data = load_mockup W m_config /\
      (forall im, md_white data = Some im -> mode im = RGBA) /\
      (forall im, md_black data = Some im -> mode im = RGBA).
Proof.
  intros Hc.
  assert (cache_loaded W cfg (mockup_cache (url_loop W cfg rules urls st)) /\
          mockup_cache st ⊆ mockup_cache (url_loop W cfg rules urls st)) as [Hl Hs].
  { revert st Hc. induction urls as [|url urls IH]; intros st Hc; [done |].
    rewrite url_loop_cons.
    destruct (process_url_cache W cfg rules st url Hc) as [Hc' Hs'].
    destruct (IH _ Hc') as [Hl Hs]. split; [done | by etrans]. }
  split; [done |]. intros name data Hdata.
  destruct (Hl name data Hdata) as (m_config & Hcfg & ->).
  exists m_config. split; [done |]. split; [done |].
  split; intros im; apply download_image_mode.
Qed.

Lemma cache_entries_are_loaded_once_witness :
  mockup_cache (fresh_run empty_state)
  ⊆ mockup_cache (url_loop (demo_world 1000) shop_config [shop_rule] [url_one; url_two]
                    (fresh_run empty_state)) /\
  forall name data,
    mockup_cache (url_loop (demo_world 1000) shop_config [shop_rule] [url_one; url_two]
                    (fresh_run empty_state)) !! name = Some data ->
    exists m_config,
      mockup_sets shop_config !! name = Some m_config /\
      data = load_mockup (demo_world 1000) m_config /\
      (forall im, md_white data = Some im -> mode im = RGBA) /\
      (forall im, md_black data = Some im -> mode im = RGBA).
Proof.
  apply (cache_entries_are_loaded_once (demo_world 1000) shop_config [shop_rule]
           [url_one; url_two] (fresh_run empty_state)).
  intros name data Hl. simpl in Hl. by rewrite lookup_empty in Hl.
Defined.

(* ------------------------------------------------------------------ *)
(** ** The composite *)

Lemma add_watermark_size W final_mockup watermark_content out :
  add_watermark W final_mockup watermark_content = Ok out ->
  size out = size final_mockup.
Proof.
  unfold add_watermark. destruct watermark_content as [[|c text]|]; try by intros [= <-].
  destruct (_ || _).
  - destruct (download_image W _) as [wm|]; [| by intros [= <-]].
    intros H. apply bind_Ok_inv in H as (wm' & _ & H).
    apply bind_Ok_inv in H as (px & _ & [= <-]). done.
  - intros H. apply bind_Ok_inv in H as ([[[bx0 by0] bx1] by1] & _ & H).
    apply bind_Ok_inv in H as (px & _ & [= <-]). done.
Qed.

(** X14. A composite has the mode and the size of the base image it is drawn on,
    whatever the design, the rectangle and the signature are; and a signature
    that is absent, empty, or an address whose image does not load leaves the
    composite as it is. *)
Theorem composite_has_the_shape_of_the_base (W : World) (design_img mockup_img : Image)
    (mockup_config : option Coords) (watermark_text : option string) (out : Image) :
  process_image W design_img mockup_img mockup_config watermark_text = Ok (Some out) ->
  mode out = mode mockup_img /\ size out = size mockup_img /\
  (forall im, add_watermark W im None = Ok im /\
              add_watermark W im (Some ""%string) = Ok im) /\
  (forall im address,
     starts_with "http://" address || starts_with "https://" address = true ->
     http_image W address = Raise ->
     add_watermark W im (Some address) = Ok im).
Proof.
  intros Hproc. split; [by eapply process_image_mode |]. split.
  - destruct mockup_config as [rect|].
    + apply process_image_Some in Hproc
        as (filled & trimmed & pl & resized & px & _ & _ & _ & _ & _ & Hwm).
      by apply add_watermark_size in Hwm.
    + unfold process_image in Hproc.
      apply bind_Ok_inv in Hproc as (filled & _ & H).
      apply bind_Ok_inv in H as ([trimmed|] & _ & H); done.
  - split; [done |]. intros im address Hhttp Hfail. unfold add_watermark.
    destruct address as [|c address]; [done |].
    rewrite Hhttp. unfold download_image. by rewrite Hfail.
Qed.

Lemma composite_has_the_shape_of_the_base_witness :
  mode demo_composite = mode (convert RGBA base_image) /\
  size demo_composite = size (convert RGBA base_image).
Proof.
  assert (process_image (demo_world 1000) (convert RGBA design_image)
            (convert RGBA base_image) (Some (mkCoords 2 2 16 16)) None
          = Ok (Some demo_composite)) as Hrun.
  { assert (gives_composite
              (process_image (demo_world 1000) (convert RGBA design_image)
                 (convert RGBA base_image) (Some (mkCoords 2 2 16 16)) None) = true) as Hok
      by (vm_compute; reflexivity).
    unfold demo_composite.
    by destruct (process_image _ _ _ _ _) as [[out|]|]. }
  destruct (composite_has_the_shape_of_the_base (demo_world 1000)
              (convert RGBA design_image) (convert RGBA base_image)
              (Some (mkCoords 2 2 16 16)) None demo_composite Hrun) as (Hm & Hs & _).
  split; [exact Hm | exact Hs].
Defined.

Lemma uniform_matching im x y :
  uniform im -> 0 <= x < width im -> 0 <= y < height im -> matching im (x, y).
Proof.
  intros Hu Hx Hy. assert (in_image im x y = true) by (by apply in_image_spec).
  split; [done | by apply Hu].
Qed.

(** Every pixel of a uniform image is reached from the seed. *)
Lemma uniform_reached im x y :
  uniform im -> in_image im x y = true -> reached im (x, y).
Proof.
  intros Hu Hin. apply in_image_spec in Hin as [Hx Hy].
  assert (forall n : nat, Z.of_nat n < width im -> reached im (Z.of_nat n, 0)) as Hrow.
  { induction n as [|n IH]; intros Hn.
    - constructor. apply uniform_matching; [done | lia | lia].
    - apply (reached_step im (Z.of_nat n, 0)); [apply IH; lia | |].
      + left. simpl. f_equal. lia.
      + apply uniform_matching; [done | lia | lia]. }
  assert (forall m : nat, Z.of_nat m < height im -> reached im (x, Z.of_nat m)) as Hcol.
  { induction m as [|m IH]; intros Hm.
    - replace x with (Z.of_nat (Z.to_nat x)) by lia. apply Hrow. lia.
    - apply (reached_step im (x, Z.of_nat m)); [apply IH; lia | |].
      + right. right. left. simpl. f_equal. lia.
      + apply uniform_matching; [done | lia | lia]. }
  replace y with (Z.of_nat (Z.to_nat y)) by lia. apply Hcol. lia.
Qed.

(** X15. A design that is of one colour within the tolerance is cleared as a
    whole: the flood fill leaves no pixel that [getbbox] counts, the trim
    returns [None], and [process_image] returns [None] whatever the base
    image, the rectangle and the signature are. *)
Theorem uniform_design_gives_no_composite (W : World) (design_img mockup_img : Image)
    (mockup_config : option Coords) (watermark_text : option string) :
  0 < width design_img -> 0 < height design_img -> uniform design_img ->
  (exists filled, flood_fill design_img = Ok filled /\
     (forall x y, in_image filled x y = true -> pixels filled x y = transparent) /\
     get_trimmed_image_with_padding filled 40 20 = Ok None) /\
  process_image W design_img mockup_img mockup_config watermark_text = Ok None.
Proof.
  intros Hw Hh Hu.
  destruct (flood_fill_total design_img Hw Hh) as [filled Hfill].
  assert (mode filled = mode design_img /\ size filled = size design_img /\
          forall x y, in_image filled x y = true -> pixels filled x y = transparent)
    as (Hmode & Hsize & Hclear).
  { unfold flood_fill in Hfill. rewrite getpixel_origin, bind_Ok in Hfill by done.
    destruct (flood_loop _ _ _ _ _ _ _) as [px|] eqn:Hloop; [| done].
    injection Hfill as <-. split; [done |]. split; [done |]. intros x y Hin.
    apply (flood_loop_inv _ _ _ (pixels design_img) Hw Hh) in Hloop as [visited Hinv];
      [| by apply flood_inv_init].
    pose proof (flood_inv_final _ _ _ _ _ _ Hinv (x, y)) as [Hc _].
    apply Hc. apply flood_reached_reached. by apply uniform_reached. }
  assert (get_trimmed_image_with_padding filled 40 20 = Ok None) as Htrim.
  { apply get_trimmed_image_with_padding_spec; [lia | lia |].
    intros x y Hin. unfold counted. rewrite (Hclear x y Hin). by destruct (mode filled). }
  split; [by exists filled |].
  unfold process_image. by rewrite Hfill, bind_Ok, Htrim, bind_Ok.
Qed.

Lemma uniform_design_gives_no_composite_witness :
  process_image (demo_world 1000) plain_image (convert RGBA base_image)
    (Some (mkCoords 2 2 16 16)) None = Ok None.
Proof.
  apply (uniform_design_gives_no_composite (demo_world 1000) plain_image).
  - reflexivity.
  - reflexivity.
  - intros x y _. reflexivity.
Defined.

(* ------------------------------------------------------------------ *)
(** ** Trim: what it keeps *)

Lemma is_bbox_unique im box box' : is_bbox im box -> is_bbox im box' -> box = box'.
Proof.
  destruct box as [[[x1 y1] x2] y2], box' as [[[x1' y1'] x2'] y2'].
  intros (Hall & (ya & Ha1 & Ha2) & (yb & Hb1 & Hb2) & (xc & Hc1 & Hc2) & (xd & Hd1 & Hd2))
         (Hall' & (ya' & Ha1' & Ha2') & (yb' & Hb1' & Hb2') & (xc' & Hc1' & Hc2')
          & (xd' & Hd1' & Hd2')).
  pose proof (Hall _ _ Ha1' Ha2'). pose proof (Hall _ _ Hb1' Hb2').
  pose proof (Hall _ _ Hc1' Hc2'). pose proof (Hall _ _ Hd1' Hd2').
  pose proof (Hall' _ _ Ha1 Ha2). pose proof (Hall' _ _ Hb1 Hb2).
  pose proof (Hall' _ _ Hc1 Hc2). pose proof (Hall' _ _ Hd1 Hd2).
  repeat f_equal; lia.
Qed.

(** X16. The trimmed image is not empty and no larger than the image; it keeps
    every pixel that [getbbox] counts, at most the padding around their
    bounding box, and what it holds is the image moved by the corner of the
    crop box. *)
Theorem trim_keeps_the_design (im out : Image) (pad_x pad_y : Z) :
  0 <= pad_x -> 0 <= pad_y ->
  get_trimmed_image_with_padding im pad_x pad_y = Ok (Some out) ->
  exists x1 y1 x2 y2,
    is_bbox im (x1, y1, x2, y2) /\
    1 <= width out <= width im /\ 1 <= height out <= height im /\
    width out <= (x2 - x1) + 2 * pad_x /\ height out <= (y2 - y1) + 2 * pad_y /\
    (forall x y, in_image out x y = true ->
       in_image im (x + Z.max 0 (x1 - pad_x)) (y + Z.max 0 (y1 - pad_y)) = true /\
       pixels out x y = pixels im (x + Z.max 0 (x1 - pad_x)) (y + Z.max 0 (y1 - pad_y))) /\
    (forall x y, in_image im x y = true -> counted im x y = true ->
       in_image out (x - Z.max 0 (x1 - pad_x)) (y - Z.max 0 (y1 - pad_y)) = true /\
       pixels out (x - Z.max 0 (x1 - pad_x)) (y - Z.max 0 (y1 - pad_y)) = pixels im x y).
Proof.
  intros Hpx Hpy Hout.
  destruct (get_trimmed_image_with_padding_spec im pad_x pad_y Hpx Hpy) as (_ & _ & Hsome).
  destruct (Hsome out Hout) as (x1 & y1 & x2 & y2 & Hbb & Hcrop & Hbx1 & Hbx2 & Hby1 & Hby2).
  exists x1, y1, x2, y2. split; [done |].
  destruct (crop_inside _ _ _ _ _ _ Hcrop) as (Hm & Hwd & Hht & Hpix).
  pose proof Hbb as (Hall & (ya & Ha1 & Ha2) & _ & (xc & Hc1 & Hc2) & _).
  pose proof (Hall _ _ Ha1 Ha2) as Hxa. pose proof (Hall _ _ Hc1 Hc2) as Hyc.
  split; [lia |]. split; [lia |]. split; [lia |]. split; [lia |]. split.
  - intros x y [Hx Hy]%in_image_spec.
    assert (in_image im (x + Z.max 0 (x1 - pad_x)) (y + Z.max 0 (y1 - pad_y)) = true) as Hin
      by (apply in_image_spec; lia).
    split; [done | by apply Hpix].
  - intros x y Hin Hc. pose proof (Hall x y Hin Hc) as [Hxr Hyr].
    split; [apply in_image_spec; lia |].
    rewrite Hpix; replace (x - Z.max 0 (x1 - pad_x) + Z.max 0 (x1 - pad_x)) with x by lia;
      replace (y - Z.max 0 (y1 - pad_y) + Z.max 0 (y1 - pad_y)) with y by lia; done.
Qed.

Lemma trim_keeps_the_design_witness :
  exists x1 y1 x2 y2,
    is_bbox corner_image (x1, y1, x2, y2) /\
    1 <= width corner_trimmed <= width corner_image /\
    1 <= height corner_trimmed <= height corner_image /\
    width corner_trimmed <= (x2 - x1) + 2 * 40 /\
    height corner_trimmed <= (y2 - y1) + 2 * 20 /\
    (forall x y, in_image corner_trimmed x y = true ->
       in_image corner_image (x + Z.max 0 (x1 - 40)) (y + Z.max 0 (y1 - 20)) = true /\
       pixels corner_trimmed x y
       = pixels corner_image (x + Z.max 0 (x1 - 40)) (y + Z.max 0 (y1 - 20))) /\
    (forall x y, in_image corner_image x y = true -> counted corner_image x y = true ->
       in_image corner_trimmed (x - Z.max 0 (x1 - 40)) (y - Z.max 0 (y1 - 20)) = true /\
       pixels corner_trimmed (x - Z.max 0 (x1 - 40)) (y - Z.max 0 (y1 - 20))
       = pixels corner_image x y).
Proof.
  apply (trim_keeps_the_design corner_image corner_trimmed 40 20).
  - lia.
  - lia.
  - vm_compute. reflexivity.
Defined.

(** X17. Trimming what the trim returned changes nothing: the second trim returns
    an image of the same mode and size with the same pixels. *)
Theorem trim_is_idempotent (im out : Image) (pad_x pad_y : Z) :
  0 <= pad_x -> 0 <= pad_y ->
  get_trimmed_image_with_padding im pad_x pad_y = Ok (Some out) ->
  exists out2,
    get_trimmed_image_with_padding out pad_x pad_y = Ok (Some out2) /\
    mode out2 = mode out /\ size out2 = size out /\
    forall x y, in_image out x y = true -> pixels out2 x y = pixels out x y.
Proof.
  intros Hpx Hpy Hout.
  destruct (trim_keeps_the_design im out pad_x pad_y Hpx Hpy Hout)
    as (x1 & y1 & x2 & y2 & Hbb & Hw & Hh & Hwp & Hhp & Hfrom & Hto).
  destruct (get_trimmed_image_with_padding_spec im pad_x pad_y Hpx Hpy) as (_ & _ & Hsome).
  destruct (Hsome out Hout) as (a1 & b1 & a2 & b2 & Hbb' & Hcrop & Hbx1 & Hbx2 & Hby1 & Hby2).
  assert ((a1, b1, a2, b2) = (x1, y1, x2, y2)) as Heq by (by eapply is_bbox_unique).
  injection Heq as -> -> -> ->.
  destruct (crop_inside _ _ _ _ _ _ Hcrop) as (Hm & Hwd & Hht & _).
  set (bx := Z.max 0 (x1 - pad_x)) in *. set (by_ := Z.max 0 (y1 - pad_y)) in *.
  assert (forall x y, in_image out x y = true -> counted out x y = counted im (x + bx) (y + by_))
    as Hcount.
  { intros x y Hin. unfold counted. rewrite Hm. by rewrite (proj2 (Hfrom x y Hin)). }
  assert (is_bbox out (x1 - bx, y1 - by_, x2 - bx, y2 - by_)) as Hbb2.
  { destruct Hbb as (Hall & (ya & Ha1 & Ha2) & (yb & Hb1 & Hb2) & (xc & Hc1 & Hc2)
                     & (xd & Hd1 & Hd2)).
    split; [| split; [| split; [| split]]].
    - intros x y Hin Hc. rewrite Hcount in Hc by done.
      destruct (Hall _ _ (proj1 (Hfrom x y Hin)) Hc). lia.
    - exists (ya - by_). destruct (Hto _ _ Ha1 Ha2) as [Hin _]. split; [done |].
      rewrite Hcount by done. by replace (x1 - bx + bx) with x1 by lia;
        replace (ya - by_ + by_) with ya by lia.
    - exists (yb - by_). destruct (Hto _ _ Hb1 Hb2) as [Hin _].
      replace (x2 - bx - 1) with (x2 - 1 - bx) by lia. split; [done |].
      rewrite Hcount by done. by replace (x2 - 1 - bx + bx) with (x2 - 1) by lia;
        replace (yb - by_ + by_) with yb by lia.
    - exists (xc - bx). destruct (Hto _ _ Hc1 Hc2) as [Hin _]. split; [done |].
      rewrite Hcount by done. by replace (y1 - by_ + by_) with y1 by lia;
        replace (xc - bx + bx) with xc by lia.
    - exists (xd - bx). destruct (Hto _ _ Hd1 Hd2) as [Hin _].
      replace (y2 - by_ - 1) with (y2 - 1 - by_) by lia. split; [done |].
      rewrite Hcount by done. by replace (y2 - 1 - by_ + by_) with (y2 - 1) by lia;
        replace (xd - bx + bx) with xd by lia. }
  destruct (getbbox out) as [[[[c1 d1] c2] d2]|] eqn:Hgb.
  2:{ rewrite getbbox_None in Hgb.
      destruct Hbb2 as (_ & (ya & Ha1 & Ha2) & _). rewrite Hgb in Ha2; done. }
  pose proof (getbbox_Some _ _ _ _ _ Hgb) as [Hbb3 _].
  assert ((c1, d1, c2, d2) = (x1 - bx, y1 - by_, x2 - bx, y2 - by_)) as Heq
    by (by eapply is_bbox_unique).
  injection Heq as -> -> -> ->.
  unfold get_trimmed_image_with_padding. rewrite Hgb.
  pose proof Hbb as (Hall & (ya & Ha1 & Ha2) & _ & (xc & Hc1 & Hc2) & _).
  pose proof (Hall _ _ Ha1 Ha2) as Hxa. pose proof (Hall _ _ Hc1 Hc2) as Hyc.
  replace (Z.max 0 (x1 - bx - pad_x)) with 0 by lia.
  replace (Z.max 0 (y1 - by_ - pad_y)) with 0 by lia.
  replace (Z.min (width out) (x2 - bx + pad_x)) with (width out) by lia.
  replace (Z.min (height out) (y2 - by_ + pad_y)) with (height out) by lia.
  unfold crop.
  destruct (Z.ltb_spec (width out) 0) as [? | _]; [lia |].
  destruct (Z.ltb_spec (height out) 0) as [? | _]; [lia |].
  cbn [orb]. rewrite bind_Ok. eexists. split; [done |]. cbn [mode size width height pixels].
  split; [done |]. split; [unfold PIL.size; cbn [width height]; f_equal; lia |].
  intros x y Hin. rewrite !Z.add_0_r. by rewrite Hin.
Qed.

Lemma trim_is_idempotent_witness :
  exists out2,
    get_trimmed_image_with_padding corner_trimmed 40 20 = Ok (Some out2) /\
    mode out2 = mode corner_trimmed /\ size out2 = size corner_trimmed /\
    forall x y, in_image corner_trimmed x y = true ->
                pixels out2 x y = pixels corner_trimmed x y.
Proof.
  apply (trim_is_idempotent corner_image corner_trimmed 40 20).
  - lia.
  - lia.
  - vm_compute. reflexivity.
Defined.

(* ------------------------------------------------------------------ *)
(** ** The bundle and the archives *)

Lemma group_of_zip_append name entry images name' :
  group_of name' (zip_append name entry images)
  = if String.eqb name name' then group_of name images ++ [entry]
    else group_of name' images.
Proof.
  induction images as [|[k l] images IH]; cbn [zip_append group_of].
  - by destruct (String.eqb name name').
  - destruct (String.eqb_spec k name) as [Hk | Hk]; cbn [group_of].
    + subst k. by destruct (String.eqb name name').
    + destruct (String.eqb_spec k name') as [Hk' | Hk']; [| apply IH].
      subst k. by rewrite (proj2 (String.eqb_neq name name')) by done.
Qed.

Lemma keys_zip_append name entry images :
  (zip_append name entry images).*1
  = if bool_decide (name ∈ images.*1) then images.*1 else images.*1 ++ [name].
Proof.
  induction images as [|[k l] images IH]; cbn [zip_append]; [done |].
  destruct (String.eqb_spec k name) as [-> | Hk]; cbn [fmap list_fmap fst].
  - rewrite bool_decide_eq_true_2 by (by left). done.
  - change (list_fmap _ _ fst ?x) with (x.*1). rewrite IH.
    case_bool_decide as Hin.
    + rewrite bool_decide_eq_true_2 by (by right). done.
    + rewrite bool_decide_eq_false_2; [done |].
      intros [? | ?]%elem_of_cons; [congruence | done].
Qed.

Lemma bundle_ok_zip_append name entry images :
  bundle_ok images -> bundle_ok (zip_append name entry images).
Proof.
  intros [Hdup Hne]. split.
  - rewrite keys_zip_append. case_bool_decide as Hin; [done |].
    apply NoDup_app. split; [done |]. split; [| apply NoDup_singleton].
    intros x Hx ->%list_elem_of_singleton. done.
  - clear Hdup. induction Hne as [|[k l] images Hl Hne IH]; cbn [zip_append].
    + by repeat constructor.
    + destruct (String.eqb k name); constructor; try done.
      simpl. by destruct l.
Qed.

Lemma group_of_append_all name entries images :
  group_of name (append_all entries images)
  = group_of name images
    ++ (snd <$> List.filter (fun e => String.eqb e.1 name) entries).
Proof.
  revert images. induction entries as [|[n e] entries IH]; intros images.
  - by rewrite app_nil_r.
  - cbn [append_all foldl List.filter fst snd].
    change (foldl _ ?b entries) with (append_all entries b).
    rewrite IH, group_of_zip_append.
    destruct (String.eqb_spec n name) as [-> | Hn]; [by rewrite <- app_assoc | done].
Qed.

(** X18. [images_for_zip] as the appends build it from the empty dictionary: no
    name is there twice and no name has an empty list, the names stand in
    the order of their first image, and the list of a name is what was
    appended under that name, in the order of the appends. *)
Theorem bundle_groups_entries_by_name (entries : list (string * (string * list byte)))
    (name : string) (entry : string * list byte) :
  bundle_ok (append_all entries []) /\
  group_of name (append_all entries [])
  = (snd <$> List.filter (fun e => String.eqb e.1 name) entries) /\
  (append_all (entries ++ [(name, entry)]) []).*1
  = (if bool_decide (name ∈ (append_all entries []).*1)
     then (append_all entries []).*1
     else (append_all entries []).*1 ++ [name]) /\
  (group_of name (append_all entries []) = [] <-> name ∉ (append_all entries []).*1).
Proof.
  assert (forall images, bundle_ok images -> bundle_ok (append_all entries images)) as Hok.
  { induction entries as [|[n e] entries IH]; intros images Hb; [done |].
    apply IH. by apply bundle_ok_zip_append. }
  specialize (Hok [] ltac:(split; constructor)).
  split; [done |]. split; [by rewrite group_of_append_all |]. split.
  - unfold append_all. rewrite foldl_app. cbn [foldl fst snd]. apply keys_zip_append.
  - destruct Hok as [_ Hne]. revert Hne. generalize (append_all entries []).
    induction 1 as [|[k l] images Hl Hne IH]; cbn [group_of fmap list_fmap fst].
    + split; [intros _; apply not_elem_of_nil | done].
    + change (list_fmap _ _ fst ?x) with (x.*1).
      destruct (String.eqb_spec k name) as [-> | Hk].
      * split; [done |]. intros Hnot. destruct Hnot. by left.
      * rewrite IH, not_elem_of_cons. split; [by split | by intros [_ ?]].
Qed.

Lemma ends_with_app suffix a b :
  ends_with suffix b = true -> ends_with suffix (a +:+ b) = true.
Proof.
  intros Hb. induction a as [|c a IH]; [done |].
  change (String c a +:+ b)%string with (String c (a +:+ b)).
  cbn [ends_with]. rewrite IH. apply orb_true_r.
Qed.

Lemma ends_with_spec suffix s :
  ends_with suffix s = true <-> exists a, s = (a +:+ suffix)%string.
Proof.
  induction s as [|c s IH]; cbn [ends_with].
  - rewrite orb_false_r, String.eqb_eq. split.
    + intros ->. by exists EmptyString.
    + intros [[|c a] Ha]; [done | discriminate].
  - rewrite orb_true_iff, String.eqb_eq, IH. split.
    + intros [-> | [a ->]]; [by exists EmptyString | by exists (String c a)].
    + intros [[|c' a] Ha]; [by left |]. right. injection Ha as -> ->. by exists a.
Qed.

Lemma archive_names_end_in_zip W images :
  Forall (fun f => ends_with ".zip" f = true) (make_zips W images).*1.
Proof.
  induction images as [|[name l] images IH]; cbn [make_zips]; [constructor |].
  destruct l as [|e l]; [done |]. cbn [fmap list_fmap fst]. constructor; [| done].
  do 5 apply ends_with_app. reflexivity.
Qed.

(** X19. Step 8 writes one archive for each name of the bundle that has images,
    in the order of the bundle and with the images of the name in their
    order; the name of an archive starts with the name of its mockup set and
    a dot and ends in [.zip]; and when the bundle was built by appends, no
    name is left out. *)
Theorem archives_follow_the_bundle (W : World) (images : ZipBundle) :
  (make_zips W images).*2 = List.filter nonempty images.*2 /\
  (forall archive, archive ∈ make_zips W images ->
     archive.2 <> [] /\ ends_with ".zip" archive.1 = true /\
     exists mockup_name, (mockup_name, archive.2) ∈ images /\
                         starts_with (mockup_name +:+ ".") archive.1 = true) /\
  (bundle_ok images -> (make_zips W images).*2 = images.*2).
Proof.
  split; [| split].
  - induction images as [|[name l] images IH]; [done |].
    cbn [make_zips]. destruct l as [|e l]; cbn [fmap list_fmap snd List.filter nonempty].
    + apply IH.
    + f_equal. apply IH.
  - induction images as [|[name l] images IH]; cbn [make_zips].
    + by intros archive ?%elem_of_nil.
    + assert (forall archive, archive ∈ make_zips W images ->
                archive.2 <> [] /\ ends_with ".zip" archive.1 = true /\
                exists mockup_name, (mockup_name, archive.2) ∈ (name, l) :: images /\
                                    starts_with (mockup_name +:+ ".") archive.1 = true) as IH'.
      { intros archive Hin. destruct (IH archive Hin) as (H1 & H2 & m & Hm & Hs).
        split; [done |]. split; [done |]. exists m. split; [by right | done]. }
      destruct l as [|e l]; [done |].
      intros archive [-> | Hin]%elem_of_cons; [| by apply IH'].
      cbn [fst snd]. split; [done |]. split.
      * do 5 apply ends_with_app. reflexivity.
      * exists name. split; [by left |].
        apply starts_with_spec.
        exists (timestamp W name +:+ "_" +:+ pretty (length (e :: l)) +:+ "_images.zip")%string.
        assert (forall a b c, ((a +:+ b) +:+ c = a +:+ (b +:+ c))%string) as Hassoc.
        { intros a b c. induction a as [|x a IHa]; [done |].
          change (String x ((a +:+ b) +:+ c) = String x (a +:+ (b +:+ c)))%string.
          by rewrite IHa. }
        symmetry. apply Hassoc.
  - intros [_ Hne]. induction Hne as [|[name l] images Hl Hne IH]; [done |].
    cbn [make_zips]. destruct l as [|e l]; [done |].
    cbn [fmap list_fmap snd]. f_equal. apply IH.
Qed.

Lemma archives_follow_the_bundle_witness :
  (make_zips (demo_world 1000)
     (append_all [("A"%string, ("one.jpg"%string, [])); ("B"%string, ("two.jpg"%string, []));
                  ("A"%string, ("three.jpg"%string, []))] [])).*2
  = [[("one.jpg"%string, []); ("three.jpg"%string, [])]; [("two.jpg"%string, [])]].
Proof.
  refine (eq_trans (proj2 (proj2 (archives_follow_the_bundle (demo_world 1000)
            (append_all [("A"%string, ("one.jpg"%string, []));
                         ("B"%string, ("two.jpg"%string, []));
                         ("A"%string, ("three.jpg"%string, []))] []))) _) _).
  - split.
    + vm_compute. repeat constructor; set_solver.
    + vm_compute. by repeat constructor.
  - reflexivity.
Defined.

(* ------------------------------------------------------------------ *)
(** ** Old archives *)

(** X20. [cleanup_old_zips] does nothing without the directory.  Otherwise it
    leaves the files in their order and removes, of the files whose name
    ends in [.zip], those that [os.remove] can remove; run again on what it
    left, it leaves the same; and the archives a run writes are among the
    files it removes, so that with a working [os.remove] a directory that
    holds the archives of the last run is left as it was before them. *)
Theorem cleanup_removes_old_archives (remove_ok : string -> bool) (files : list string)
    (W : World) (images : ZipBundle) :
  cleanup_old_zips remove_ok None = None /\
  exists left_files,
    cleanup_old_zips remove_ok (Some files) = Some left_files /\
    left_files `sublist_of` files /\
    (forall f, f ∈ left_files <->
               f ∈ files /\ (ends_with ".zip" f = false \/ remove_ok f = false)) /\
    cleanup_old_zips remove_ok (Some left_files) = Some left_files /\
    ((forall f, remove_ok f = true) ->
     cleanup_old_zips remove_ok (Some (files ++ (make_zips W images).*1))
     = Some left_files).
Proof.
  split; [done |]. eexists. split; [done |].
  set (keep := fun filename => negb (ends_with ".zip" filename && remove_ok filename)).
  split; [| split; [| split]].
  - induction files as [|f files IH]; [done |]. cbn [List.filter].
    destruct (keep f); [by apply sublist_skip | by apply sublist_cons].
  - intros f. rewrite !list_elem_of_In, List.filter_In. unfold keep.
    rewrite negb_true_iff, andb_false_iff. done.
  - cbn [cleanup_old_zips]. f_equal. fold keep.
    induction files as [|f files IH]; [done |]. cbn [List.filter].
    destruct (keep f) eqn:Hf; [| done]. cbn [List.filter]. by rewrite Hf, IH.
  - intros Hrm. cbn [cleanup_old_zips]. f_equal. fold keep.
    rewrite List.filter_app.
    assert (List.filter keep (make_zips W images).*1 = []) as ->; [| by rewrite app_nil_r].
    pose proof (archive_names_end_in_zip W images) as Hzip.
    induction Hzip as [|f l Hf _ IH]; [done |]. cbn [List.filter].
    unfold keep at 1. by rewrite Hf, Hrm.
Qed.

Lemma cleanup_removes_old_archives_witness :
  cleanup_old_zips (fun _ => true)
    (Some (["notes.txt"; "A.20240101_000000_1_images.zip"]%string
           ++ (make_zips (demo_world 1000)
                 (append_all [("A"%string, ("one.jpg"%string, []))] [])).*1))
  = Some ["notes.txt"%string].
Proof.
  destruct (cleanup_removes_old_archives (fun _ => true)
              ["notes.txt"; "A.20240101_000000_1_images.zip"]%string (demo_world 1000)
              (append_all [("A"%string, ("one.jpg"%string, []))] []))
    as (_ & left_files & Hleft & _ & _ & _ & Hall).
  rewrite Hall by done. rewrite <- Hleft. reflexivity.
Defined.
